(** * TREX-IO interface of PySCF: a shallow embedding of [pyscf/tools/trexio.py]

    The module converts molecules, SCF wavefunctions and two-electron
    integrals to and from TREX-IO containers.  The embedding follows the
    Python source function by function and keeps its names.  Python
    exceptions are values of [exception]; a function that can raise returns
    a [result].  numpy arrays are lists (one-dimensional) or lists of rows
    (two-dimensional); the entries of floating-point arrays are only ever
    moved around by the code modelled here, so their type is a parameter
    [R] with the two literals [0.0] and [1.0] the source writes. *)

From Stdlib Require Import ZArith Lia String.
From stdpp Require Import base tactics option list sorting strings pretty gmap.

Open Scope string_scope.
Open Scope nat_scope.
Open Scope list_scope.

(** ** Python exceptions and the error monad *)

Inductive exception : Type :=
  | NotImplementedError (msg : string)
  | AssertionError (cond : string)
  | KeyError (key : string)
  | ValueError (msg : string)
  | TypeError (msg : string)
  | IndexError (msg : string)
  | UnboundLocalError (var : string)
  | RuntimeError (msg : string)
  | PointGroupSymmetryError (msg : string)
  | TrexioError (attr : string).

Inductive result (A : Type) : Type :=
  | Ok (a : A)
  | Raise (e : exception).
Arguments Ok {A} a.
Arguments Raise {A} e.

#[global] Instance result_ret : MRet result := fun A a => Ok a.
#[global] Instance result_bind : MBind result := fun A B f m =>
  match m with
  | Ok a => f a
  | Raise e => Raise e
  end.
#[global] Instance result_fmap : FMap result := fun A B f m =>
  match m with
  | Ok a => Ok (f a)
  | Raise e => Raise e
  end.

(** [for x in xs: acc = body(acc, x)], stopping at the first exception. *)
Fixpoint foldM {A B : Type} (body : B → A → result B) (acc : B) (xs : list A)
  : result B :=
  match xs with
  | [] => Ok acc
  | x :: xs' => acc' ← body acc x; foldM body acc' xs'
  end.

(** The literals [0.0] and [1.0] of the array element type. *)
Class Scalar (R : Type) : Type := { fzero : R; fone : R }.
#[global] Instance Z_scalar : Scalar Z := {| fzero := 0%Z; fone := 1%Z |}.

(** ** numpy and builtin helpers *)

(** Python's builtin [all] on a sequence of booleans. *)
Definition py_all (bs : list bool) : bool := forallb id bs.

(** [enumerate(xs)] *)
Definition enumerate {A : Type} (xs : list A) : list (nat * A) :=
  zip (seq 0 (length xs)) xs.

(** [a[s:e]] for non-negative bounds: Python clamps both ends. *)
Definition slice {A : Type} (s e : nat) (a : list A) : list A :=
  take (e - s) (drop s a).

(** [np.hstack(tup)] on a sequence of one-dimensional arrays; numpy refuses
    an empty sequence. *)
Definition np_hstack {A : Type} (tup : list (list A)) : result (list A) :=
  match tup with
  | [] => Raise (ValueError "need at least one array to concatenate")
  | _ => Ok (concat tup)
  end.

(** [np.split(a, indices)]: the division points are [0], the indices and
    [len(a)]; piece [i] is the slice between two consecutive points. *)
Definition np_split {A : Type} (a : list A) (indices : list nat)
  : list (list A) :=
  let div_points := 0 :: indices ++ [length a] in
  zip_with (fun s e => slice s e a) div_points (tail div_points).

(** Stable argsort, as [np.unique] uses when it is asked for indices:
    keys paired with their positions, inserted from the right, an element
    going before the entries whose key is not smaller. *)
Fixpoint insert_key (x : Z * nat) (l : list (Z * nat)) : list (Z * nat) :=
  match l with
  | [] => [x]
  | y :: l' => if (x.1 <=? y.1)%Z then x :: l else y :: insert_key x l'
  end.

Definition argsort_stable (keys : list Z) : list (Z * nat) :=
  foldr insert_key [] (zip keys (seq 0 (length keys))).

(** The mask of [np.unique]: the first entry, and every entry whose key
    differs from its predecessor's. *)
Fixpoint unique_mask (prev : option Z) (aux : list (Z * nat)) : list nat :=
  match aux with
  | [] => []
  | (k, i) :: aux' =>
      if bool_decide (prev = Some k) then unique_mask (Some k) aux'
      else i :: unique_mask (Some k) aux'
  end.

(** [np.unique(keys, return_index=True)[1]] *)
Definition np_unique_index (keys : list Z) : list nat :=
  unique_mask None (argsort_stable keys).

(** ** [_mode] *)

Definition _mode (code : string) : Z :=
  if String.eqb code "h5" then 0%Z
  else (* trexio text *) 1%Z.

(** ** [_group_by] *)

Definition keys_sorted_cond : string := "all(keys[:-1] <= keys[1:])".

(** [keys[:-1] <= keys[1:]], elementwise. *)
Definition keys_le (keys : list Z) : list bool :=
  zip_with Z.leb (removelast keys) (tail keys).

Definition _group_by {A : Type} (a : list A) (keys : list Z)
  : result (list (list A)) :=
  if py_all (keys_le keys) then
    let idx := np_unique_index keys in
    Ok (np_split a (tail idx))
  else Raise (AssertionError keys_sorted_cond).

(** ** The host library (PySCF) and the data model *)

(** What the module takes from PySCF and numpy without looking inside: the
    float literals, the comparison with [0.0], and the routines that compute
    on floats or on the periodic table.  [charge_of_symbol] is the nuclear
    charge PySCF reads off an atom label (digits are ignored, a ghost centre
    has charge 0); [check_symm] is the test [Mole.build] runs when a point
    group is requested: whether the labelled nuclei, nuclei with different
    labels counting as different, have that point group. *)
Class Host (R : Type) : Type := {
  host_scalar :: Scalar R;
  is_zero : R → bool;                       (* [x == 0.0] *)
  div_bohr : R → R;                         (* [x / lib.param.BOHR] *)
  gto_norm : nat → R → R;                   (* [gto.gto_norm(l, e)] *)
  sph_norm : nat → R;                       (* [sqrt((2l+1)/(4 pi))] *)
  get_scaled_kpts : list R * list R * list R → list R → result (list R);
  pure_symbol_of : string → string;
  charge_of_symbol : string → Z;
  check_symm : string → list (string * list R) → bool;
  pyscf_version : string;
}.

#[global] Instance Z_host : Host Z := {|
  host_scalar := Z_scalar;
  is_zero := Z.eqb 0;
  div_bohr := id;
  gto_norm := fun _ e => e;
  sph_norm := Z.of_nat;
  get_scaled_kpts := fun _ k => Ok k;
  pure_symbol_of := id;
  charge_of_symbol := fun s =>
    if String.prefix "He" s then 2%Z
    else if String.prefix "H" s then 1%Z
    else if String.prefix "F" s then 9%Z
    else 0%Z;
  check_symm := fun g _ => String.eqb g "C1";
  pyscf_version := "2.6.2";
|}.

Section DataModel.
Context {R : Type}.

(** One shell: [_bas] columns [ANG_OF] and [NCTR_OF], the exponents
    ([NPRIM_OF] of them) and the [NPRIM_OF x NCTR_OF] coefficient table. *)
Record shell : Type := {
  ANG_OF : nat;
  NCTR_OF : nat;
  bas_exp : list R;
  bas_ctr_coeff : list (list R);
}.

Definition NPRIM_OF (sh : shell) : nat := length (bas_exp sh).

(** One nucleus with the shells PySCF generated for it. *)
Record atom : Type := {
  atom_pure_symbol : string;
  atom_symbol : string;
  atom_charge : Z;
  atom_coord : list R;
  atom_shells : list shell;
}.

(** One ECP channel [[l, [[(exp, coeff), ...] for each radial power]]]. *)
Definition ecp_channel : Type := (Z * list (list (R * R)))%type.

(** [gto.Mole]; a [pbc.gto.Cell] is a [Mole] with lattice vectors. *)
Record Mole : Type := {
  _atom : list atom;
  cart : bool;
  symmetry : bool;
  groupname : string;
  nelec : nat * nat;
  _pseudo : gmap string string;
  _ecp : gmap string (Z * list ecp_channel);
  lattice : option (list R * list R * list R);
}.

Definition natm (mol : Mole) : nat := length (_atom mol).

(** [mol._bas]: PySCF lays the shells out nucleus by nucleus; the first
    component is the [ATOM_OF] column. *)
Definition _bas (mol : Mole) : list (nat * shell) :=
  flat_map (fun '(ia, a) => map (pair ia) (atom_shells a))
           (enumerate (_atom mol)).

Definition nbas (mol : Mole) : nat := length (_bas mol).

(** [mol.nao]: [nao_cart()] or [nao_nr()]. *)
Definition nao_cart (mol : Mole) : nat :=
  sum_list (map (fun '(_, sh) =>
    (((ANG_OF sh + 1) * (ANG_OF sh + 2)) `div` 2) * NCTR_OF sh) (_bas mol)).
Definition nao_nr (mol : Mole) : nat :=
  sum_list (map (fun '(_, sh) => (2 * ANG_OF sh + 1) * NCTR_OF sh) (_bas mol)).
Definition nao (mol : Mole) : nat :=
  if cart mol then nao_cart mol else nao_nr mol.

(** [scf.hf.SCF] objects: everything that is not [scf.uhf.UHF] keeps one
    orbital set, a [UHF] keeps an alpha and a beta set. *)
Inductive SCF : Type :=
  | RHF (mol : Mole) (kpt : list R)
        (mo_energy : list R) (mo_coeff : list (list R)) (mo_occ : list R)
  | UHF (mol : Mole) (kpt : list R)
        (mo_energy : list R * list R)
        (mo_coeff : list (list R) * list (list R))
        (mo_occ : list R * list R).

Definition scf_mol (mf : SCF) : Mole :=
  match mf with RHF mol _ _ _ _ => mol | UHF mol _ _ _ _ => mol end.
Definition scf_kpt (mf : SCF) : list R :=
  match mf with RHF _ k _ _ _ => k | UHF _ k _ _ _ => k end.

(** The argument of [to_trexio]. *)
Inductive pyobject : Type :=
  | ObjMole (mol : Mole)
  | ObjSCF (mf : SCF)
  | ObjOther (class_name : string).

(** ** The container *)

(** A TREX-IO file: named, typed attributes. *)
Inductive value : Type :=
  | VInt (n : Z)
  | VBool (b : bool)
  | VStr (s : string)
  | VStrs (l : list string)
  | VInts (l : list Z)
  | VReals (l : list R)
  | VMatrix (m : list (list R))
  | VSparse (idx : list (nat * nat * nat * nat)) (vals : list R).

Local Abbreviation trexio_file := (gmap string value).

Definition has_attr (attr : string) (tf : trexio_file) : bool :=
  bool_decide (is_Some (tf !! attr)).

Definition ecp_attrs : list string :=
  ["ecp_num"; "ecp_max_ang_mom_plus_1"; "ecp_z_core"; "ecp_nucleus_index";
   "ecp_ang_mom"; "ecp_coefficient"; "ecp_exponent"; "ecp_power"].

(** [trexio.has_ecp]: the group exists once one of its attributes does. *)
Definition has_ecp (tf : trexio_file) : bool :=
  existsb (fun a => has_attr a tf) ecp_attrs.

Definition read_int (attr : string) (tf : trexio_file) : result Z :=
  match tf !! attr with Some (VInt n) => Ok n | _ => Raise (TrexioError attr) end.
Definition read_str (attr : string) (tf : trexio_file) : result string :=
  match tf !! attr with Some (VStr s) => Ok s | _ => Raise (TrexioError attr) end.
Definition read_strs (attr : string) (tf : trexio_file) : result (list string) :=
  match tf !! attr with Some (VStrs l) => Ok l | _ => Raise (TrexioError attr) end.
Definition read_ints (attr : string) (tf : trexio_file) : result (list Z) :=
  match tf !! attr with Some (VInts l) => Ok l | _ => Raise (TrexioError attr) end.
Definition read_reals (attr : string) (tf : trexio_file) : result (list R) :=
  match tf !! attr with Some (VReals l) => Ok l | _ => Raise (TrexioError attr) end.
Definition read_matrix (attr : string) (tf : trexio_file)
  : result (list (list R)) :=
  match tf !! attr with Some (VMatrix m) => Ok m | _ => Raise (TrexioError attr) end.

(** Code that writes to an open file: the file is threaded through, and an
    exception leaves it as it was when the exception was raised. *)
Definition tio (A : Type) : Type := trexio_file → result A * trexio_file.

Definition tio_ret {A : Type} (a : A) : tio A := fun tf => (Ok a, tf).
Definition tio_bind {A B : Type} (f : A → tio B) (m : tio A) : tio B :=
  fun tf => match m tf with
            | (Ok a, tf') => f a tf'
            | (Raise e, tf') => (Raise e, tf')
            end.
Definition raise {A : Type} (e : exception) : tio A := fun tf => (Raise e, tf).
Definition lift {A : Type} (r : result A) : tio A := fun tf => (r, tf).
Definition write (attr : string) (v : value) : tio unit :=
  fun tf => (Ok tt, <[attr := v]> tf).
End DataModel.

Arguments shell : clear implicits.
Arguments atom : clear implicits.
Arguments ecp_channel : clear implicits.
Arguments Mole : clear implicits.
Arguments SCF : clear implicits.
Arguments pyobject : clear implicits.
Arguments value : clear implicits.
Abbreviation trexio_file R := (gmap string (value R)).
Arguments tio : clear implicits.

#[global] Instance tio_mret {R} : MRet (tio R) := fun A => tio_ret.
#[global] Instance tio_mbind {R} : MBind (tio R) := fun A B => tio_bind.

(** ** Arrays of one or two dimensions *)

Section Arrays.
Context {A : Type}.

(** [m.T] for a matrix given by its rows (at least one row). *)
Definition np_T (m : list (list A)) : list (list A) :=
  match m with
  | [] => []
  | r0 :: _ => map (fun j => omap (fun r => r !! j) m) (seq 0 (length r0))
  end.

(** [a[idx]] with an index array: the entries (rows) at the positions of
    [idx]; a position outside the array raises. *)
Definition np_take {B : Type} (a : list B) (idx : list nat) : result (list B) :=
  foldr (fun i acc =>
           match a !! i with
           | Some x => cons x <$> acc
           | None => Raise (IndexError "index is out of bounds")
           end) (Ok []) idx.

(** [a[(rows, cols)]] with a pair of index arrays, on a table. *)
Definition np_take2 {B : Type} (a : list (list B)) (idx : list (nat * nat))
  : result (list B) :=
  foldr (fun pq acc =>
           match a !! pq.1 ≫= (fun row => row !! pq.2) with
           | Some x => cons x <$> acc
           | None => Raise (IndexError "index is out of bounds")
           end) (Ok []) idx.

(** [a[idx] = vals] with an index array: assignments in order, so a later
    one wins; a position outside the array raises, and so does a value
    array of another length. *)
Definition np_put {B : Type} (a : list B) (idx : list nat) (vals : list B)
  : result (list B) :=
  if negb (length idx =? length vals) then
    Raise (ValueError "shape mismatch: value array cannot be broadcast")
  else if existsb (fun i => length a <=? i) idx then
    Raise (IndexError "index is out of bounds")
  else Ok (foldl (fun acc '(i, v) => <[i := v]> acc) a (zip idx vals)).

(** An entry of an index array as a position of an array of length [len]:
    a negative entry counts from the end, an entry outside
    [-len .. len-1] is out of bounds. *)
Definition py_index (len : nat) (k : Z) : option nat :=
  if bool_decide (0 ≤ k < Z.of_nat len)%Z then Some (Z.to_nat k)
  else if bool_decide (- Z.of_nat len ≤ k < 0)%Z
       then Some (Z.to_nat (k + Z.of_nat len))
       else None.

(** [a[idx] = vals] with an array of signed indices. *)
Definition np_put_z {B : Type} (a : list B) (idx : list Z) (vals : list B)
  : result (list B) :=
  if negb (length idx =? length vals) then
    Raise (ValueError "shape mismatch: value array cannot be broadcast")
  else
    match mapM (py_index (length a)) idx with
    | Some positions =>
        Ok (foldl (fun acc '(i, v) => <[i := v]> acc) a (zip positions vals))
    | None => Raise (IndexError "index is out of bounds")
    end.

(** A numpy array whose rank is known only at run time. *)
Inductive ndarray : Type :=
  | Arr1 (l : list A)
  | Arr2 (m : list (list A)).

Definition arr_take (a : ndarray) (idx : list nat) : result ndarray :=
  match a with
  | Arr1 l => Arr1 <$> np_take l idx
  | Arr2 m => Arr2 <$> np_take m idx
  end.
Definition arr_T (a : ndarray) : ndarray :=
  match a with Arr1 l => Arr1 l | Arr2 m => Arr2 (np_T m) end.
Definition arr_ravel (a : ndarray) : list A :=
  match a with Arr1 l => l | Arr2 m => concat m end.

(** [np.hstack] called with a star-unpacked argument sequence [args]:
    [hstack] has one positional parameter, so the call
    goes through only when the unpacked sequence has one element, which is
    then the sequence of arrays to stack. *)
Definition np_hstack_star (args : list (list (list A))) : result ndarray :=
  match args with
  | [tup] => Arr1 <$> np_hstack tup
  | _ => Raise (TypeError "hstack() takes 1 positional argument")
  end.

(** The idiom [idx = np.empty(k); idx[::2] = evens; idx[1::2] = odds], for
    [evens] one longer than [odds]. *)
Fixpoint stride2 (evens odds : list A) : list A :=
  match evens with
  | [] => []
  | e :: evens' =>
      e :: match odds with
           | [] => []
           | o :: odds' => o :: stride2 evens' odds'
           end
  end.
End Arrays.
Arguments ndarray : clear implicits.

(** ** [_order_ao_index] *)

(** The block built in the loop [for l in range(2, lmax + 1)]. *)
Definition cache_block (l : nat) : list nat :=
  stride2 (map (fun k => l - k) (seq 0 (l + 1))) (seq (l + 1) l).

Definition cache_by_l (lmax : nat) : list (list nat) :=
  [[0]; [2; 0; 1]] ++ map cache_block (seq 2 (lmax + 1 - 2)).

(** One pass of the inner loop body:
    [idx.append(cache_by_l[l] + off); off += l * 2 + 1]. *)
Definition order_step (cache : list (list nat)) (st : list (list nat) * nat)
    (l : nat) : result (list (list nat) * nat) :=
  match cache !! l with
  | Some c => Ok (st.1 ++ [map (fun i => i + st.2) c], st.2 + (l * 2 + 1))
  | None => Raise (IndexError "list index out of range")
  end.

Definition _order_ao_index {R : Type} (mol : Mole R) : result (list nat) :=
  if cart mol then Ok (seq 0 (nao mol))
  else
    match map (fun b => ANG_OF b.2) (_bas mol) with
    | [] => Raise (ValueError "zero-size array to reduction operation maximum")
    | angs =>
        let lmax := max_list angs in
        let cache := cache_by_l lmax in
        st ← foldM (fun st b =>
                      foldM (fun st' _ => order_step cache st' (ANG_OF b.2))
                            st (seq 0 (NCTR_OF b.2)))
                   ([], 0) (_bas mol);
        np_hstack st.1
    end.

(** ** [_mol_to_trexio] *)

Section ExportMol.
Context {R : Type} `{!Host R}.

(** The eight lists and the counter the ECP loop fills. *)
Record ecp_arrays : Type := {
  ecp_num : nat;
  ecp_max_ang_mom_plus_1 : list Z;
  ecp_z_core : list Z;
  ecp_nucleus_index : list nat;
  ecp_ang_mom : list Z;
  ecp_coefficient : list R;
  ecp_exponent : list R;
  ecp_power : list Z;
}.

Definition ecp_empty : ecp_arrays :=
  {| ecp_num := 0; ecp_max_ang_mom_plus_1 := []; ecp_z_core := [];
     ecp_nucleus_index := []; ecp_ang_mom := []; ecp_coefficient := [];
     ecp_exponent := []; ecp_power := [] |}.

(** The inert term [ecp_num += 1; ...append(...)] of a ghost centre or of
    the missing ul-s part: angular momentum 0, coefficient 0.0, exponent
    1.0, power 0. *)
Definition ecp_dummy_term (nuc_index : nat) (acc : ecp_arrays) : ecp_arrays :=
  {| ecp_num := ecp_num acc + 1;
     ecp_max_ang_mom_plus_1 := ecp_max_ang_mom_plus_1 acc;
     ecp_z_core := ecp_z_core acc;
     ecp_nucleus_index := ecp_nucleus_index acc ++ [nuc_index];
     ecp_ang_mom := ecp_ang_mom acc ++ [0%Z];
     ecp_coefficient := ecp_coefficient acc ++ [fzero];
     ecp_exponent := ecp_exponent acc ++ [fone];
     ecp_power := ecp_power acc ++ [0%Z] |}.

(** [re.match(r"X-.*", s)] *)
Definition is_ghost_label (s : string) : bool := String.prefix "X-" s.

(** [max(xs)] on a Python list. *)
Definition py_max (xs : list Z) : result Z :=
  match xs with
  | [] => Raise (ValueError "max() arg is an empty sequence")
  | x :: xs' => Ok (foldl Z.max x xs')
  end.

(** The terms of one channel, [(ang_mom, coeff, exp, r - 2)], in the order
    of the two inner loops. *)
Definition ecp_channel_terms (max_ang_mom_plus_1 : Z) (ecp : ecp_channel R)
  : list (Z * R * R * Z) :=
  let ang_mom := if (ecp.1 =? -1)%Z then max_ang_mom_plus_1 else ecp.1 in
  flat_map (fun '(r, exp_coeff_list) =>
              map (fun '(exp, coeff) => (ang_mom, coeff, exp, (Z.of_nat r - 2)%Z))
                  exp_coeff_list)
           (enumerate ecp.2).

(** The body of the loop over the nuclei. *)
Definition ecp_atom (mol : Mole R) (acc : ecp_arrays)
    (item : nat * (string * string)) : result ecp_arrays :=
  let '(nuc_index, (chemical_symbol, atom_symbol)) := item in
  if is_ghost_label chemical_symbol || is_ghost_label atom_symbol then
    let acc' := ecp_dummy_term nuc_index acc in
    Ok {| ecp_num := ecp_num acc';
          ecp_max_ang_mom_plus_1 := ecp_max_ang_mom_plus_1 acc ++ [1%Z];
          ecp_z_core := ecp_z_core acc ++ [0%Z];
          ecp_nucleus_index := ecp_nucleus_index acc';
          ecp_ang_mom := ecp_ang_mom acc';
          ecp_coefficient := ecp_coefficient acc';
          ecp_exponent := ecp_exponent acc';
          ecp_power := ecp_power acc' |}
  else
    (* atom_symbol is superior to atom_pure_symbol *)
    entry ← match _ecp mol !! atom_symbol with
            | Some v => Ok v
            | None => match _ecp mol !! chemical_symbol with
                      | Some v => Ok v
                      | None => Raise (KeyError chemical_symbol)
                      end
            end;
    let '(z_core, ecp_list) := entry in
    max_ang_mom ← py_max (map fst ecp_list);
    let dummy_ul_s_part := (max_ang_mom =? -1)%Z in
    let max_ang_mom_plus_1 :=
      if dummy_ul_s_part then 1%Z else (max_ang_mom + 1)%Z in
    let terms := flat_map (ecp_channel_terms max_ang_mom_plus_1) ecp_list in
    let acc1 :=
      {| ecp_num := ecp_num acc + length terms;
         ecp_max_ang_mom_plus_1 := ecp_max_ang_mom_plus_1 acc ++ [max_ang_mom_plus_1];
         ecp_z_core := ecp_z_core acc ++ [z_core];
         ecp_nucleus_index := ecp_nucleus_index acc ++ map (fun _ => nuc_index) terms;
         ecp_ang_mom := ecp_ang_mom acc ++ map (fun t => t.1.1.1) terms;
         ecp_coefficient := ecp_coefficient acc ++ map (fun t => t.1.1.2) terms;
         ecp_exponent := ecp_exponent acc ++ map (fun t => t.1.2) terms;
         ecp_power := ecp_power acc ++ map (fun t => t.2) terms |} in
    Ok (if dummy_ul_s_part then ecp_dummy_term nuc_index acc1 else acc1).

(** The whole loop, from empty lists. *)
Definition ecp_encode (mol : Mole R) : result ecp_arrays :=
  let chemical_symbol_list := map atom_pure_symbol (_atom mol) in
  let atom_symbol_list := map atom_symbol (_atom mol) in
  foldM (ecp_atom mol) ecp_empty
        (enumerate (zip chemical_symbol_list atom_symbol_list)).

Definition write_ecp (e : ecp_arrays) : tio R unit :=
  write "ecp_num" (VInt (Z.of_nat (ecp_num e)));;
  write "ecp_max_ang_mom_plus_1" (VInts (ecp_max_ang_mom_plus_1 e));;
  write "ecp_z_core" (VInts (ecp_z_core e));;
  write "ecp_nucleus_index" (VInts (map Z.of_nat (ecp_nucleus_index e)));;
  write "ecp_ang_mom" (VInts (ecp_ang_mom e));;
  write "ecp_coefficient" (VReals (ecp_coefficient e));;
  write "ecp_exponent" (VReals (ecp_exponent e));;
  write "ecp_power" (VInts (ecp_power e)).

Definition generalized_contraction_msg : string :=
  "The generalized contraction is not supported.".
Definition pseudo_msg : string :=
  "TREXIO does not support 'pseudo' format. Please use 'ecp'".

(** Number of functions of a shell, [int((l+1) * (l+2) / 2)] or [2*l+1]. *)
Definition ao_per_shell (is_cart : bool) (l : nat) : nat :=
  if is_cart then ((l + 1) * (l + 2)) `div` 2 else 2 * l + 1.

(** [ao_normalization] of one shell.  PySCF normalizes s and p only. *)
Definition ao_norm_of_shell (is_cart : bool) (l : nat) : list R :=
  if is_cart then
    if bool_decide (l = 0 ∨ l = 1)
    then replicate (ao_per_shell true l) (sph_norm l)
    else replicate (ao_per_shell true l) fone
  else replicate (ao_per_shell false l) (sph_norm l).

(* 1 Metadata *)
Definition write_metadata : tio R unit :=
  write "metadata_code_num" (VInt 1);;
  write "metadata_code" (VStrs ["PySCF-v" +:+ pyscf_version]).

(* 2 System *)
Definition write_nucleus (mol : Mole R) : tio R unit :=
  write "nucleus_num" (VInt (Z.of_nat (natm mol)));;
  write "nucleus_charge" (VInts (map atom_charge (_atom mol)));;
  write "nucleus_coord" (VMatrix (map atom_coord (_atom mol)));;
  write "nucleus_label" (VStrs (map atom_pure_symbol (_atom mol)));;
  if symmetry mol then write "nucleus_point_group" (VStr (groupname mol))
  else mret tt.

(* 2.3 Periodic boundary calculations *)
Definition write_pbc (mol : Mole R) : tio R unit :=
  match lattice mol with
  | Some (a, b, c) =>
      write "pbc_periodic" (VBool true);;
      write "cell_a" (VReals (map div_bohr a));;
      write "cell_b" (VReals (map div_bohr b));;
      write "cell_c" (VReals (map div_bohr c))
  | None => write "pbc_periodic" (VBool false)
  end.

(* 2.4 Electron *)
Definition write_electron (mol : Mole R) : tio R unit :=
  let electron_up_num := (nelec mol).1 in
  let electron_dn_num := (nelec mol).2 in
  write "electron_num" (VInt (Z.of_nat (electron_up_num + electron_dn_num)));;
  write "electron_up_num" (VInt (Z.of_nat electron_up_num));;
  write "electron_dn_num" (VInt (Z.of_nat electron_dn_num)).

(* 3.1 Basis set *)
Definition write_basis (mol : Mole R) : tio R unit :=
  let bas := _bas mol in
  write "basis_type" (VStr "Gaussian");;
  write "basis_shell_num" (VInt (Z.of_nat (nbas mol)));;
  write "basis_prim_num"
        (VInt (Z.of_nat (sum_list (map (fun b => NPRIM_OF b.2) bas))));;
  write "basis_nucleus_index" (VInts (map (fun b => Z.of_nat b.1) bas));;
  write "basis_shell_ang_mom" (VInts (map (fun b => Z.of_nat (ANG_OF b.2)) bas));;
  write "basis_shell_factor" (VReals (replicate (nbas mol) fone));;
  let prim2sh :=
    map (fun ib => replicate (NPRIM_OF ib.2.2) (Z.of_nat ib.1)) (enumerate bas) in
  shell_index ← lift (np_hstack prim2sh);
  write "basis_shell_index" (VInts shell_index);;
  exponent ← lift (np_hstack (map (fun b => bas_exp b.2) bas));
  write "basis_exponent" (VReals exponent);;
  (if negb (forallb (fun b => NCTR_OF b.2 =? 1) bas)
   then raise (NotImplementedError generalized_contraction_msg)
   else mret tt);;
  coef ← lift (np_hstack (map (fun b => concat (bas_ctr_coeff b.2)) bas));
  write "basis_coefficient" (VReals coef);;
  prim_norms ←
    lift (np_hstack (map (fun b => map (gto_norm (ANG_OF b.2)) (bas_exp b.2)) bas));
  write "basis_prim_factor" (VReals prim_norms).

(* 3.2 Effective core potentials *)
Definition write_ecp_group (mol : Mole R) : tio R unit :=
  (if bool_decide (0 < size (_pseudo mol))
   then raise (NotImplementedError pseudo_msg)
   else mret tt);;
  if bool_decide (_ecp mol = ∅) then mret tt
  else e ← lift (ecp_encode mol); write_ecp e.

(* 4.1 Atomic orbitals *)
Definition write_ao (mol : Mole R) : tio R unit :=
  let bas := _bas mol in
  write "ao_cartesian" (VInt (if cart mol then 1 else 0));;
  let ao_shell :=
    flat_map (fun ib => replicate (ao_per_shell (cart mol) (ANG_OF ib.2.2))
                                  (Z.of_nat ib.1))
             (enumerate bas) in
  let ao_normalization :=
    flat_map (fun b => ao_norm_of_shell (cart mol) (ANG_OF b.2)) bas in
  write "ao_num" (VInt (Z.of_nat (nao mol)));;
  write "ao_shell" (VInts ao_shell);;
  write "ao_normalization" (VReals ao_normalization).

(** The function runs its numbered parts in order. *)
Definition _mol_to_trexio (mol : Mole R) : tio R unit :=
  write_metadata;;
  write_nucleus mol;;
  write_pbc mol;;
  write_electron mol;;
  write_basis mol;;
  write_ecp_group mol;;
  write_ao mol.
End ExportMol.
Arguments ecp_arrays : clear implicits.

(** ** [_scf_to_trexio] and [to_trexio] *)

Section ExportSCF.
Context {R : Type} `{!Host R}.

Definition complex_wf_msg : string := "Complex WF is not yet implemented.".
Definition twisted_msg : string := "Twisted-average is not yet implemented.".

(** The k-point block, run for a [pbc.gto.Cell] only. *)
Definition write_kpoint (a : list R * list R * list R) (kpt : list R)
  : tio R unit :=
  match get_scaled_kpts a kpt with
  | Ok kpt' =>
      if forallb is_zero kpt' then
        (* gamma point PBC. Real wavefunction *)
        write "pbc_k_point_num" (VInt 1);;
        write "pbc_k_point" (VMatrix [kpt']);;
        write "pbc_k_point_weight" (VReals [fone])
      else
        (* general point PBC. Complex wavefunction *)
        raise (NotImplementedError complex_wf_msg)
  | Raise (ValueError _) =>
      (* general points PBC. Complex wavefunctions *)
      raise (NotImplementedError twisted_msg)
  | Raise e => raise e
  end.

(* 4.2 Molecular orbitals *)
Definition write_mo (mf : SCF R) : tio R unit :=
  orbitals ←
    match mf with
    | UHF _ _ mo_energy mo_coeff mo_occ =>
        let mo_energy' := mo_energy.1 ++ mo_energy.2 in
        mo ← lift (np_hstack_star [mo_coeff.1; mo_coeff.2]);
        let mo_occ' := mo_occ.1 ++ mo_occ.2 in
        let spin := replicate (length mo_energy.1) 0%Z
                    ++ replicate (length mo_energy' - length mo_energy.1) 1%Z in
        mret (mo_energy', mo, mo_occ', spin, "UHF")
    | RHF _ _ mo_energy mo_coeff mo_occ =>
        let spin := replicate (length mo_energy) 0%Z in
        mret (mo_energy, Arr2 mo_coeff, mo_occ, spin, "RHF")
    end;
  let '(mo_energy, mo, mo_occ, spin, mo_type) := orbitals in
  write "mo_type" (VStr mo_type);;
  idx ← lift (_order_ao_index (scf_mol mf));
  write "mo_num" (VInt (Z.of_nat (length mo_energy)));;
  permuted ← lift (arr_take mo idx);
  write "mo_coefficient" (VReals (arr_ravel (arr_T permuted)));;
  write "mo_energy" (VReals mo_energy);;
  write "mo_occupation" (VReals mo_occ);;
  write "mo_spin" (VInts spin).

Definition _scf_to_trexio (mf : SCF R) : tio R unit :=
  let mol := scf_mol mf in
  _mol_to_trexio mol;;
  (* 2.3 Periodic boundary calculations *)
  match lattice mol with
  | Some a => write_kpoint a (scf_kpt mf)
  | None => mret tt
  end;;
  write_mo mf.

(** [to_trexio(obj, filename, backend)]: the file is opened in mode ['u']
    and may exist already; [tf] is its content at that point. *)
Definition to_trexio (obj : pyobject R) : tio R unit :=
  match obj with
  | ObjMole mol => _mol_to_trexio mol
  | ObjSCF mf => _scf_to_trexio mf
  | ObjOther cls => raise (NotImplementedError ("Conversion function for " +:+ cls))
  end.
End ExportSCF.

(** ** [mol_from_trexio] and [scf_from_trexio] *)

Section ImportMol.
Context {R : Type} `{!Host R}.

Definition basis_type_cond : string := "trexio.read_basis_type(tf) == 'Gaussian'".
Definition square_cond : string := "mo.shape == (nao, nao)".

(** An entry of [mol._basis]: [[l, (e, c), (e, c), ...]]. *)
Definition basis_entry : Type := (Z * list (R * R))%type.

(** What the function hands to [mol.build()]. *)
Record mole_input : Type := {
  in_atom : list (string * list R);
  in_cart : bool;
  in_symmetry : option string;
  in__basis : gmap string (list basis_entry);
}.

(** The host's [Mole.build], on the attributes set here.  The function sets
    neither [charge] nor [spin], so the structure is built neutral and
    closed-shell: the build raises when the nuclear charges sum to an odd
    number of electrons.  When a point group was read, the build raises
    unless the labelled nuclei have it.  Otherwise it returns the nuclei in
    order, each with the shells of its entry of [_basis] (none when it has no
    entry), every shell a single contraction over its primitives. *)
Definition shell_of_entry (e : basis_entry) : shell R :=
  {| ANG_OF := Z.to_nat e.1; NCTR_OF := 1;
     bas_exp := map fst e.2; bas_ctr_coeff := map (fun ec => [ec.2]) e.2 |}.

Definition electron_spin_msg : string :=
  "Electron number and spin are not consistent".
Definition point_group_msg : string := "Unable to identify input symmetry".

(** [mol.nelectron] of the structure being built: the nuclear charges of
    the labels, the total charge being 0. *)
Definition nelectron_of (elements : list string) : Z :=
  foldr Z.add 0%Z (map charge_of_symbol elements).

Definition Mole_build (inp : mole_input) : result (Mole R) :=
  let nelectron := nelectron_of (map fst (in_atom inp)) in
  if Z.odd nelectron then Raise (RuntimeError electron_spin_msg)
  else if match in_symmetry inp with
          | Some g => negb (check_symm g (in_atom inp))
          | None => false
          end
  then Raise (PointGroupSymmetryError point_group_msg)
  else
    Ok {| _atom := map (fun '(element, coord) =>
                          {| atom_pure_symbol := pure_symbol_of element;
                             atom_symbol := element;
                             atom_charge := charge_of_symbol element;
                             atom_coord := coord;
                             atom_shells :=
                               map shell_of_entry
                                   (default [] (in__basis inp !! element)) |})
                       (in_atom inp);
          cart := in_cart inp;
          symmetry := bool_decide (is_Some (in_symmetry inp));
          groupname := default "" (in_symmetry inp);
          nelec := (Z.to_nat (nelectron `div` 2), Z.to_nat (nelectron `div` 2));
          _pseudo := ∅;
          _ecp := ∅;
          lattice := None |}.

(** The loop [for ia, at_ls in enumerate(_group_by(ls, nuc_idx))]; the
    state is the dictionary [basis] and the running end [p1]. *)
Definition basis_step (elements : list string) (ls : list Z)
    (exps coef : list (list R))
    (st : gmap string (list basis_entry) * nat) (item : nat * list Z)
  : result (gmap string (list basis_entry) * nat) :=
  let '(ia, at_ls) := item in
  let p0 := st.2 in
  let p1 := st.2 + length at_ls in
  let at_basis :=
    zip_with (fun l ec => (l, ec))
             (slice p0 p1 ls)
             (zip_with zip (slice p0 p1 exps) (slice p0 p1 coef)) in
  match elements !! ia with
  | Some el => Ok (<[el := at_basis]> st.1, p1)
  | None => Raise (IndexError "list index out of range")
  end.

Definition read_mole_input (tf : trexio_file R) : result mole_input :=
  basis_type ← read_str "basis_type" tf;
  if negb (String.eqb basis_type "Gaussian") then
    Raise (AssertionError basis_type_cond)
  else if has_ecp tf then Raise (NotImplementedError "")
  else
    labels ← read_strs "nucleus_label" tf;
    coords ← read_matrix "nucleus_coord" tf;
    let elements := imap (fun i s => s +:+ pretty i) labels in
    is_cart ← (if has_attr "ao_cartesian" tf
               then c ← read_int "ao_cartesian" tf; Ok (c =? 1)%Z
               else Ok false);
    sym ← (if has_attr "nucleus_point_group" tf
           then Some <$> read_str "nucleus_point_group" tf
           else Ok None);
    nuc_idx ← read_ints "basis_nucleus_index" tf;
    ls ← read_ints "basis_shell_ang_mom" tf;
    prim2sh ← read_ints "basis_shell_index" tf;
    exps ← read_reals "basis_exponent" tf;
    coef ← read_reals "basis_coefficient" tf;
    exps' ← _group_by exps prim2sh;
    coef' ← _group_by coef prim2sh;
    groups ← _group_by ls nuc_idx;
    st ← foldM (basis_step elements ls exps' coef') (∅, 0) (enumerate groups);
    Ok {| in_atom := zip elements coords; in_cart := is_cart;
          in_symmetry := sym; in__basis := st.1 |}.

Definition mol_from_trexio (tf : trexio_file R) : result (Mole R) :=
  inp ← read_mole_input tf;
  Mole_build inp.

(** [trexio.read_mo_coefficient]: the flat array in the shape
    [(mo_num, ao_num)] the file declares. *)
Definition read_mo_coefficient (tf : trexio_file R)
  : result (nat * nat * list (list R)) :=
  mo_num ← read_int "mo_num" tf;
  ao_num ← read_int "ao_num" tf;
  flat ← read_reals "mo_coefficient" tf;
  let m := Z.to_nat mo_num in
  let a := Z.to_nat ao_num in
  if length flat =? m * a then Ok (m, a, reshape (replicate m a) flat)
  else Raise (TrexioError "mo_coefficient").

(** [uninit i j] is what [np.empty_like] happens to hold at row [i],
    column [j]. *)
Definition scf_from_trexio (uninit : nat → nat → R) (tf : trexio_file R)
  : result (SCF R) :=
  mol ← mol_from_trexio tf;
  mo_energy ← read_reals "mo_energy" tf;
  mo ← read_mo_coefficient tf;
  mo_occ ← read_reals "mo_occupation" tf;
  let n := nao mol in
  let '(rows, cols, mo_rows) := mo in
  if negb ((rows =? n) && (cols =? n)) then
    Raise (AssertionError square_cond)   (* RHF only *)
  else
    let empty_T := map (fun i => map (fun j => uninit j i) (seq 0 rows)) (seq 0 cols) in
    idx ← _order_ao_index mol;
    mo_coeff ← np_put empty_T idx (np_T mo_rows);
    Ok (RHF mol [] mo_energy mo_coeff mo_occ).
End ImportMol.

(** ** [write_eri] and [read_eri] *)

Section Eri.
Context {R : Type} `{!Scalar R}.

(** The integral array handed to [write_eri]: its shape and its entries in
    row-major order ([eri.ravel()]). *)
Record eri_array : Type := { eri_shape : list nat; eri_data : list R }.

(** [np.argwhere(np.arange(n)[:,None] >= np.arange(n))], which is also the
    pair of index arrays of [np.tril_indices(n)]: the positions [(i, j)]
    with [i >= j], in row-major order. *)
Definition lower_triangle (n : nat) : list (nat * nat) :=
  filter (fun p => p.2 ≤ p.1) (list_prod (seq 0 n) (seq 0 n)).

(** [idx = np.empty((npair, npair, 4)); idx[:,:,:2] = idx_pair[:,None,:];
    idx[:,:,2:] = idx_pair[None,:,:]]: entry [(p, q)] holds pair [p]
    followed by pair [q].  The assignments need [npair] pairs. *)
Definition pair_table (npair : nat) (idx_pair : list (nat * nat))
  : result (list (list (nat * nat * nat * nat))) :=
  if length idx_pair =? npair then
    Ok (map (fun p => map (fun q => (p.1, p.2, q.1, q.2)) idx_pair) idx_pair)
  else Raise (ValueError "could not broadcast input array").

(** [lib.cartesian_prod([np.arange(n)]*4)] *)
Definition cartesian_prod4 (n : nat) : list (nat * nat * nat * nat) :=
  map (fun t => (t.1, t.2.1, t.2.2.1, t.2.2.2))
      (list_prod (seq 0 n) (list_prod (seq 0 n) (list_prod (seq 0 n) (seq 0 n)))).

(** The index list [idx], by the rank of [eri]. *)
Definition eri_index (shape : list nat) : result (list (nat * nat * nat * nat)) :=
  match shape with
  | [n; _; _; _] => Ok (cartesian_prod4 n)
  | [npair; _] => (* 4-fold symmetry *)
      let n := Nat.sqrt (npair * 2) in
      idx ← pair_table npair (lower_triangle n);
      Ok (concat idx)
  | [size] => (* 8-fold symmetry *)
      let npair := Nat.sqrt (size * 2) in
      let n := Nat.sqrt (npair * 2) in
      idx ← pair_table npair (lower_triangle n);
      np_take2 idx (lower_triangle npair)
  | _ => Raise (UnboundLocalError "idx")
  end.

(** [trexio.write_mo_2e_int_eri(tf, 0, num_integrals, idx, values)] on a
    file opened in mode ['w']: the library refuses an empty buffer, refuses
    to write integrals over integrals the file already holds, and otherwise
    stores [num_integrals] entries of each buffer. *)
Definition write_mo_2e_int_eri (num_integrals : nat)
    (idx : list (nat * nat * nat * nat)) (vals : list R) : tio R unit :=
  fun tf =>
    if num_integrals =? 0 then (Raise (TrexioError "Invalid argument"), tf)
    else if has_attr "mo_2e_int_eri" tf
    then (Raise (TrexioError "Attribute already exists"), tf)
    else (Ok tt, <["mo_2e_int_eri" :=
                     VSparse (take num_integrals idx) (take num_integrals vals)]> tf).

Definition write_eri (eri : eri_array) : tio R unit :=
  let num_integrals := length (eri_data eri) in
  idx ← lift (eri_index (eri_shape eri));
  write_mo_2e_int_eri num_integrals idx (eri_data eri).

(** [trexio.read_mo_2e_int_eri(tf, 0, buffer_size)] returns at most
    [buffer_size] entries. *)
Definition read_mo_2e_int_eri (tf : trexio_file R) (buffer_size : nat)
  : result (list (nat * nat * nat * nat) * list R) :=
  match tf !! "mo_2e_int_eri" with
  | Some (VSparse idx vals) => Ok (take buffer_size idx, take buffer_size vals)
  | _ => Raise (TrexioError "mo_2e_int_eri")
  end.

(** The index buffer is an array of 32-bit integers ([write_eri] builds it
    with [dtype=np.int32], and the library hands it back as such), and numpy
    computes on it elementwise in 32 bits, wrapping around silently. *)
Definition wrap32 (z : Z) : Z :=
  ((z + 2147483648) `mod` 4294967296 - 2147483648)%Z.

(** [v*(v+1)//2 + w] on 32-bit entries. *)
Definition tri_plus32 (v w : Z) : Z :=
  wrap32 (wrap32 (v * wrap32 (v + 1)) `div` 2 + w)%Z.

(** The address [x*(x+1)//2+y] of an index quadruple, with
    [x = i*(i+1)//2 + j] and [y = k*(k+1)//2 + l], as the code computes
    it. *)
Definition eri_address (t : nat * nat * nat * nat) : Z :=
  let '(i, j, k, l) := t in
  let x := tri_plus32 (wrap32 (Z.of_nat i)) (wrap32 (Z.of_nat j)) in
  let y := tri_plus32 (wrap32 (Z.of_nat k)) (wrap32 (Z.of_nat l)) in
  tri_plus32 x y.

(** Read ERIs in AO basis, 8-fold symmetry is assumed *)
Definition read_eri (tf : trexio_file R) : result (list R) :=
  nmo ← read_int "mo_num" tf;
  let nmo := Z.to_nat nmo in
  let nao_pair := (nmo * (nmo + 1)) `div` 2 in
  let eri_size := (nao_pair * (nao_pair + 1)) `div` 2 in
  buf ← read_mo_2e_int_eri tf eri_size;
  let eri := replicate eri_size fzero in
  np_put_z eri (map eri_address buf.1) buf.2.
End Eri.
Arguments eri_array : clear implicits.
(** ** The ordering of spherical functions, as a formula *)

(** Magnetic quantum numbers in the order 0, +1, -1, +2, -2, ..., +l, -l. *)
Definition m_order (l : nat) : list Z :=
  0%Z :: flat_map (fun k => [Z.of_nat k; (- Z.of_nat k)%Z]) (seq 1 l).

(** The general interleaving: PySCF keeps the functions of a shell by
    ascending m, so the function of quantum number m sits at position
    [l + m]; the block lists these positions in the order of [m_order]. *)
Definition formula_block (l : nat) : list nat :=
  l :: flat_map (fun k => [l + k; l - k]) (seq 1 l).

(** The blocks the code holds in [cache_by_l]: p shells are kept as
    (Px, Py, Pz) and reordered to (Pz, Px, Py). *)
Definition code_block (l : nat) : list nat :=
  if decide (l = 1) then [2; 0; 1] else formula_block l.

(** Per-column blocks in order, the offset advanced by [2l+1] after each. *)
Fixpoint concat_blocks (block : nat → list nat) (off : nat) (ls : list nat)
  : list nat :=
  match ls with
  | [] => []
  | l :: ls' =>
      map (fun i => i + off) (block l) ++ concat_blocks block (off + (2 * l + 1)) ls'
  end.

(** The angular momentum of every contraction column, in shell order. *)
Definition shell_columns {R : Type} (mol : Mole R) : list nat :=
  flat_map (fun b => replicate (NCTR_OF b.2) (ANG_OF b.2)) (_bas mol).

(** * Notions used in the statements *)

(** [m] changes no attribute outside [K], whether it returns or raises. *)
Definition writes_within {R A : Type} (K : list string) (m : tio R A) : Prop :=
  ∀ (tf : trexio_file R) k, k ∉ K → (m tf).2 !! k = tf !! k.

(** The attributes written by the numbered parts 1 to 4.1 of
    [_mol_to_trexio], the ECP group apart. *)
Definition mol_attrs : list string :=
  ["metadata_code_num"; "metadata_code"; "nucleus_num"; "nucleus_charge";
   "nucleus_coord"; "nucleus_label"; "nucleus_point_group"; "pbc_periodic";
   "cell_a"; "cell_b"; "cell_c"; "electron_num"; "electron_up_num";
   "electron_dn_num"; "basis_type"; "basis_shell_num"; "basis_prim_num";
   "basis_nucleus_index"; "basis_shell_ang_mom"; "basis_shell_factor";
   "basis_shell_index"; "basis_exponent"; "basis_coefficient";
   "basis_prim_factor"; "ao_cartesian"; "ao_num"; "ao_shell";
   "ao_normalization"].

(** The attributes of the k-point block and of the orbital group. *)
Definition kpoint_attrs : list string :=
  ["pbc_k_point_num"; "pbc_k_point"; "pbc_k_point_weight"].

Definition mo_attrs : list string :=
  ["mo_type"; "mo_num"; "mo_coefficient"; "mo_energy"; "mo_occupation"; "mo_spin"].

Definition structure_attrs : list string := mol_attrs ++ ecp_attrs ++ kpoint_attrs.

(** The exception behaviour of [_mol_to_trexio], read off its checks in
    the order they run. *)
Definition mol_outcome {R : Type} `{!Host R} (mol : Mole R) : result unit :=
  if bool_decide (_bas mol = []) then
    Raise (ValueError "need at least one array to concatenate")
  else if negb (forallb (fun b => NCTR_OF b.2 =? 1) (_bas mol))
  then Raise (NotImplementedError generalized_contraction_msg)
  else if bool_decide (0 < size (_pseudo mol))
  then Raise (NotImplementedError pseudo_msg)
  else if bool_decide (_ecp mol = ∅) then Ok tt
  else _ ← ecp_encode mol; Ok tt.

Definition max_empty_msg : string := "max() arg is an empty sequence".

(** The error [mol_from_trexio] ends with on a file with an ECP group: the
    basis-type check runs first, the ECP guard right after it. *)
Definition ecp_import_error {R : Type} (tf : trexio_file R) : exception :=
  match read_str "basis_type" tf with
  | Ok basis_type =>
      if String.eqb basis_type "Gaussian" then NotImplementedError ""
      else AssertionError basis_type_cond
  | Raise e => e
  end.

(** The structure and k-point parts of [_scf_to_trexio], which run before
    the orbitals are touched. *)
Definition scf_structure_part {R : Type} `{!Host R} (mf : SCF R) : tio R unit :=
  _mol_to_trexio (scf_mol mf);;
  match lattice (scf_mol mf) with
  | Some a => write_kpoint a (scf_kpt mf)
  | None => mret tt
  end.

Definition hstack_star_error : exception :=
  TypeError "hstack() takes 1 positional argument".

(** Triangular numbers, [n*(n+1)//2]. *)
Definition tri (n : nat) : nat := (n * (n + 1)) `div` 2.

(** The position [i*(i+1)//2 + j] of the pair [(i, j)]. *)
Definition pair_address (p : nat * nat) : nat := tri p.1 + p.2.

(** The address of an index quadruple over the unbounded integers: what
    [eri_address] computes as long as nothing wraps around. *)
Definition eri_address_nat (t : nat * nat * nat * nat) : nat :=
  let '(i, j, k, l) := t in
  tri (pair_address (i, j)) + pair_address (k, l).

(** The assignments of an indexed store, in order. *)
Definition put_all {B : Type} (a : list B) (zs : list (nat * B)) : list B :=
  foldl (fun acc '(i, v) => <[i := v]> acc) a zs.

(** [m] has [r] rows of [c] entries each. *)
Definition shaped {A : Type} (r c : nat) (m : list (list A)) : Prop :=
  length m = r ∧ Forall (fun row => length row = c) m.

(** Keys as the exporter lays them out: [counts !! i] copies of [start + i],
    for each [i] in order. *)
Definition run_keys (start : nat) (counts : list nat) : list Z :=
  concat (map (fun ic => replicate ic.2 (Z.of_nat ic.1))
              (zip (seq start (length counts)) counts)).

(** The keys of consecutive groups: the key [ks !! i] once for every entry
    of the group [qs !! i]. *)
Definition keyed_runs {A : Type} (ks : list Z) (qs : list (list A)) : list Z :=
  concat (zip_with (fun k q => replicate (length q) k) ks qs).

(** [np.split] seen from a running start position. *)
Definition split_from {A : Type} (g : nat) (cuts : list nat) (a : list A)
  : list (list A) :=
  zip_with (fun s e => slice s e a) (g :: cuts ++ [length a]) (cuts ++ [length a]).

(** The angular momentum and contraction count of every shell, in order:
    all that [_order_ao_index] and [mol.nao] look at besides [mol.cart]. *)
Definition ang_nctr {R : Type} (mol : Mole R) : list (nat * nat) :=
  map (fun b => (ANG_OF b.2, NCTR_OF b.2)) (_bas mol).

(** The dictionary holds, under the key of nucleus [i], entries whose
    angular momenta are group [i], for the groups seen so far, and nothing
    under any other key. *)
Definition basis_dict_inv {R : Type} (elements : list string) (gs : list (list Z))
    (d : gmap string (list (basis_entry (R := R)))) : Prop :=
  (∀ i el g, elements !! i = Some el → gs !! i = Some g →
             ∃ entries, d !! el = Some entries ∧ map fst entries = g) ∧
  (∀ key, key ∉ take (length gs) elements → d !! key = None).

(** The keys [label + str(i)] under which the importer files the nuclei. *)
Definition elements_of {R : Type} (mol : Mole R) : list string :=
  imap (fun i s => s +:+ pretty i) (map atom_pure_symbol (_atom mol)).

(** The attributes of [tf] that [mol_from_trexio] reads are those
    [_mol_to_trexio] writes for [mol], and [tf] has no ECP group. *)
Record holds_structure {R : Type} (mol : Mole R) (tf : trexio_file R) : Prop := {
  hs_basis_type : tf !! "basis_type" = Some (VStr "Gaussian");
  hs_no_ecp : has_ecp tf = false;
  hs_label : tf !! "nucleus_label" = Some (VStrs (map atom_pure_symbol (_atom mol)));
  hs_coord : tf !! "nucleus_coord" = Some (VMatrix (map atom_coord (_atom mol)));
  hs_cart : tf !! "ao_cartesian" = Some (VInt (if cart mol then 1 else 0));
  hs_point_group :
    tf !! "nucleus_point_group"
    = if symmetry mol then Some (VStr (groupname mol)) else None;
  hs_nucleus_index :
    tf !! "basis_nucleus_index"
    = Some (VInts (map (fun b => Z.of_nat b.1) (_bas mol)));
  hs_ang_mom :
    tf !! "basis_shell_ang_mom"
    = Some (VInts (map (fun b => Z.of_nat (ANG_OF b.2)) (_bas mol)));
  hs_shell_index :
    tf !! "basis_shell_index"
    = Some (VInts (concat (map (fun ib => replicate (NPRIM_OF ib.2.2) (Z.of_nat ib.1))
                               (enumerate (_bas mol)))));
  hs_exponent :
    tf !! "basis_exponent"
    = Some (VReals (concat (map (fun b => bas_exp b.2) (_bas mol))));
  hs_coefficient :
    tf !! "basis_coefficient"
    = Some (VReals (concat (map (fun b => concat (bas_ctr_coeff b.2)) (_bas mol))));
}.

(** A series of writes, the latest first. *)
Definition apply_writes {R : Type} (ws : list (string * value R))
    (tf : trexio_file R) : trexio_file R :=
  foldr (fun kv f => <[kv.1 := kv.2]> f) tf ws.

(** ** Example structures *)

(** Structures over integer-valued entries, used to run the code on
    concrete inputs. *)
Definition ex_shell (l : nat) : shell Z :=
  {| ANG_OF := l; NCTR_OF := 1;
     bas_exp := [3%Z; 1%Z]; bas_ctr_coeff := [[2%Z]; [5%Z]] |}.

Definition ex_atom (sym : string) (z : Z) (shells : list (shell Z)) : atom Z :=
  {| atom_pure_symbol := sym; atom_symbol := sym; atom_charge := z;
     atom_coord := [0%Z; 0%Z; z]; atom_shells := shells |}.

Definition ex_mol (is_cart : bool) (atoms : list (atom Z))
    (ecp : gmap string (Z * list (ecp_channel Z))) : Mole Z :=
  {| _atom := atoms; cart := is_cart; symmetry := false; groupname := "";
     nelec := (5, 5); _pseudo := ∅; _ecp := ecp; lattice := None |}.

(** A single p shell on one centre, spherical functions. *)
Definition p_shell_mol : Mole Z := ex_mol false [ex_atom "H" 1 [ex_shell 1]] ∅.

(** s, p, d and f shells on two centres. *)
Definition spdf_mol (is_cart : bool) : Mole Z :=
  ex_mol is_cart [ex_atom "H" 1 [ex_shell 0; ex_shell 1];
                  ex_atom "F" 9 [ex_shell 0; ex_shell 1; ex_shell 2; ex_shell 3]] ∅.

(** Hydrogen fluoride with a core potential on fluorine only. *)
Definition F_ecp : Z * list (ecp_channel Z) :=
  (2%Z, [((-1)%Z, [[]; [(1%Z, 3%Z)]; [(2%Z, 4%Z)]]); (0%Z, [[]; []; [(5%Z, 6%Z)]])]).

Definition hf_partial_ecp : Mole Z :=
  ex_mol false [ex_atom "H" 1 [ex_shell 0]; ex_atom "F" 9 [ex_shell 0; ex_shell 1]]
         {["F" := F_ecp]}.

(** Two hydrogen centres with one s shell each, and a restricted
    wavefunction on them with a 2 x 2 coefficient matrix. *)
Definition h2_mol (is_cart : bool) : Mole Z :=
  ex_mol is_cart [ex_atom "H" 1 [ex_shell 0]; ex_atom "H" 1 [ex_shell 0]] ∅.

Definition h2_rhf (is_cart : bool) : SCF Z :=
  RHF (h2_mol is_cart) [] [(-5)%Z; 7%Z] [[1%Z; 2%Z]; [3%Z; 4%Z]] [2%Z; 0%Z].

(** Two fluorine centres, both with a core potential, and a restricted
    wavefunction on them. *)
Definition f2_ecp_mol : Mole Z :=
  ex_mol false [ex_atom "F" 9 [ex_shell 0]; ex_atom "F" 9 [ex_shell 0]]
         {["F" := F_ecp]}.

Definition f2_ecp_rhf : SCF Z :=
  RHF f2_ecp_mol [] [(-5)%Z; 7%Z] [[1%Z; 2%Z]; [3%Z; 4%Z]] [2%Z; 0%Z].

(** The file [to_trexio] writes for it, starting from a new file. *)
Definition f2_ecp_file : trexio_file Z := (to_trexio (ObjSCF f2_ecp_rhf) ∅).2.

(** The two hydrogen centres with a ['pseudo'] entry. *)
Definition h2_pseudo : Mole Z :=
  {| _atom := [ex_atom "H" 1 [ex_shell 0]; ex_atom "H" 1 [ex_shell 0]];
     cart := false; symmetry := false; groupname := ""; nelec := (1, 1);
     _pseudo := {["H" := "gth-pade"]}; _ecp := ∅; lattice := None |}.

(** One helium centre with an s and a p shell, spherical functions, and a
    restricted wavefunction on it with a 4 x 4 coefficient matrix. *)
Definition he_sp_mol : Mole Z :=
  {| _atom := [ex_atom "He" 2 [ex_shell 0; ex_shell 1]];
     cart := false; symmetry := false; groupname := ""; nelec := (1, 1);
     _pseudo := ∅; _ecp := ∅; lattice := None |}.

Definition he_sp_rhf : SCF Z :=
  RHF he_sp_mol [] [(-9)%Z; (-1)%Z; 3%Z; 8%Z]
      [[11%Z; 12%Z; 13%Z; 14%Z]; [21%Z; 22%Z; 23%Z; 24%Z];
       [31%Z; 32%Z; 33%Z; 34%Z]; [41%Z; 42%Z; 43%Z; 44%Z]]
      [2%Z; 0%Z; 0%Z; 0%Z].

(** The hydrogen helium cation: two electrons on nuclei of total charge 3. *)
Definition heh_cation_rhf : SCF Z :=
  RHF {| _atom := [ex_atom "He" 2 [ex_shell 0]; ex_atom "H" 1 [ex_shell 0]];
         cart := false; symmetry := false; groupname := ""; nelec := (1, 1);
         _pseudo := ∅; _ecp := ∅; lattice := None |}
      [] [(-5)%Z; 7%Z] [[1%Z; 2%Z]; [3%Z; 4%Z]] [2%Z; 0%Z].

(** The hydrogen molecule built with its point group. *)
Definition h2_dooh_rhf : SCF Z :=
  RHF {| _atom := [ex_atom "H" 1 [ex_shell 0]; ex_atom "H" 1 [ex_shell 0]];
         cart := false; symmetry := true; groupname := "Dooh"; nelec := (1, 1);
         _pseudo := ∅; _ecp := ∅; lattice := None |}
      [] [(-5)%Z; 7%Z] [[1%Z; 2%Z]; [3%Z; 4%Z]] [2%Z; 0%Z].

(** A periodic cell with the two hydrogen centres, and a restricted
    wavefunction at the k-point [kpt]. *)
Definition h2_cell : Mole Z :=
  {| _atom := [ex_atom "H" 1 [ex_shell 0]; ex_atom "H" 1 [ex_shell 0]];
     cart := false; symmetry := false; groupname := ""; nelec := (1, 1);
     _pseudo := ∅; _ecp := ∅;
     lattice := Some ([4%Z; 0%Z; 0%Z], [0%Z; 4%Z; 0%Z], [0%Z; 0%Z; 4%Z]) |}.

Definition h2_cell_rhf (kpt : list Z) : SCF Z :=
  RHF h2_cell kpt [(-5)%Z; 7%Z] [[1%Z; 2%Z]; [3%Z; 4%Z]] [2%Z; 0%Z].

(** The ECP arrays are consistent for [k] nuclei: one entry per nucleus in
    the two per-nucleus arrays, [ecp_num] entries in each of the five flat
    arrays, every nucleus index below [k], every power at least [-2]. *)
Definition ecp_consistent {R : Type} (k : nat) (e : ecp_arrays R) : Prop :=
  length (ecp_max_ang_mom_plus_1 e) = k ∧ length (ecp_z_core e) = k ∧
  length (ecp_nucleus_index e) = ecp_num e ∧ length (ecp_ang_mom e) = ecp_num e ∧
  length (ecp_coefficient e) = ecp_num e ∧ length (ecp_exponent e) = ecp_num e ∧
  length (ecp_power e) = ecp_num e ∧
  Forall (fun i => i < k) (ecp_nucleus_index e) ∧
  Forall (fun p => (-2 ≤ p)%Z) (ecp_power e).

(** The nucleus is a ghost centre, or the ECP table has an entry for it,
    looked up under its atom symbol and else under its chemical symbol, that
    lists at least one channel. *)
Definition ecp_atom_ok {R : Type} (mol : Mole R) (a : atom R) : bool :=
  is_ghost_label (atom_pure_symbol a) || is_ghost_label (atom_symbol a) ||
  match _ecp mol !! atom_symbol a with
  | Some entry => negb (bool_decide (entry.2 = []))
  | None =>
      match _ecp mol !! atom_pure_symbol a with
      | Some entry => negb (bool_decide (entry.2 = []))
      | None => false
      end
  end.

(** A centre without shells followed by a centre with an s and a p shell. *)
Definition bare_first_mol : Mole Z :=
  ex_mol false [ex_atom "He" 2 []; ex_atom "He" 2 [ex_shell 0; ex_shell 1]] ∅.


(** * Properties *)

(** ** [_mode] *)

(** C10: the backend dispatcher returns the binary-container code 0 exactly
    for the selector ['h5'] and the text code 1 for every other string; it is
    a total function, so no selector is rejected, and a misspelled name such
    as ['hdf5'] selects the text backend. *)
Theorem _mode_dispatch (code : string) :
  (_mode code = 0%Z ↔ code = "h5") ∧
  (_mode code = 1%Z ↔ code ≠ "h5") ∧
  _mode "hdf5" = 1%Z ∧ _mode "H5" = 1%Z ∧ _mode "" = 1%Z.
Proof.
  unfold _mode. split_and!; try reflexivity.
  - destruct (String.eqb_spec code "h5"); split; congruence.
  - destruct (String.eqb_spec code "h5"); split; congruence.
Qed.

(** ** [_group_by] *)

Section GroupBy.
Context {A : Type}.
Implicit Types (a : list A) (keys : list Z) (idx : list nat).

Lemma keys_le_cons2 k1 k2 keys :
  keys_le (k1 :: k2 :: keys) = (k1 <=? k2)%Z :: keys_le (k2 :: keys).
Proof. reflexivity. Qed.

Lemma py_all_keys_le_Sorted keys :
  py_all (keys_le keys) = true ↔ Sorted Z.le keys.
Proof.
  induction keys as [|k1 [|k2 keys] IH].
  - split; [constructor | reflexivity].
  - split; [repeat constructor | reflexivity].
  - rewrite keys_le_cons2. unfold py_all in *. cbn [forallb id].
    rewrite andb_true_iff, IH, Z.leb_le. split.
    + intros [? ?]. constructor; [done | by constructor].
    + intros Hs. inversion Hs as [|? ? Hs' Hhd]; subst.
      inversion Hhd; subst. done.
Qed.

Lemma argsort_stable_Sorted_from keys s :
  Sorted Z.le keys →
  foldr insert_key [] (zip keys (seq s (length keys))) = zip keys (seq s (length keys)).
Proof.
  intros Hs. revert s. induction Hs as [|k keys Hs IH Hhd]; intros s; [done|].
  cbn [length seq zip zip_with foldr]. fold (zip keys (seq (S s) (length keys))).
  rewrite IH. destruct Hhd as [|k' keys' Hle]; [done|].
  cbn [length seq zip zip_with insert_key fst].
  apply Z.leb_le in Hle. by rewrite Hle.
Qed.

Lemma argsort_stable_Sorted keys :
  Sorted Z.le keys → argsort_stable keys = zip keys (seq 0 (length keys)).
Proof. apply argsort_stable_Sorted_from. Qed.
End GroupBy.
Section GroupBy2.
Context {A : Type}.
Implicit Types (a : list A) (keys : list Z) (idx : list nat).

(** The mask keeps position [S s + j] exactly when entry [S j] of
    [k0 :: keys] differs from entry [j]. *)
Lemma elem_of_unique_mask keys k0 s i :
  i ∈ unique_mask (Some k0) (zip keys (seq (S s) (length keys))) ↔
  ∃ j, i = S s + j ∧ j < length keys ∧ (k0 :: keys) !! j ≠ (k0 :: keys) !! S j.
Proof.
  revert k0 s i. induction keys as [|k1 keys IH]; intros k0 s i.
  - cbn. split; [by intros ?%elem_of_nil | intros (j & _ & ? & _); lia].
  - cbn [length seq zip zip_with unique_mask].
    fold (zip keys (seq (S (S s)) (length keys))).
    assert (Hrec : ∀ i, i ∈ unique_mask (Some k1) (zip keys (seq (S (S s)) (length keys))) ↔
              ∃ j, i = S s + j ∧ 0 < j ∧ j < S (length keys) ∧
                   (k0 :: k1 :: keys) !! j ≠ (k0 :: k1 :: keys) !! S j).
    { intros i'. rewrite IH. split.
      - intros (j & -> & ? & ?). exists (S j). split_and!; [lia..|done].
      - intros (j & -> & ? & ? & ?). destruct j as [|j]; [lia|].
        exists j. split_and!; [lia..|done]. }
    case_bool_decide as Hk.
    + rewrite Hrec. split.
      * intros (j & ? & ? & ? & ?). exists j. split_and!; [done|lia|done].
      * intros (j & ? & ? & Hne). exists j. split_and!; [done| |lia|done].
        destruct j; [|lia]. cbn in Hne. congruence.
    + rewrite elem_of_cons, Hrec. split.
      * intros [->|(j & ? & ? & ? & ?)].
        -- exists 0. split_and!; [lia..|]. cbn. congruence.
        -- exists j. split_and!; [done|lia|done].
      * intros (j & ? & ? & Hne). destruct j as [|j]; [left; lia|].
        right. exists (S j). split_and!; [done|lia|lia|done].
Qed.

Lemma unique_mask_increasing keys k0 s :
  StronglySorted lt (unique_mask k0 (zip keys (seq s (length keys)))) ∧
  Forall (fun i => s ≤ i < s + length keys)
         (unique_mask k0 (zip keys (seq s (length keys)))).
Proof.
  revert k0 s. induction keys as [|k1 keys IH]; intros k0 s.
  - cbn. split; constructor.
  - cbn [length seq zip zip_with unique_mask].
    fold (zip keys (seq (S s) (length keys))).
    destruct (IH (Some k1) (S s)) as [Hs Hb].
    assert (Hb' : Forall (fun i => s ≤ i < s + S (length keys))
              (unique_mask (Some k1) (zip keys (seq (S s) (length keys))))).
    { eapply Forall_impl; [exact Hb|]. cbn. intros; lia. }
    case_bool_decide; [done|]. split.
    + constructor; [done|]. eapply Forall_impl; [exact Hb|]. cbn. intros; lia.
    + constructor; [lia|done].
Qed.

Lemma slice_full s a : slice s (length a) a = drop s a.
Proof. unfold slice. apply take_ge. rewrite length_drop. lia. Qed.

Lemma concat_split_from a idx s :
  Sorted le (s :: idx) → Forall (fun i => i ≤ length a) idx →
  concat (zip_with (fun s e => slice s e a)
                   (s :: idx ++ [length a]) (idx ++ [length a])) = drop s a.
Proof.
  revert s. induction idx as [|i idx IH]; intros s Hs Hb.
  - cbn. by rewrite app_nil_r, slice_full.
  - change (concat (zip_with (fun s e => slice s e a)
              (s :: (i :: idx) ++ [length a]) ((i :: idx) ++ [length a])))
      with (slice s i a ++ concat (zip_with (fun s e => slice s e a)
              (i :: idx ++ [length a]) (idx ++ [length a]))).
    inversion Hs as [|? ? Hs' Hhd]; subst.
    inversion Hhd; subst. inversion Hb; subst.
    rewrite IH by done. unfold slice.
    replace (drop i a) with (drop (i - s) (drop s a))
      by (rewrite drop_drop; f_equal; lia).
    apply take_drop.
Qed.

Lemma concat_np_split a idx :
  Sorted le idx → Forall (fun i => i ≤ length a) idx →
  concat (np_split a idx) = a.
Proof.
  intros Hs Hb. unfold np_split. cbn [tail].
  rewrite concat_split_from; [done| |done].
  constructor; [done|]. destruct idx; constructor. lia.
Qed.
End GroupBy2.

Lemma StronglySorted_lt_Sorted_le (l : list nat) :
  StronglySorted lt l → Sorted le l.
Proof.
  induction 1 as [|x l Hl IH Hx]; constructor; [done|].
  destruct Hx; constructor. lia.
Qed.

(** ** [_order_ao_index] *)

(** C4: on an all-Cartesian structure, with any shells, [_order_ao_index]
    returns the identity permutation of the atomic-orbital range
    [0 .. nao-1]. *)
Theorem _order_ao_index_cart_identity {R : Type} (mol : Mole R) :
  cart mol = true →
  ∃ idx, _order_ao_index mol = Ok idx ∧
         length idx = nao mol ∧
         ∀ i, i < nao mol → idx !! i = Some i.
Proof.
  intros Hc. exists (seq 0 (nao mol)). unfold _order_ao_index. rewrite Hc.
  split_and!; [done|apply length_seq|].
  intros i Hi. by rewrite lookup_seq_lt.
Qed.

Lemma stride2_formula (l n j : nat) :
  j + n = l →
  stride2 (map (fun k => l - k) (seq j (n + 1))) (seq (l + 1 + j) n) =
  (l - j) :: flat_map (fun k => [l + k; l - k]) (seq (j + 1) n).
Proof.
  revert j. induction n as [|n IH]; intros j Hj; [done|].
  replace (S n + 1) with (S (n + 1)) by lia.
  cbn [seq map stride2 flat_map app].
  replace (S (l + 1 + j)) with (l + 1 + S j) by lia.
  rewrite IH by lia.
  replace (j + 1) with (S j) by lia. replace (S j + 1) with (S (S j)) by lia.
  do 2 f_equal. lia.
Qed.

Lemma cache_block_formula (l : nat) : cache_block l = formula_block l.
Proof.
  unfold cache_block, formula_block.
  pose proof (stride2_formula l l 0 eq_refl) as H.
  rewrite Nat.add_0_r, Nat.sub_0_r in H. exact H.
Qed.

Lemma m_order_formula_block (l : nat) :
  map (fun i => (Z.of_nat i - Z.of_nat l)%Z) (formula_block l) = m_order l.
Proof.
  unfold formula_block, m_order. cbn [map]. f_equal; [lia|].
  assert (H : ∀ s n, s + n = S l →
    map (fun i => (Z.of_nat i - Z.of_nat l)%Z)
        (flat_map (fun k => [l + k; l - k]) (seq s n)) =
    flat_map (fun k => [Z.of_nat k; (- Z.of_nat k)%Z]) (seq s n)).
  { intros s n. revert s. induction n as [|n IH]; intros s Hs; [done|].
    cbn [seq flat_map app map]. rewrite IH by lia. f_equal; [lia|f_equal; lia]. }
  apply H. lia.
Qed.

Lemma cache_by_l_lookup (lmax l : nat) :
  l ≤ lmax → cache_by_l lmax !! l = Some (code_block l).
Proof.
  intros Hl. unfold cache_by_l, code_block.
  destruct l as [|[|l]]; [done..|]. rewrite decide_False by lia.
  change (S (S l)) with (2 + l) at 1.
  rewrite lookup_app_r by (cbn; lia). cbn [length].
  replace (2 + l - 2) with l by lia.
  change (map cache_block ?x) with (cache_block <$> x).
  rewrite list_lookup_fmap, lookup_seq_lt by lia.
  change (Some (cache_block (2 + l)) = Some (formula_block (S (S l)))).
  by rewrite cache_block_formula.
Qed.

Lemma foldM_app {A B : Type} (f : B → A → result B) (acc : B) (xs ys : list A) :
  foldM f acc (xs ++ ys) = acc' ← foldM f acc xs; foldM f acc' ys.
Proof.
  revert acc. induction xs as [|x xs IH]; intros acc; [done|].
  cbn [app foldM]. destruct (f acc x); [apply IH | done].
Qed.

Lemma foldM_range_replicate {B C : Type} (f : B → C → result B) (x : C)
    (acc : B) (s n : nat) :
  foldM (fun st (_ : nat) => f st x) acc (seq s n) = foldM f acc (replicate n x).
Proof.
  revert acc s. induction n as [|n IH]; intros acc s; [done|].
  cbn [seq replicate foldM]. destruct (f acc x); [apply IH | done].
Qed.

(** The two nested loops of [_order_ao_index] run over the contraction
    columns in order. *)
Lemma order_loops_columns {R : Type} (cache : list (list nat))
    (bas : list (nat * shell R)) (st : list (list nat) * nat) :
  foldM (fun st b =>
           foldM (fun st' (_ : nat) => order_step cache st' (ANG_OF b.2))
                 st (seq 0 (NCTR_OF b.2))) st bas =
  foldM (order_step cache) st
        (flat_map (fun b => replicate (NCTR_OF b.2) (ANG_OF b.2)) bas).
Proof.
  revert st. induction bas as [|b bas IH]; intros st; [done|].
  cbn [foldM flat_map]. rewrite foldM_app, foldM_range_replicate.
  destruct (foldM _ st (replicate _ _)); [apply IH | done].
Qed.

Lemma order_step_columns (lmax : nat) (ls : list nat) (acc : list (list nat))
    (off : nat) :
  Forall (fun l => l ≤ lmax) ls →
  ∃ blocks off',
    foldM (order_step (cache_by_l lmax)) (acc, off) ls = Ok (acc ++ blocks, off') ∧
    length blocks = length ls ∧
    concat blocks = concat_blocks code_block off ls.
Proof.
  intros Hls. revert acc off.
  induction Hls as [|l ls Hl Hls IH]; intros acc off.
  - exists [], off. by rewrite app_nil_r.
  - cbn [foldM]. unfold order_step at 2. rewrite cache_by_l_lookup by done.
    cbn [fst snd mbind result_bind].
    destruct (IH (acc ++ [map (fun i => i + off) (code_block l)]) (off + (l * 2 + 1)))
      as (blocks & off' & -> & Hlen & Hcat).
    exists (map (fun i => i + off) (code_block l) :: blocks), off'.
    split_and!.
    + by rewrite <- app_assoc.
    + cbn. by rewrite Hlen.
    + cbn [concat concat_blocks]. rewrite Hcat.
      by replace (l * 2 + 1) with (2 * l + 1) by lia.
Qed.

Lemma shell_columns_le_max {R : Type} (mol : Mole R) :
  Forall (fun l => l ≤ max_list (map (fun b => ANG_OF b.2) (_bas mol)))
         (shell_columns mol).
Proof.
  unfold shell_columns. apply Forall_forall. intros l Hl.
  apply max_list_elem_of_le.
  apply list_elem_of_In, in_flat_map in Hl as (b & Hb & Hl).
  apply list_elem_of_In, elem_of_replicate in Hl as [-> _].
  apply list_elem_of_In, in_map_iff. by exists b.
Qed.

(** What [_order_ao_index] returns on a spherical structure. *)
Lemma _order_ao_index_sph {R : Type} (mol : Mole R) :
  cart mol = false → shell_columns mol ≠ [] →
  _order_ao_index mol = Ok (concat_blocks code_block 0 (shell_columns mol)).
Proof.
  intros Hc Hne. unfold _order_ao_index. rewrite Hc.
  destruct (map (fun b => ANG_OF b.2) (_bas mol)) eqn:Hangs.
  { exfalso. apply Hne. unfold shell_columns.
    apply map_eq_nil in Hangs. by rewrite Hangs. }
  rewrite <- Hangs. rewrite order_loops_columns.
  destruct (order_step_columns _ _ [] 0 (shell_columns_le_max mol))
    as (blocks & off' & Hfold & Hlen & Hcat).
  unfold shell_columns in *. rewrite Hfold. cbn [mbind result_bind fst app].
  unfold np_hstack. destruct blocks as [|b0 blocks].
  - destruct (flat_map _ _); [done | discriminate].
  - by rewrite Hcat.
Qed.

(** ** Running code that writes to a file *)

Section Tio.
Context {R : Type}.
Implicit Types (tf : trexio_file R) (K : list string).

Lemma tio_bind_run {A B : Type} (m : tio R A) (f : A → tio R B) tf :
  (m ≫= f) tf =
  match m tf with
  | (Ok a, tf') => f a tf'
  | (Raise e, tf') => (Raise e, tf')
  end.
Proof. reflexivity. Qed.

Lemma tio_bind_ok {A B : Type} (m : tio R A) (f : A → tio R B) tf a tf' :
  m tf = (Ok a, tf') → (m ≫= f) tf = f a tf'.
Proof. intros H. by rewrite tio_bind_run, H. Qed.

Lemma tio_bind_raise {A B : Type} (m : tio R A) (f : A → tio R B) tf e tf' :
  m tf = (Raise e, tf') → (m ≫= f) tf = (Raise e, tf').
Proof. intros H. by rewrite tio_bind_run, H. Qed.


Lemma writes_within_write K attr (v : value R) :
  attr ∈ K → writes_within K (write attr v).
Proof.
  intros Hin tf k Hk. cbn. apply lookup_insert_ne. intros ->. done.
Qed.

Lemma writes_within_ret {A : Type} K (a : A) : writes_within (R := R) K (mret a).
Proof. by intros tf k _. Qed.

Lemma writes_within_raise {A : Type} K e :
  writes_within (R := R) K (raise (A := A) e).
Proof. by intros tf k _. Qed.

Lemma writes_within_lift {A : Type} K (r : result A) :
  writes_within (R := R) K (lift r).
Proof. by intros tf k _. Qed.

Lemma writes_within_bind {A B : Type} K (m : tio R A) (f : A → tio R B) :
  writes_within K m → (∀ a, writes_within K (f a)) →
  writes_within K (m ≫= f).
Proof.
  intros Hm Hf tf k Hk. rewrite tio_bind_run.
  specialize (Hm tf k Hk). destruct (m tf) as [[a|e] tf']; cbn in *.
  - by rewrite Hf.
  - done.
Qed.

Lemma writes_within_if {A : Type} K (b : bool) (m1 m2 : tio R A) :
  writes_within K m1 → writes_within K m2 →
  writes_within K (if b then m1 else m2).
Proof. by destruct b. Qed.
End Tio.

Ltac writes_within_tac :=
  repeat first
    [ apply writes_within_bind; [|intros ?]
    | apply writes_within_write; apply (bool_decide_unpack _); by vm_compute
    | apply writes_within_ret
    | apply writes_within_raise
    | apply writes_within_lift
    | apply writes_within_if
    | progress cbv zeta ].


Section Stages.
Context {R : Type} `{!Host R}.
Implicit Types (mol : Mole R) (tf : trexio_file R).

Lemma write_metadata_within :
  writes_within (R := R) mol_attrs write_metadata.
Proof. unfold write_metadata, mol_attrs. writes_within_tac. Qed.

Lemma write_nucleus_within mol : writes_within mol_attrs (write_nucleus mol).
Proof. unfold write_nucleus, mol_attrs. writes_within_tac. Qed.

Lemma write_pbc_within mol : writes_within mol_attrs (write_pbc mol).
Proof.
  unfold write_pbc, mol_attrs. destruct (lattice mol) as [[[a b] c]|];
    writes_within_tac.
Qed.

Lemma write_electron_within mol : writes_within mol_attrs (write_electron mol).
Proof. unfold write_electron, mol_attrs. writes_within_tac. Qed.

Lemma write_basis_within mol : writes_within mol_attrs (write_basis mol).
Proof. unfold write_basis, mol_attrs. writes_within_tac. Qed.

Lemma write_ao_within mol : writes_within mol_attrs (write_ao mol).
Proof. unfold write_ao, mol_attrs. writes_within_tac. Qed.

Lemma write_ecp_within (e : ecp_arrays R) :
  writes_within ecp_attrs (write_ecp e).
Proof. unfold write_ecp, ecp_attrs. writes_within_tac. Qed.
End Stages.

Ltac tio_simpl :=
  unfold mbind, mret, tio_mbind, tio_mret, tio_bind, tio_ret, write, lift, raise;
  cbn beta iota.

Lemma np_hstack_ne {A : Type} (tup : list (list A)) :
  tup ≠ [] → np_hstack tup = Ok (concat tup).
Proof. by destruct tup. Qed.

Lemma map_ne_nil {A B : Type} (f : A → B) (l : list A) : l ≠ [] → map f l ≠ [].
Proof. by destruct l. Qed.

Lemma enumerate_ne_nil {A : Type} (l : list A) : l ≠ [] → enumerate l ≠ [].
Proof. by destruct l. Qed.

Section Outcome.
Context {R : Type} `{!Host R}.
Implicit Types (mol : Mole R) (tf : trexio_file R).


Lemma _mol_to_trexio_outcome mol tf :
  (_mol_to_trexio mol tf).1 = mol_outcome mol.
Proof.
  unfold mol_outcome, _mol_to_trexio, write_metadata, write_nucleus, write_pbc,
    write_electron, write_basis, write_ecp_group, write_ao, write_ecp.
  destruct (decide (_bas mol = [])) as [Hbas|Hbas].
  { rewrite (bool_decide_eq_true_2 (_bas mol = [])) by done. rewrite Hbas.
    by destruct (symmetry mol), (lattice mol) as [[[a b] c]|]. }
  rewrite (bool_decide_eq_false_2 (_bas mol = [])) by done.
  rewrite !np_hstack_ne by auto using map_ne_nil, enumerate_ne_nil.
  destruct (symmetry mol), (lattice mol) as [[[a b] c]|];
    (destruct (forallb _ (_bas mol)) eqn:Hn; [|reflexivity]);
    (destruct (bool_decide (0 < size (_pseudo mol))) eqn:Hp; [reflexivity|]);
    (destruct (bool_decide (_ecp mol = ∅)) eqn:He; [reflexivity|]);
    tio_simpl; destruct (ecp_encode mol); reflexivity.
Qed.
End Outcome.

Lemma foldM_raise_inv {A B : Type} (f : B → A → result B) (acc : B)
    (xs : list A) (e : exception) :
  foldM f acc xs = Raise e → ∃ acc' x, x ∈ xs ∧ f acc' x = Raise e.
Proof.
  revert acc. induction xs as [|x xs IH]; intros acc; [done|].
  cbn [foldM]. destruct (f acc x) as [acc'|e'] eqn:Hf.
  - cbn. intros (acc'' & y & Hy & Hfy)%IH. exists acc'', y. split; [by right | done].
  - cbn. intros [= ->]. exists acc, x. split; [by left | done].
Qed.

Lemma foldM_raise_elem {A B : Type} (f : B → A → result B) (acc : B)
    (xs : list A) (x : A) :
  x ∈ xs → (∀ acc', ∃ e, f acc' x = Raise e) → ∃ e, foldM f acc xs = Raise e.
Proof.
  intros Hx Hf. revert acc. induction xs as [|y xs IH]; intros acc.
  { by apply elem_of_nil in Hx. }
  cbn [foldM]. apply elem_of_cons in Hx as [<-|Hx].
  - destruct (Hf acc) as [e ->]. by exists e.
  - destruct (f acc y) as [acc'|e]; [apply IH; done | by exists e].
Qed.

Section EcpLoop.
Context {R : Type} `{!Host R}.
Implicit Types (mol : Mole R) (tf : trexio_file R).


(** The loop body can fail in two ways only: the table lookup, and [max]
    of an empty channel list. *)
Lemma ecp_atom_raise mol acc item e :
  ecp_atom mol acc item = Raise e →
  (e = KeyError item.2.1 ∧
   is_ghost_label item.2.1 = false ∧ is_ghost_label item.2.2 = false ∧
   _ecp mol !! item.2.2 = None ∧ _ecp mol !! item.2.1 = None) ∨
  e = ValueError max_empty_msg.
Proof.
  destruct item as [i [chem sym]]. unfold ecp_atom. cbn [fst snd].
  destruct (is_ghost_label chem) eqn:Hg1; [done|].
  destruct (is_ghost_label sym) eqn:Hg2; [done|]. cbn [orb].
  destruct (_ecp mol !! sym) as [[z l]|] eqn:Hs.
  - cbn. destruct l as [|c l]; cbn; [intros [= <-]; by right | done].
  - destruct (_ecp mol !! chem) as [[z l]|] eqn:Hc.
    + cbn. destruct l as [|c l]; cbn; [intros [= <-]; by right | done].
    + cbn. intros [= <-]. by left.
Qed.

Lemma ecp_atom_absent mol acc i chem sym :
  is_ghost_label chem = false → is_ghost_label sym = false →
  _ecp mol !! sym = None → _ecp mol !! chem = None →
  ecp_atom mol acc (i, (chem, sym)) = Raise (KeyError chem).
Proof. intros Hg1 Hg2 Hs Hc. unfold ecp_atom. by rewrite Hg1, Hg2, Hs, Hc. Qed.

Lemma ecp_encode_raise mol e :
  ecp_encode mol = Raise e →
  (∃ key, e = KeyError key) ∨ e = ValueError max_empty_msg.
Proof.
  unfold ecp_encode. intros (acc & item & _ & Hr)%foldM_raise_inv.
  apply ecp_atom_raise in Hr as [[Hr _]|Hr]; subst e; eauto.
Qed.

Lemma elem_of_enumerate {A : Type} (l : list A) (i : nat) (x : A) :
  l !! i = Some x → (i, x) ∈ enumerate l.
Proof.
  intros Hl. unfold enumerate. apply list_elem_of_lookup. exists i.
  apply lookup_zip_with_Some. exists i, x. split_and!; [done| |done].
  apply lookup_seq. split; [done|]. by apply lookup_lt_Some in Hl.
Qed.

(** A non-ghost nucleus that the table does not know makes the loop fail. *)
Lemma ecp_encode_absent mol i (a : atom R) :
  _atom mol !! i = Some a →
  is_ghost_label (atom_pure_symbol a) = false →
  is_ghost_label (atom_symbol a) = false →
  _ecp mol !! atom_symbol a = None →
  _ecp mol !! atom_pure_symbol a = None →
  ∃ e, ecp_encode mol = Raise e.
Proof.
  intros Ha Hg1 Hg2 Hs Hc. unfold ecp_encode.
  apply (foldM_raise_elem _ _ _ (i, (atom_pure_symbol a, atom_symbol a))).
  - apply elem_of_enumerate. apply lookup_zip_with_Some.
    exists (atom_pure_symbol a), (atom_symbol a). split; [done|].
    change (map ?f ?l) with (f <$> l). rewrite !list_lookup_fmap, Ha. done.
  - intros acc. exists (KeyError (atom_pure_symbol a)).
    by apply ecp_atom_absent.
Qed.
End EcpLoop.

(** ** The contraction check *)

Lemma forallb_false_elem_of {A : Type} (f : A → bool) (l : list A) :
  forallb f l = false ↔ ∃ x, x ∈ l ∧ f x = false.
Proof.
  induction l as [|x l IH]; cbn.
  - split; [done | intros (x & ?%elem_of_nil & _); done].
  - rewrite andb_false_iff, IH. split.
    + intros [Hx|(y & Hy & Hfy)]; [exists x | exists y]; split; try done;
        [by left | by right].
    + intros (y & [->|Hy]%elem_of_cons & Hfy); [by left | right; eauto].
Qed.



(** ** The ECP part of the exporter *)

Lemma ecp_attrs_not_mol_attrs : Forall (fun a => a ∉ mol_attrs) ecp_attrs.
Proof. apply (bool_decide_unpack _). by vm_compute. Qed.

Section EcpExport.
Context {R : Type} `{!Host R}.
Implicit Types (mol : Mole R) (tf : trexio_file R).

(** When the ECP loop fails, the ECP part writes nothing and the exporter
    stops there: only structure attributes written before can differ. *)
Lemma _mol_to_trexio_ecp_failure_frame mol e :
  _ecp mol ≠ ∅ → ecp_encode mol = Raise e →
  writes_within mol_attrs (_mol_to_trexio mol).
Proof.
  intros Hne He. unfold _mol_to_trexio.
  apply writes_within_bind; [exact write_metadata_within | intros _].
  apply writes_within_bind; [exact (write_nucleus_within mol) | intros _].
  apply writes_within_bind; [exact (write_pbc_within mol) | intros _].
  apply writes_within_bind; [exact (write_electron_within mol) | intros _].
  apply writes_within_bind; [exact (write_basis_within mol) | intros _].
  intros tf k Hk. rewrite tio_bind_run.
  assert (Hrun : ∃ e', write_ecp_group mol tf = (Raise e', tf)).
  { unfold write_ecp_group. tio_simpl.
    destruct (bool_decide (0 < size (_pseudo mol))); [by eexists|].
    rewrite bool_decide_eq_false_2 by done. rewrite He. by eexists. }
  destruct Hrun as [e' ->]. done.
Qed.
End EcpExport.

(** C6, as the code has it: when the ECP table is non-empty and a non-ghost
    nucleus has neither its atom symbol nor its chemical symbol in the table,
    the ECP loop fails (with the [KeyError] of a failed table lookup, or with
    the [ValueError] of an empty channel list met earlier), the export raises
    instead of completing, and no ECP attribute of the file is written. *)
Theorem ecp_absent_nucleus_export_raises {R : Type} `{!Host R}
    (mol : Mole R) (tf : trexio_file R) (i : nat) (a : atom R) :
  _ecp mol ≠ ∅ →
  _atom mol !! i = Some a →
  is_ghost_label (atom_pure_symbol a) = false →
  is_ghost_label (atom_symbol a) = false →
  _ecp mol !! atom_symbol a = None →
  _ecp mol !! atom_pure_symbol a = None →
  (∃ e, ecp_encode mol = Raise e ∧
        ((∃ key, e = KeyError key) ∨ e = ValueError max_empty_msg)) ∧
  (∃ e tf', to_trexio (ObjMole mol) tf = (Raise e, tf') ∧
            ∀ attr, attr ∈ ecp_attrs → tf' !! attr = tf !! attr).
Proof.
  intros Hne Ha Hg1 Hg2 Hs Hc.
  destruct (ecp_encode_absent mol i a Ha Hg1 Hg2 Hs Hc) as [e He].
  split.
  { exists e. split; [done|]. by apply (ecp_encode_raise mol). }
  cbn [to_trexio].
  pose proof (_mol_to_trexio_outcome mol tf) as Hout.
  pose proof (_mol_to_trexio_ecp_failure_frame mol e Hne He tf) as Hframe.
  destruct (_mol_to_trexio mol tf) as [r tf'] eqn:Hrun. cbn [fst snd] in *.
  assert (Hr : ∃ e', r = Raise e').
  { rewrite Hout. unfold mol_outcome.
    rewrite (bool_decide_eq_false_2 (_ecp mol = ∅)) by done. rewrite He.
    destruct (bool_decide (_bas mol = [])); [by eexists|].
    destruct (negb _); [by eexists|].
    destruct (bool_decide (0 < size (_pseudo mol))); by eexists. }
  destruct Hr as [e' ->]. exists e', tf'. split; [done|].
  intros attr Hattr. apply Hframe.
  by apply (proj1 (Forall_forall _ _) ecp_attrs_not_mol_attrs).
Qed.

(** C6, a structure on which the claim as stated fails: hydrogen fluoride
    with a core potential on fluorine only.  The table is non-empty,
    hydrogen is no ghost and is absent from the table, and the export raises
    the [KeyError] of the failed lookup instead of completing. *)
Lemma ecp_absent_nucleus_counterexample :
  _ecp hf_partial_ecp ≠ ∅ ∧
  (∃ a, _atom hf_partial_ecp !! 0 = Some a ∧
        is_ghost_label (atom_pure_symbol a) = false ∧
        is_ghost_label (atom_symbol a) = false ∧
        _ecp hf_partial_ecp !! atom_symbol a = None ∧
        _ecp hf_partial_ecp !! atom_pure_symbol a = None) ∧
  (to_trexio (ObjMole hf_partial_ecp) ∅).1 = Raise (KeyError "H") ∧
  (to_trexio (ObjMole hf_partial_ecp) ∅).1 ≠ Ok tt.
Proof.
  split_and!.
  - intros H. apply (f_equal (fun m => m !! "F")) in H. by vm_compute in H.
  - eexists. split_and!; [reflexivity|by vm_compute..].
  - by vm_compute.
  - by vm_compute.
Qed.

Lemma ecp_absent_nucleus_export_raises_witness :
  (∃ e, ecp_encode hf_partial_ecp = Raise e ∧
        ((∃ key, e = KeyError key) ∨ e = ValueError max_empty_msg)) ∧
  (∃ e tf', to_trexio (ObjMole hf_partial_ecp) ∅ = (Raise e, tf') ∧
            ∀ attr, attr ∈ ecp_attrs → tf' !! attr = (∅ : trexio_file Z) !! attr).
Proof.
  apply (ecp_absent_nucleus_export_raises hf_partial_ecp ∅ 0
           (ex_atom "H" 1 [ex_shell 0])).
  - intros H. apply (f_equal (fun m => m !! "F")) in H. by vm_compute in H.
  - reflexivity.
  - reflexivity.
  - reflexivity.
  - by vm_compute.
  - by vm_compute.
Defined.

(** ** Witnesses and the shape of the spherical ordering *)

Lemma _order_ao_index_cart_identity_witness :
  ∃ idx, _order_ao_index (spdf_mol true) = Ok idx ∧
         length idx = nao (spdf_mol true) ∧
         ∀ i, i < nao (spdf_mol true) → idx !! i = Some i.
Proof. apply (_order_ao_index_cart_identity (spdf_mol true)). reflexivity. Defined.

(** C3, as the code has it: on a spherical structure with at least one
    contraction column, [_order_ao_index] returns the per-column blocks in
    shell order, the offset advanced by [2l+1] after each column; the block
    of every [l] other than 1 is the general interleaving (positions of
    m = 0, +1, -1, +2, -2, ...), and the block of [l = 1] is the stored
    [2, 0, 1] (Pz, Px, Py). *)
Theorem _order_ao_index_spherical_blocks {R : Type} (mol : Mole R) :
  cart mol = false → shell_columns mol ≠ [] →
  _order_ao_index mol = Ok (concat_blocks code_block 0 (shell_columns mol)) ∧
  code_block 1 = [2; 0; 1] ∧
  ∀ l, l ≠ 1 →
       code_block l = formula_block l ∧
       map (fun i => (Z.of_nat i - Z.of_nat l)%Z) (code_block l) = m_order l.
Proof.
  intros Hc Hne. split_and!.
  - by apply _order_ao_index_sph.
  - reflexivity.
  - intros l Hl. unfold code_block. rewrite decide_False by done.
    split; [done | apply m_order_formula_block].
Qed.

Lemma _order_ao_index_spherical_blocks_witness :
  _order_ao_index (spdf_mol false)
  = Ok (concat_blocks code_block 0 (shell_columns (spdf_mol false))) ∧
  code_block 1 = [2; 0; 1] ∧
  ∀ l, l ≠ 1 →
       code_block l = formula_block l ∧
       map (fun i => (Z.of_nat i - Z.of_nat l)%Z) (code_block l) = m_order l.
Proof.
  apply (_order_ao_index_spherical_blocks (spdf_mol false)).
  - reflexivity.
  - by vm_compute.
Defined.

(** C3, a structure on which the claim as stated fails: for a single p
    shell the code returns [2, 0, 1], while the block of the general
    interleaving formula at [l = 1] is [1, 2, 0]. *)
Lemma _order_ao_index_p_block_counterexample :
  cart p_shell_mol = false ∧ shell_columns p_shell_mol = [1] ∧
  _order_ao_index p_shell_mol = Ok [2; 0; 1] ∧
  concat_blocks formula_block 0 (shell_columns p_shell_mol) = [1; 2; 0] ∧
  _order_ao_index p_shell_mol
  ≠ Ok (concat_blocks formula_block 0 (shell_columns p_shell_mol)).
Proof. by vm_compute. Qed.

Example _order_ao_index_spdf :
  _order_ao_index (spdf_mol false)
  = Ok [0; 3; 1; 2; 4; 7; 5; 6; 10; 11; 9; 12; 8; 16; 17; 15; 18; 14; 19; 13].
Proof. reflexivity. Qed.

(** ** Importing a file that carries ECP data *)

Section ImportEcp.
Context {R : Type} `{!Host R}.
Implicit Types (tf : trexio_file R).


Lemma read_mole_input_ecp tf :
  has_ecp tf = true → read_mole_input tf = Raise (ecp_import_error tf).
Proof.
  intros He. unfold read_mole_input, ecp_import_error.
  destruct (read_str "basis_type" tf) as [bt|e]; [|done].
  unfold mbind, result_bind.
  destruct (String.eqb bt "Gaussian"); [|done]. cbn [negb]. by rewrite He.
Qed.
End ImportEcp.


(** ** Exporting an unrestricted wavefunction *)


Lemma writes_within_mono {R A : Type} (K K' : list string) (m : tio R A) :
  Forall (fun k => k ∈ K') K → writes_within K m → writes_within K' m.
Proof.
  intros Hsub Hm tf k Hk. apply Hm. intros Hin. apply Hk.
  by apply (proj1 (Forall_forall _ _) Hsub).
Qed.

Lemma mol_attrs_structure : Forall (fun k => k ∈ structure_attrs) mol_attrs.
Proof. apply (bool_decide_unpack _). by vm_compute. Qed.
Lemma ecp_attrs_structure : Forall (fun k => k ∈ structure_attrs) ecp_attrs.
Proof. apply (bool_decide_unpack _). by vm_compute. Qed.
Lemma kpoint_attrs_structure : Forall (fun k => k ∈ structure_attrs) kpoint_attrs.
Proof. apply (bool_decide_unpack _). by vm_compute. Qed.
Lemma mo_attrs_not_structure : Forall (fun k => k ∉ structure_attrs) mo_attrs.
Proof. apply (bool_decide_unpack _). by vm_compute. Qed.

Section ExportUHF.
Context {R : Type} `{!Host R}.
Implicit Types (mol : Mole R) (tf : trexio_file R).

Lemma write_ecp_group_within mol : writes_within ecp_attrs (write_ecp_group mol).
Proof.
  unfold write_ecp_group.
  apply writes_within_bind; [apply writes_within_if; writes_within_tac | intros _].
  apply writes_within_if; [apply writes_within_ret|].
  apply writes_within_bind; [apply writes_within_lift | intros e].
  apply write_ecp_within.
Qed.

Lemma write_kpoint_within a kpt : writes_within kpoint_attrs (write_kpoint a kpt).
Proof.
  unfold write_kpoint, kpoint_attrs.
  destruct (get_scaled_kpts a kpt) as [k|[]]; try apply writes_within_raise.
  writes_within_tac.
Qed.

Lemma _mol_to_trexio_within mol :
  writes_within structure_attrs (_mol_to_trexio mol).
Proof.
  unfold _mol_to_trexio.
  apply writes_within_bind; [|intros _].
  { eapply writes_within_mono; [apply mol_attrs_structure | exact write_metadata_within]. }
  apply writes_within_bind; [|intros _].
  { eapply writes_within_mono; [apply mol_attrs_structure | exact (write_nucleus_within mol)]. }
  apply writes_within_bind; [|intros _].
  { eapply writes_within_mono; [apply mol_attrs_structure | exact (write_pbc_within mol)]. }
  apply writes_within_bind; [|intros _].
  { eapply writes_within_mono; [apply mol_attrs_structure | exact (write_electron_within mol)]. }
  apply writes_within_bind; [|intros _].
  { eapply writes_within_mono; [apply mol_attrs_structure | exact (write_basis_within mol)]. }
  apply writes_within_bind; [|intros _].
  { eapply writes_within_mono; [apply ecp_attrs_structure | exact (write_ecp_group_within mol)]. }
  eapply writes_within_mono; [apply mol_attrs_structure | exact (write_ao_within mol)].
Qed.


Lemma scf_structure_part_within mf :
  writes_within structure_attrs (scf_structure_part mf).
Proof.
  unfold scf_structure_part.
  apply writes_within_bind; [apply _mol_to_trexio_within | intros _].
  destruct (lattice (scf_mol mf)); [|apply writes_within_ret].
  eapply writes_within_mono; [apply kpoint_attrs_structure | apply write_kpoint_within].
Qed.

Lemma _scf_to_trexio_parts mf tf :
  _scf_to_trexio mf tf =
  match scf_structure_part mf tf with
  | (Ok _, tf') => write_mo mf tf'
  | (Raise e, tf') => (Raise e, tf')
  end.
Proof.
  unfold _scf_to_trexio, scf_structure_part. rewrite !tio_bind_run.
  destruct (_mol_to_trexio (scf_mol mf) tf) as [[[]|e] tf1]; [|done].
  rewrite !tio_bind_run. by destruct (match lattice (scf_mol mf) with _ => _ end tf1)
    as [[[]|e] tf2].
Qed.


Lemma write_mo_UHF mol kpt me mc mo tf :
  write_mo (UHF mol kpt me mc mo) tf = (Raise hstack_star_error, tf).
Proof. reflexivity. Qed.
End ExportUHF.

(** C5, what the code does: exporting an unrestricted wavefunction never
    completes.  Whatever the structure, the call raises and leaves every
    orbital attribute of the file as it was; when the structure and k-point
    parts go through, the exception is the [TypeError] of
    [np.hstack] called with the two spin blocks as two positional
    arguments, raised before anything of the orbital group is written. *)
Theorem uhf_export_raises {R : Type} `{!Host R} (mol : Mole R) (kpt : list R)
    (mo_energy : list R * list R) (mo_coeff : list (list R) * list (list R))
    (mo_occ : list R * list R) (tf : trexio_file R) :
  let mf := UHF mol kpt mo_energy mo_coeff mo_occ in
  ∃ e tf',
    to_trexio (ObjSCF mf) tf = (Raise e, tf') ∧
    (∀ attr, attr ∈ mo_attrs → tf' !! attr = tf !! attr) ∧
    (∀ tf1, scf_structure_part mf tf = (Ok tt, tf1) →
            e = hstack_star_error ∧ tf' = tf1).
Proof.
  intros mf. cbn [to_trexio]. rewrite _scf_to_trexio_parts.
  pose proof (scf_structure_part_within mf tf) as Hframe.
  destruct (scf_structure_part mf tf) as [[[]|e] tf1] eqn:Hpart; cbn [snd] in Hframe.
  - exists hstack_star_error, tf1. split_and!.
    + apply write_mo_UHF.
    + intros attr Hattr. apply Hframe.
      by apply (proj1 (Forall_forall _ _) mo_attrs_not_structure).
    + by intros ? [= <-].
  - exists e, tf1. split_and!; [done| |done].
    intros attr Hattr. apply Hframe.
    by apply (proj1 (Forall_forall _ _) mo_attrs_not_structure).
Qed.

(** ** Two-electron integrals: packing and unpacking *)


Lemma tri_S (n : nat) : tri (S n) = tri n + S n.
Proof.
  unfold tri. replace (S n * (S n + 1)) with (n * (n + 1) + S n * 2) by lia.
  by rewrite Nat.div_add by lia.
Qed.

Lemma tri_double (n : nat) : tri n * 2 = n * (n + 1).
Proof.
  induction n as [|n IH]; [done|]. rewrite tri_S. lia.
Qed.

Lemma sqrt_tri_double (n : nat) : Nat.sqrt (tri n * 2) = n.
Proof. rewrite tri_double. apply Nat.sqrt_unique. cbn. lia. Qed.

Lemma filter_row (i m : nat) :
  filter (fun p : nat * nat => p.2 ≤ p.1) (map (pair i) (seq 0 m))
  = map (pair i) (seq 0 (m `min` S i)).
Proof.
  induction m as [|m IH]; [done|].
  rewrite seq_S, map_app, filter_app, IH. cbn [map plus].
  destruct (decide (m ≤ i)) as [Hm|Hm].
  - rewrite filter_cons_True by done. rewrite filter_nil.
    replace (S m `min` S i) with (S (m `min` S i)) by lia.
    rewrite seq_S, map_app. cbn. do 3 f_equal. lia.
  - rewrite filter_cons_False by done. rewrite filter_nil, app_nil_r.
    f_equal. f_equal. lia.
Qed.

Lemma lower_triangle_rows_of (n : nat) (l : list nat) :
  Forall (fun i => i < n) l →
  filter (fun p : nat * nat => p.2 ≤ p.1) (list_prod l (seq 0 n))
  = flat_map (fun i => map (pair i) (seq 0 (S i))) l.
Proof.
  induction 1 as [|i l Hi Hl IH]; [done|].
  cbn [list_prod flat_map]. rewrite filter_app, IH, filter_row.
  by replace (n `min` S i) with (S i) by lia.
Qed.

Lemma lower_triangle_rows (n : nat) :
  lower_triangle n = flat_map (fun i => map (pair i) (seq 0 (S i))) (seq 0 n).
Proof.
  apply lower_triangle_rows_of, Forall_seq. intros; lia.
Qed.

Lemma lower_triangle_S (n : nat) :
  lower_triangle (S n) = lower_triangle n ++ map (pair n) (seq 0 (S n)).
Proof.
  rewrite !lower_triangle_rows, seq_S, flat_map_app.
  change (flat_map ?f [0 + n]) with (f n ++ []). rewrite app_nil_r.
  by rewrite seq_S.
Qed.

(** The pairs are enumerated in the order of their addresses. *)
Lemma lower_triangle_addresses (n : nat) :
  map pair_address (lower_triangle n) = seq 0 (tri n).
Proof.
  induction n as [|n IH]; [done|].
  rewrite lower_triangle_S, map_app, IH, map_map, tri_S, seq_app.
  f_equal. unfold pair_address. cbn [fst snd plus].
  change (map ?f ?l) with (f <$> l). by rewrite fmap_add_seq, Nat.add_0_r.
Qed.

Lemma length_lower_triangle (n : nat) : length (lower_triangle n) = tri n.
Proof.
  rewrite <- (length_map pair_address), lower_triangle_addresses.
  apply length_seq.
Qed.

Lemma lower_triangle_bound (n : nat) :
  Forall (fun pq => pq.1 < n ∧ pq.2 < n) (lower_triangle n).
Proof.
  apply Forall_forall. intros [p q]. unfold lower_triangle.
  rewrite list_elem_of_filter, list_elem_of_In, in_prod_iff, !in_seq. cbn. lia.
Qed.

Lemma eri_address_pairs (a b : nat * nat) :
  eri_address_nat (a.1, a.2, b.1, b.2) = tri (pair_address a) + pair_address b.
Proof. by destruct a, b. Qed.

(** Gathering from the pair table: the entry at [(p, q)] has the address
    built from [p] and [q], because pair [p] has address [p]. *)
Lemma np_take2_pair_table (pairs : list (nat * nat)) (pqs : list (nat * nat)) :
  map pair_address pairs = seq 0 (length pairs) →
  Forall (fun pq => pq.1 < length pairs ∧ pq.2 < length pairs) pqs →
  ∃ out,
    np_take2 (map (fun p => map (fun q => (p.1, p.2, q.1, q.2)) pairs) pairs) pqs
    = Ok out ∧
    length out = length pqs ∧
    map eri_address_nat out = map pair_address pqs ∧
    Forall (fun t => ∃ a b, a ∈ pairs ∧ b ∈ pairs ∧ t = (a.1, a.2, b.1, b.2)) out.
Proof.
  intros Haddr. induction 1 as [|[p q] pqs [Hp Hq] Hpqs IH].
  { exists []. by split_and!. }
  destruct IH as (out & Hout & Hlen & Hmap & Hform).
  destruct (lookup_lt_is_Some_2 pairs p Hp) as [a Ha].
  destruct (lookup_lt_is_Some_2 pairs q Hq) as [b Hb].
  assert (Hpa : ∀ i x, pairs !! i = Some x → pair_address x = i).
  { intros i x Hx.
    assert (Hl : (pair_address <$> pairs) !! i = Some (pair_address x))
      by (by rewrite list_lookup_fmap, Hx).
    change (pair_address <$> pairs) with (map pair_address pairs) in Hl.
    rewrite Haddr in Hl. apply lookup_seq in Hl. lia. }
  exists ((a.1, a.2, b.1, b.2) :: out). split_and!.
  - cbn [np_take2 foldr fst snd]. fold (np_take2 (map (fun p => map (fun q => (p.1, p.2, q.1, q.2)) pairs) pairs) pqs).
    rewrite Hout.
    change (map ?f ?l) with (f <$> l).
    rewrite list_lookup_fmap, Ha. cbn [fmap option_fmap option_map mbind option_bind].
    by rewrite list_lookup_fmap, Hb.
  - cbn. by rewrite Hlen.
  - cbn [map]. rewrite Hmap, eri_address_pairs, (Hpa p a), (Hpa q b) by done.
    done.
  - constructor; [|done]. exists a, b.
    split_and!; [by eapply list_elem_of_lookup_2..|done].
Qed.

(** The index list of an 8-fold packed array lists every address once, in
    ascending order. *)
Lemma eri_index_rank1 (n : nat) :
  ∃ idx, eri_index [tri (tri n)] = Ok idx ∧
         length idx = tri (tri n) ∧
         map eri_address_nat idx = seq 0 (tri (tri n)) ∧
         Forall (fun t => ∃ a b, a ∈ lower_triangle n ∧ b ∈ lower_triangle n ∧
                                 t = (a.1, a.2, b.1, b.2)) idx.
Proof.
  unfold eri_index. rewrite !sqrt_tri_double. unfold pair_table.
  rewrite length_lower_triangle, Nat.eqb_refl.
  unfold mbind, result_bind.
  destruct (np_take2_pair_table (lower_triangle n) (lower_triangle (tri n)))
    as (out & Hout & Hlen & Hmap & Hform).
  - by rewrite lower_triangle_addresses, length_lower_triangle.
  - rewrite length_lower_triangle. apply lower_triangle_bound.
  - exists out. split_and!; [done| | |done].
    + by rewrite Hlen, length_lower_triangle.
    + by rewrite Hmap, lower_triangle_addresses.
Qed.

Section Put.
Context {B : Type}.
Implicit Types (a vals : list B).


Lemma length_put_all a zs : length (put_all a zs) = length a.
Proof.
  revert a. induction zs as [|[i v] zs IH]; intros a; [done|].
  cbn. unfold put_all in IH. by rewrite IH, length_insert.
Qed.

(** An address that no assignment names keeps its old content. *)
Lemma put_all_lookup_other a zs k :
  k ∉ map fst zs → put_all a zs !! k = a !! k.
Proof.
  revert a. induction zs as [|[i v] zs IH]; intros a Hk; [done|].
  cbn [map fst] in Hk. apply not_elem_of_cons in Hk as [Hki Hk].
  cbn. unfold put_all in IH. rewrite IH by done.
  by apply list_lookup_insert_ne.
Qed.

(** Assigning at consecutive addresses overwrites that stretch. *)
Lemma put_all_seq_lookup a vals s k :
  s + length vals ≤ length a →
  put_all a (zip (seq s (length vals)) vals) !! k
  = if decide (s ≤ k < s + length vals) then vals !! (k - s) else a !! k.
Proof.
  revert a s. induction vals as [|v vals IH]; intros a s Hlen.
  - cbn. case_decide; [lia | done].
  - cbn [length seq zip zip_with put_all foldl].
    fold (zip (seq (S s) (length vals)) vals).
    change (foldl _ ?x ?y) with (put_all x y).
    cbn [length] in Hlen.
    rewrite IH by (rewrite length_insert; lia).
    destruct (decide (k = s)) as [->|Hks].
    + rewrite decide_False by lia. rewrite decide_True by lia.
      rewrite Nat.sub_diag. apply list_lookup_insert_eq. lia.
    + rewrite list_lookup_insert_ne by done.
      repeat case_decide; try lia; [|done].
      by replace (k - s) with (S (k - S s)) by lia.
Qed.

Lemma np_put_seq (z : B) vals :
  np_put (replicate (length vals) z) (seq 0 (length vals)) vals = Ok vals.
Proof.
  unfold np_put. rewrite length_seq, Nat.eqb_refl. cbn [negb].
  assert (Hex : existsb (fun i => length (replicate (length vals) z) <=? i)
                  (seq 0 (length vals)) = false).
  { apply not_true_iff_false. rewrite existsb_exists.
    intros (i & Hi%in_seq & Hle%Nat.leb_le).
    rewrite length_replicate in Hle. lia. }
  rewrite Hex. f_equal. change (foldl _ ?x ?y) with (put_all x y).
  apply list_eq. intros k.
  rewrite put_all_seq_lookup by (rewrite length_replicate; lia).
  case_decide as Hk.
  - by rewrite Nat.sub_0_r.
  - rewrite (lookup_ge_None_2 vals) by lia.
    apply lookup_ge_None_2. rewrite length_replicate. lia.
Qed.
End Put.

(** ** 32-bit arithmetic on the index buffer *)

Lemma wrap32_small (z : Z) :
  (-2147483648 ≤ z < 2147483648)%Z → wrap32 z = z.
Proof. unfold wrap32. intros Hz. Z.to_euclidean_division_equations. lia. Qed.

Lemma wrap32_over (z : Z) :
  (2147483648 ≤ z < 6442450944)%Z → wrap32 z = (z - 4294967296)%Z.
Proof. unfold wrap32. intros Hz. Z.to_euclidean_division_equations. lia. Qed.

Lemma tri_Z (m : nat) :
  Z.of_nat (tri m) = ((Z.of_nat m * (Z.of_nat m + 1)) `div` 2)%Z.
Proof.
  unfold tri. rewrite Nat2Z.inj_div, Nat2Z.inj_mul, Nat2Z.inj_add. done.
Qed.

Lemma tri_mono (m1 m2 : nat) : m1 ≤ m2 → tri m1 ≤ tri m2.
Proof.
  induction 1 as [|m2 _ IH]; [done|]. rewrite tri_S. lia.
Qed.

Lemma tri_pos (m : nat) : 0 < m → 0 < tri m.
Proof. destruct m as [|m]; [lia|]. rewrite tri_S. lia. Qed.

Lemma le_tri (m : nat) : m ≤ tri m.
Proof. induction m as [|m IH]; [done|]. rewrite tri_S. lia. Qed.

(** Below 46341 the 32-bit computation of [v*(v+1)//2 + w] is exact. *)
Lemma tri_plus32_exact (v w : nat) :
  (Z.of_nat v ≤ 46340)%Z → (Z.of_nat w ≤ 65535)%Z →
  tri_plus32 (Z.of_nat v) (Z.of_nat w) = Z.of_nat (tri v + w).
Proof.
  intros Hv Hw. unfold tri_plus32.
  rewrite (wrap32_small (Z.of_nat v + 1)) by lia.
  assert (Hp : (0 ≤ Z.of_nat v * (Z.of_nat v + 1) ≤ 2147441940)%Z) by nia.
  rewrite (wrap32_small (Z.of_nat v * (Z.of_nat v + 1))) by lia.
  rewrite <- tri_Z.
  assert (Ht : (0 ≤ Z.of_nat (tri v) ≤ 1073720970)%Z).
  { rewrite tri_Z. Z.to_euclidean_division_equations. lia. }
  rewrite wrap32_small by lia. lia.
Qed.

(** From 46341 on, and below 65536, the product wraps around and the result is
    negative. *)
Lemma tri_plus32_wrapped (v w : nat) :
  (46341 ≤ Z.of_nat v ≤ 65535)%Z → (Z.of_nat w ≤ 65535)%Z →
  tri_plus32 (Z.of_nat v) (Z.of_nat w)
  = (Z.of_nat (tri v) + Z.of_nat w - 2147483648)%Z.
Proof.
  intros Hv Hw. unfold tri_plus32.
  rewrite (wrap32_small (Z.of_nat v + 1)) by lia.
  assert (Hp : (2147534622 ≤ Z.of_nat v * (Z.of_nat v + 1) ≤ 4294901760)%Z) by nia.
  rewrite (wrap32_over (Z.of_nat v * (Z.of_nat v + 1))) by lia.
  rewrite tri_Z.
  assert (Hq : ((Z.of_nat v * (Z.of_nat v + 1) - 4294967296) `div` 2
                = (Z.of_nat v * (Z.of_nat v + 1)) `div` 2 - 2147483648)%Z).
  { Z.to_euclidean_division_equations. lia. }
  rewrite Hq, wrap32_small; [lia|].
  Z.to_euclidean_division_equations. lia.
Qed.

Lemma eri_address_exact (a b : nat * nat) :
  (Z.of_nat (pair_address a) ≤ 46340)%Z → (Z.of_nat (pair_address b) ≤ 46340)%Z →
  eri_address (a.1, a.2, b.1, b.2) = Z.of_nat (eri_address_nat (a.1, a.2, b.1, b.2)).
Proof.
  intros Ha Hb. rewrite eri_address_pairs. unfold eri_address.
  destruct a as [i j], b as [k l]. unfold pair_address in *. cbn [fst snd] in *.
  pose proof (le_tri i). pose proof (le_tri k).
  rewrite !wrap32_small by lia.
  rewrite (tri_plus32_exact i j), (tri_plus32_exact k l) by lia.
  by rewrite (tri_plus32_exact (tri i + j) (tri k + l)) by lia.
Qed.

(** ** Scattering at signed positions *)

Section PutZ.
Context {B : Type}.
Implicit Types (a vals : list B).

Lemma py_index_in_range (len : nat) (z : Z) :
  (0 ≤ z < Z.of_nat len)%Z → py_index len z = Some (Z.to_nat z).
Proof. intros Hz. unfold py_index. by rewrite bool_decide_eq_true_2. Qed.

Lemma mapM_py_index_in_range (len : nat) (zs : list Z) :
  Forall (fun z => (0 ≤ z < Z.of_nat len)%Z) zs →
  mapM (py_index len) zs = Some (map Z.to_nat zs).
Proof.
  intros Hzs. apply mapM_Some. induction Hzs as [|z zs Hz Hzs IH]; constructor; [|done].
  by apply py_index_in_range.
Qed.

(** On positions that are all in range, [np_put_z] is [np_put]. *)
Lemma np_put_z_nat a (idx : list nat) vals :
  Forall (fun i => i < length a) idx →
  np_put_z a (map Z.of_nat idx) vals = np_put a idx vals.
Proof.
  intros Hidx. unfold np_put_z, np_put. rewrite length_map.
  destruct (length idx =? length vals); [|done]. cbn [negb].
  rewrite mapM_py_index_in_range.
  2:{ apply Forall_forall. intros z (i & <- & Hi)%list_elem_of_In%in_map_iff.
      apply list_elem_of_In in Hi.
      pose proof (proj1 (Forall_forall _ _) Hidx i Hi) as Hlt. cbv beta in Hlt. lia. }
  rewrite map_map. rewrite (map_ext _ id) by (intros i; apply Nat2Z.id).
  rewrite map_id.
  assert (Hex : existsb (fun i => length a <=? i) idx = false).
  { apply not_true_iff_false. rewrite existsb_exists.
    intros (i & Hi%list_elem_of_In & Hle%Nat.leb_le).
    pose proof (proj1 (Forall_forall _ _) Hidx i Hi) as Hlt. cbv beta in Hlt. lia. }
  by rewrite Hex.
Qed.

(** A position that no index denotes keeps its content. *)
Lemma np_put_z_lookup_other a (zs : list Z) vals out (p : nat) :
  np_put_z a zs vals = Ok out →
  Forall (fun z => py_index (length a) z ≠ Some p) zs →
  out !! p = a !! p ∧ length out = length a.
Proof.
  unfold np_put_z. destruct (length zs =? length vals); [|done]. cbn [negb].
  destruct (mapM (py_index (length a)) zs) as [positions|] eqn:Hm; [|done].
  intros [= <-] Hzs. change (foldl _ ?x ?y) with (put_all x y).
  split; [|apply length_put_all].
  apply put_all_lookup_other. intros Hin.
  apply list_elem_of_In, in_map_iff in Hin as ([p' v] & Hp & Hz). cbn in Hp. subst p'.
  apply in_combine_l, list_elem_of_In in Hz.
  apply mapM_Some in Hm. apply list_elem_of_lookup in Hz as [k Hk].
  destruct (Forall2_lookup_r _ _ _ _ _ Hm Hk) as (z & Hzk & Hpy).
  apply (proj1 (Forall_forall _ _) Hzs z); [|done].
  by eapply list_elem_of_lookup_2.
Qed.
End PutZ.

(** ** The round trip of 8-fold packed integrals *)

Section EriRoundTrip.
Context {R : Type} `{!Scalar R}.
Implicit Types (tf : trexio_file R).

Lemma pair_address_lower_triangle (n : nat) (a : nat * nat) :
  a ∈ lower_triangle n → pair_address a < tri n.
Proof.
  intros Ha.
  assert (Hin : pair_address a ∈ map pair_address (lower_triangle n)).
  { apply list_elem_of_In, in_map. by apply list_elem_of_In. }
  rewrite lower_triangle_addresses in Hin.
  apply list_elem_of_In, in_seq in Hin. lia.
Qed.

Lemma write_eri_rank1 (n : nat) (T : list R) tf :
  0 < n → length T = tri (tri n) → tf !! "mo_2e_int_eri" = None →
  ∃ idx,
    write_eri {| eri_shape := [length T]; eri_data := T |} tf
    = (Ok tt, <["mo_2e_int_eri" := VSparse idx T]> tf) ∧
    length idx = length T ∧
    map eri_address_nat idx = seq 0 (length T) ∧
    Forall (fun t => ∃ a b, a ∈ lower_triangle n ∧ b ∈ lower_triangle n ∧
                            t = (a.1, a.2, b.1, b.2)) idx.
Proof.
  intros Hn Hlen Hnone.
  destruct (eri_index_rank1 n) as (idx & Hidx_eq & Hidx & Haddr & Hform).
  rewrite <- Hlen in Hidx_eq, Hidx, Haddr.
  exists idx. split_and!; try done.
  unfold write_eri, write_mo_2e_int_eri. cbn [eri_shape eri_data]. tio_simpl.
  rewrite Hidx_eq.
  assert (Hpos : 0 < length T) by (rewrite Hlen; by apply tri_pos, tri_pos).
  rewrite (proj2 (Nat.eqb_neq _ _)) by lia.
  unfold has_attr. rewrite Hnone.
  rewrite bool_decide_eq_false_2 by (by intros [? ?]).
  by rewrite !take_ge by lia.
Qed.

Lemma read_eri_stored (n : nat) (S : nat) tf idx (vals : list R) :
  S = tri (tri n) → tf !! "mo_num" = Some (VInt (Z.of_nat n)) →
  read_eri (<["mo_2e_int_eri" := VSparse idx vals]> tf)
  = np_put_z (replicate S fzero) (map eri_address (take S idx)) (take S vals).
Proof.
  intros -> Hmo. unfold read_eri, read_int, read_mo_2e_int_eri.
  rewrite (lookup_insert_ne tf "mo_2e_int_eri" "mo_num") by done. rewrite Hmo.
  unfold mbind, result_bind. by rewrite Nat2Z.id, lookup_insert_eq.
Qed.
End EriRoundTrip.



(** ** Beyond 303 orbitals *)

(** With 304 orbitals the pair addresses reach 46359, and for a pair address
    [x] from 46341 on the product [x*(x+1)] no longer fits in 32 bits: the
    address computed by [read_eri] is negative and denotes a position near
    the start of the array.  The last position of the array is then never
    assigned. *)
Lemma read_eri_wraps {R : Type} `{!Scalar R} (n : nat) (T : list R)
    (tf : trexio_file R) :
  Z.of_nat n = 304%Z →
  length T = tri (tri n) →
  tf !! "mo_num" = Some (VInt (Z.of_nat n)) →
  tf !! "mo_2e_int_eri" = None →
  ∃ tf',
    write_eri {| eri_shape := [length T]; eri_data := T |} tf = (Ok tt, tf') ∧
    ∀ out, read_eri tf' = Ok out → out !! (length T - 1) = Some fzero.
Proof.
  intros Hn Hlen Hmo Hnone.
  destruct (write_eri_rank1 n T tf) as (idx & Hw & Hidx & Haddr & Hform);
    [lia|done|done|].
  eexists. split; [exact Hw|]. intros out.
  rewrite (read_eri_stored n (length T)) by done.
  rewrite (take_ge idx), (take_ge T) by lia. intros Hput.
  assert (Htn : Z.of_nat (tri n) = 46360%Z).
  { rewrite tri_Z, Hn. by vm_compute. }
  assert (HS : Z.of_nat (length T) = 1074647980%Z).
  { rewrite Hlen, tri_Z, Htn. by vm_compute. }
  destruct (np_put_z_lookup_other _ _ _ _ (length T - 1) Hput) as [Hout _].
  2:{ rewrite Hout. apply lookup_replicate_2. lia. }
  rewrite length_replicate. apply Forall_forall.
  intros z (t & <- & Ht)%list_elem_of_In%in_map_iff. apply list_elem_of_In in Ht.
  destruct (proj1 (Forall_forall _ _) Hform t Ht) as (a & b & Ha & Hb & ->).
  pose proof (pair_address_lower_triangle n a Ha) as Hxa.
  pose proof (pair_address_lower_triangle n b Hb) as Hxb.
  unfold eri_address. destruct a as [i j], b as [k l]. cbn [fst snd].
  unfold pair_address in Hxa, Hxb. cbn [fst snd] in Hxa, Hxb.
  pose proof (le_tri i) as Hi. pose proof (le_tri k) as Hk.
  pose proof (proj1 (Forall_forall _ _) (lower_triangle_bound n) _ Ha) as [Hi' Hj'].
  pose proof (proj1 (Forall_forall _ _) (lower_triangle_bound n) _ Hb) as [Hk' Hl'].
  cbn [fst snd] in Hi', Hj', Hk', Hl'.
  rewrite !wrap32_small by lia.
  assert (Hti : (Z.of_nat (tri i) ≤ 46056)%Z).
  { rewrite tri_Z. assert (0 ≤ Z.of_nat i ≤ 303)%Z as Hb1 by lia.
    assert (Z.of_nat i * (Z.of_nat i + 1) ≤ 92112)%Z by nia.
    Z.to_euclidean_division_equations. lia. }
  assert (Htk : (Z.of_nat (tri k) ≤ 46056)%Z).
  { rewrite tri_Z. assert (0 ≤ Z.of_nat k ≤ 303)%Z as Hb1 by lia.
    assert (Z.of_nat k * (Z.of_nat k + 1) ≤ 92112)%Z by nia.
    Z.to_euclidean_division_equations. lia. }
  rewrite (tri_plus32_exact i j), (tri_plus32_exact k l) by lia.
  set (x := tri i + j) in *. set (y := tri k + l) in *.
  assert (Hx : (0 ≤ Z.of_nat x ≤ 46359)%Z) by lia.
  assert (Hy : (0 ≤ Z.of_nat y ≤ 46359)%Z) by lia.
  unfold py_index. rewrite HS.
  destruct (decide (Z.of_nat x ≤ 46340)%Z) as [Hlow|Hhigh].
  - rewrite (tri_plus32_exact x y) by lia.
    assert (Htx : (0 ≤ Z.of_nat (tri x) ≤ 1073720970)%Z).
    { rewrite tri_Z.
      assert (0 ≤ Z.of_nat x * (Z.of_nat x + 1) ≤ 2147441940)%Z by nia.
      Z.to_euclidean_division_equations. lia. }
    rewrite bool_decide_eq_true_2 by lia. intros [= Heq]. lia.
  - rewrite (tri_plus32_wrapped x y) by lia.
    assert (Htx : (1073767311 ≤ Z.of_nat (tri x) ≤ 1074601620)%Z).
    { rewrite tri_Z.
      assert (2147534622 ≤ Z.of_nat x * (Z.of_nat x + 1) ≤ 2149203240)%Z by nia.
      Z.to_euclidean_division_equations. lia. }
    rewrite bool_decide_eq_false_2 by lia.
    rewrite bool_decide_eq_true_2 by lia. intros [= Heq]. lia.
Qed.


(** ** [_order_ao_index] is a permutation of the atomic orbitals *)

Lemma flat_map_pair_Permutation {A B : Type} (f g : A → B) (l : list A) :
  flat_map (fun k => [f k; g k]) l ≡ₚ map f l ++ map g l.
Proof.
  induction l as [|x l IH]; [done|]. cbn. rewrite IH.
  apply Permutation_skip. by rewrite Permutation_middle.
Qed.

Lemma map_sub_seq (l m : nat) :
  m ≤ l → map (fun k => l - k) (seq 1 m) = reverse (seq (l - m) m).
Proof.
  induction m as [|m IH]; intros Hm; [done|].
  rewrite seq_S, map_app, IH by lia. cbn [map].
  replace (l - m) with (S (l - S m)) by lia.
  cbn [seq]. rewrite reverse_cons. do 2 f_equal.
Qed.

Lemma formula_block_Permutation (l : nat) : formula_block l ≡ₚ seq 0 (2 * l + 1).
Proof.
  unfold formula_block. rewrite flat_map_pair_Permutation.
  rewrite map_sub_seq by done. rewrite Nat.sub_diag, reverse_Permutation.
  change (map ?f ?x) with (f <$> x). rewrite fmap_add_seq.
  replace (2 * l + 1) with (l + (1 + l)) by lia.
  rewrite (seq_app l (1 + l) 0). cbn [seq plus].
  rewrite (Permutation_app_comm (seq (l + 1) l)).
  rewrite Permutation_middle. replace (l + 1) with (S l) by lia. done.
Qed.

Lemma code_block_Permutation (l : nat) : code_block l ≡ₚ seq 0 (2 * l + 1).
Proof.
  unfold code_block. case_decide as Hl; [|apply formula_block_Permutation].
  subst l. cbn. etrans; [apply perm_swap | apply perm_skip, perm_swap].
Qed.

Lemma concat_blocks_Permutation (off : nat) (ls : list nat) :
  concat_blocks code_block off ls
  ≡ₚ seq off (sum_list (map (fun l => 2 * l + 1) ls)).
Proof.
  revert off. induction ls as [|l ls IH]; intros off; [done|].
  cbn [concat_blocks map sum_list sum_list_with]. rewrite seq_app, IH.
  apply Permutation_app; [|done].
  change (map ?f ?x) with (f <$> x). rewrite code_block_Permutation.
  rewrite (list_fmap_ext _ (Nat.add off)) by (intros; lia).
  by rewrite fmap_add_seq, Nat.add_0_r.
Qed.

Lemma nao_nr_columns {R : Type} (mol : Mole R) :
  nao_nr mol = sum_list (map (fun l => 2 * l + 1) (shell_columns mol)).
Proof.
  unfold nao_nr, shell_columns. induction (_bas mol) as [|[ia sh] bas IH]; [done|].
  cbn [map flat_map sum_list sum_list_with snd]. rewrite map_app, sum_list_with_app, <- IH.
  f_equal. change (map ?f ?x) with (f <$> x).
  rewrite fmap_replicate, sum_list_replicate. unfold id. lia.
Qed.

(** On spherical and on Cartesian structures alike, the index array is a
    rearrangement of [0 .. nao-1]. *)
Lemma _order_ao_index_Permutation {R : Type} (mol : Mole R) (idx : list nat) :
  _order_ao_index mol = Ok idx → idx ≡ₚ seq 0 (nao mol).
Proof.
  unfold nao. destruct (cart mol) eqn:Hc.
  - unfold _order_ao_index. rewrite Hc. unfold nao. rewrite Hc. by intros [= <-].
  - destruct (decide (shell_columns mol = [])) as [Hne|Hne].
    + unfold _order_ao_index. rewrite Hc.
      destruct (map _ (_bas mol)) eqn:Hangs; [done|]. rewrite <- Hangs.
      rewrite order_loops_columns. fold (shell_columns mol). rewrite Hne. done.
    + rewrite _order_ao_index_sph by done. intros [= <-].
      rewrite nao_nr_columns. apply concat_blocks_Permutation.
Qed.

(** ** Gathering, transposing and scattering rows *)

Section Matrices.
Context {A : Type}.
Implicit Types (m : list (list A)) (idx : list nat).


Lemma np_take_Ok {B : Type} (a : list B) idx :
  Forall (fun i => i < length a) idx →
  ∃ out, np_take a idx = Ok out ∧ Forall2 (fun i x => a !! i = Some x) idx out.
Proof.
  induction 1 as [|i idx Hi Hidx (out & Hout & Hall)].
  { exists []. by split; [|constructor]. }
  destruct (lookup_lt_is_Some_2 a i Hi) as [x Hx].
  exists (x :: out). split; [|by constructor].
  cbn [np_take foldr]. fold (np_take a idx). by rewrite Hx, Hout.
Qed.

Lemma np_take_raise_inv {B : Type} (a : list B) idx e :
  np_take a idx = Raise e → ∃ i, i ∈ idx ∧ length a ≤ i.
Proof.
  induction idx as [|i idx IH]; [done|].
  cbn [np_take foldr]. fold (np_take a idx).
  destruct (a !! i) eqn:Hi.
  - destruct (np_take a idx); [done|]. cbn. intros [= ->].
    destruct IH as (j & Hj & Hle); [done|]. exists j. split; [by right | done].
  - intros _. exists i. split; [by left | by apply lookup_ge_None].
Qed.

Lemma omap_lookup_shaped m r c j :
  shaped r c m → j < c →
  length (omap (fun row => row !! j) m) = r ∧
  ∀ i row, m !! i = Some row → omap (fun row => row !! j) m !! i = row !! j.
Proof.
  intros [Hr Hc] Hj. revert r Hr. induction Hc as [|row m Hrow Hc IH]; intros r Hr.
  { cbn in *. split; [done|]. intros i row. by rewrite lookup_nil. }
  destruct (lookup_lt_is_Some_2 row j) as [x Hx]; [lia|].
  cbn [omap list_omap]. rewrite Hx. fold (omap (fun row : list A => row !! j) m).
  destruct (IH (length m) eq_refl) as [Hlen Hlook]. cbn in Hr. split.
  - cbn. by rewrite Hlen.
  - intros [|i] row'; cbn.
    + intros [= <-]. done.
    + apply Hlook.
Qed.

Lemma np_T_shaped m r c : shaped r c m → 0 < r → shaped c r (np_T m).
Proof.
  intros Hs Hr. pose proof Hs as [Hlen Hc].
  destruct m as [|r0 m0]; [cbn in Hlen; lia|].
  assert (Hr0 : length r0 = c) by (by inversion Hc).
  unfold np_T. rewrite Hr0. split; [by rewrite length_map, length_seq|].
  apply Forall_forall. intros col (j & <- & Hj%in_seq)%list_elem_of_In%in_map_iff.
  apply (omap_lookup_shaped _ r c j Hs). lia.
Qed.

Lemma np_T_lookup m r c j i row :
  shaped r c m → j < c → m !! i = Some row →
  ∃ col, np_T m !! j = Some col ∧ col !! i = row !! j.
Proof.
  intros Hs Hj Hi. pose proof Hs as [Hlen Hc].
  destruct m as [|r0 m0]; [by rewrite lookup_nil in Hi|].
  assert (Hr0 : length r0 = c) by (by inversion Hc).
  unfold np_T. rewrite Hr0. eexists. split.
  - change (map ?f ?x) with (f <$> x).
    rewrite list_lookup_fmap, lookup_seq_lt by done. reflexivity.
  - cbn [plus]. by apply (omap_lookup_shaped _ r c j Hs).
Qed.

Lemma np_T_involutive m r c :
  shaped r c m → 0 < r → 0 < c → np_T (np_T m) = m.
Proof.
  intros Hs Hr Hc. pose proof (np_T_shaped m r c Hs Hr) as Hs'.
  pose proof (np_T_shaped _ _ _ Hs' Hc) as [Hlen'' Hrows''].
  destruct Hs as [Hlen Hrows]. apply list_eq. intros i.
  destruct (m !! i) as [row|] eqn:Hi.
  - assert (Hi' : i < r) by (rewrite <- Hlen; by eapply lookup_lt_Some).
    destruct (lookup_lt_is_Some_2 (np_T (np_T m)) i) as [row' Hrow']; [lia|].
    rewrite Hrow'. f_equal. apply list_eq. intros j.
    assert (Hlr : length row = c) by
      (eapply (proj1 (Forall_forall _ _) Hrows), list_elem_of_lookup_2, Hi).
    assert (Hlr' : length row' = c) by
      (eapply (proj1 (Forall_forall _ _) Hrows''), list_elem_of_lookup_2, Hrow').
    destruct (decide (j < c)) as [Hj|Hj].
    + destruct (np_T_lookup m r c j i row (conj Hlen Hrows) Hj Hi)
        as (col & Hcol & Hci).
      destruct (np_T_lookup (np_T m) c r i j col Hs' Hi' Hcol)
        as (row2 & Hrow2 & Hrj).
      rewrite Hrow' in Hrow2. injection Hrow2 as <-. by rewrite Hrj, Hci.
    + rewrite !lookup_ge_None_2 by lia. done.
  - apply lookup_ge_None. apply lookup_ge_None in Hi. lia.
Qed.

Lemma reshape_concat_shaped m r c :
  shaped r c m → reshape (replicate r c) (concat m) = m.
Proof.
  intros [Hlen Hrows]. revert r Hlen.
  induction Hrows as [|row m Hrow Hrows IH]; intros r Hlen.
  { by subst r. }
  subst r. cbn [length replicate reshape concat].
  rewrite take_app_length' by done. rewrite drop_app_length' by done.
  f_equal. by apply IH.
Qed.

Lemma length_concat_shaped m r c : shaped r c m → length (concat m) = r * c.
Proof.
  intros [Hlen Hrows]. revert r Hlen.
  induction Hrows as [|row m Hrow Hrows IH]; intros r Hlen.
  { by subst r. }
  subst r. cbn [length concat]. rewrite length_app, (IH _ eq_refl). lia.
Qed.

(** Scattering values that all agree with a target array reproduces the
    target wherever something was assigned. *)
Lemma put_all_target {B : Type} (a target : list B) (zs : list (nat * B)) r :
  (∀ i v, (i, v) ∈ zs → i < length a ∧ target !! i = Some v) →
  r ∈ map fst zs → put_all a zs !! r = target !! r.
Proof.
  revert a. induction zs as [|[i v] zs IH]; intros a Hzs Hr.
  { by apply elem_of_nil in Hr. }
  cbn [put_all foldl]. change (foldl _ ?x ?y) with (put_all x y).
  destruct (decide (r ∈ map fst zs)) as [Hin|Hnin].
  - apply IH; [|done]. intros i' v' Hiv. rewrite length_insert.
    apply Hzs. by right.
  - cbn [map fst] in Hr. apply elem_of_cons in Hr as [->|Hr]; [|done].
    rewrite put_all_lookup_other by done.
    destruct (Hzs i v) as [Hi Ht]; [by left|].
    rewrite list_lookup_insert_eq by done. done.
Qed.
End Matrices.

(** The coefficient codec on its own: permute the rows by [idx], transpose
    and flatten; then reshape, transpose and scatter back by [idx]. *)
Lemma mo_coefficient_roundtrip {A : Type} (mo : list (list A)) (idx : list nat)
    (n : nat) (uninit : nat → nat → A) :
  shaped n n mo → 0 < n → idx ≡ₚ seq 0 n →
  ∃ permuted,
    np_take mo idx = Ok permuted ∧
    length (concat (np_T permuted)) = n * n ∧
    np_put (map (fun i => map (fun j => uninit j i) (seq 0 n)) (seq 0 n)) idx
           (np_T (reshape (replicate n n) (concat (np_T permuted))))
    = Ok mo.
Proof.
  intros Hs Hn Hperm. pose proof Hs as [Hlen Hrows].
  assert (Hidx : Forall (fun i => i < length mo) idx).
  { rewrite Hperm, Hlen. apply Forall_seq. intros; lia. }
  destruct (np_take_Ok mo idx Hidx) as (P & HP & Hall).
  assert (Hlidx : length idx = n) by (by rewrite Hperm, length_seq).
  assert (HPs : shaped n n P).
  { split; [by rewrite <- (Forall2_length _ _ _ Hall)|].
    apply Forall_forall. intros row Hrow.
    apply list_elem_of_lookup in Hrow as [k Hk].
    destruct (Forall2_lookup_r _ _ _ _ _ Hall Hk) as (i & _ & Hi).
    eapply (proj1 (Forall_forall _ _) Hrows), list_elem_of_lookup_2, Hi. }
  pose proof (np_T_shaped P n n HPs Hn) as HTs.
  assert (HPlen : length P = n) by apply HPs.
  exists P. split_and!; [done|by apply length_concat_shaped|].
  rewrite (reshape_concat_shaped _ n n) by done.
  rewrite (np_T_involutive P n n) by done.
  unfold np_put. rewrite Hlidx, HPlen, Nat.eqb_refl. cbn [negb].
  rewrite length_map, length_seq.
  assert (Hex : existsb (fun i => n <=? i) idx = false).
  { apply not_true_iff_false. rewrite existsb_exists.
    intros (i & Hi%list_elem_of_In & Hle%Nat.leb_le).
    rewrite Hperm in Hi. apply elem_of_seq in Hi. lia. }
  rewrite Hex. f_equal. change (foldl _ ?x ?y) with (put_all x y).
  apply list_eq. intros r.
  destruct (decide (r < n)) as [Hr|Hr].
  - apply put_all_target.
    + intros i v [k Hk]%list_elem_of_lookup.
      apply lookup_zip_with_Some in Hk as (i' & v' & [= <- <-] & Hi & Hv).
      rewrite length_map, length_seq. split.
      * apply list_elem_of_lookup_2 in Hi. rewrite Hperm in Hi.
        apply elem_of_seq in Hi. lia.
      * by apply (Forall2_lookup_lr _ _ _ _ _ _ Hall Hi Hv).
    + change (map fst ?x) with (fst <$> x). rewrite fst_zip by lia.
      rewrite Hperm. apply elem_of_seq. lia.
  - rewrite !lookup_ge_None_2; [done|lia|].
    rewrite length_put_all, length_map, length_seq. lia.
Qed.

(** ** Grouping by run-length keys *)


Section RunKeys.
Context {A : Type}.
Implicit Types (a q : list A) (qs : list (list A)) (keys : list Z).

Lemma run_keys_cons start c counts :
  run_keys start (c :: counts)
  = replicate c (Z.of_nat start) ++ run_keys (S start) counts.
Proof. reflexivity. Qed.

Lemma length_run_keys start counts :
  length (run_keys start counts) = sum_list counts.
Proof.
  revert start. induction counts as [|c counts IH]; intros start; [done|].
  rewrite run_keys_cons, length_app, length_replicate, IH. done.
Qed.

Lemma run_keys_lower start counts :
  Forall (fun k => (Z.of_nat start ≤ k)%Z) (run_keys start counts).
Proof.
  revert start. induction counts as [|c counts IH]; intros start.
  { constructor. }
  rewrite run_keys_cons. apply Forall_app. split.
  - apply Forall_replicate. lia.
  - eapply Forall_impl; [apply (IH (S start))|]. cbn. intros; lia.
Qed.

Lemma run_keys_Sorted start counts : Sorted Z.le (run_keys start counts).
Proof.
  apply StronglySorted_Sorted. revert start.
  induction counts as [|c counts IH]; intros start.
  { constructor. }
  rewrite run_keys_cons. apply StronglySorted_app. split_and!; [| |apply IH].
  - intros x1 x2 [-> _]%elem_of_replicate Hx2.
    pose proof (proj1 (Forall_forall _ _) (run_keys_lower (S start) counts) x2 Hx2).
    cbn in *. lia.
  - induction c as [|c IHc]; cbn; constructor; [done|].
    apply Forall_replicate. lia.
Qed.

Lemma _group_by_Sorted a keys :
  Sorted Z.le keys →
  _group_by a keys
  = Ok (np_split a (tail (unique_mask None (zip keys (seq 0 (length keys)))))).
Proof.
  intros Hs. unfold _group_by, np_unique_index.
  rewrite (proj2 (py_all_keys_le_Sorted keys) Hs).
  by rewrite argsort_stable_Sorted.
Qed.

Lemma length_np_split a (cuts : list nat) : length (np_split a cuts) = S (length cuts).
Proof.
  unfold np_split. cbn [tail]. rewrite length_zip_with, length_cons, !length_app.
  cbn [length]. lia.
Qed.

Lemma unique_mask_replicate (k : Z) (c : nat) (rest : list Z) (s : nat) :
  unique_mask (Some k) (zip (replicate c k ++ rest) (seq s (c + length rest)))
  = unique_mask (Some k) (zip rest (seq (s + c) (length rest))).
Proof.
  revert s. induction c as [|c IH]; intros s.
  { by rewrite Nat.add_0_r. }
  cbn [replicate app plus seq zip zip_with unique_mask].
  fold (zip (replicate c k ++ rest) (seq (S s) (c + length rest))).
  rewrite bool_decide_eq_true_2 by done. rewrite IH. do 3 f_equal. lia.
Qed.

Lemma split_from_cons g s (cuts : list nat) a :
  split_from g (s :: cuts) a = slice g s a :: split_from s cuts a.
Proof. reflexivity. Qed.

Lemma slice_middle a0 q rest :
  slice (length a0) (length a0 + length q) (a0 ++ q ++ rest) = q.
Proof.
  unfold slice. rewrite drop_app_length.
  replace (length a0 + length q - length a0) with (length q) by lia.
  by rewrite take_app_length.
Qed.

(** With a group open from [g] to the end of [a0], the cuts made by the
    keys of the remaining pieces close it and open one group per non-empty
    piece. *)
Lemma split_from_run_keys qs j a0 g (k : Z) :
  (k < Z.of_nat j)%Z →
  split_from g
    (unique_mask (Some k)
       (zip (run_keys j (map length qs))
            (seq (length a0) (length (run_keys j (map length qs))))))
    (a0 ++ concat qs)
  = slice g (length a0) (a0 ++ concat qs) :: filter (fun q => q ≠ []) qs.
Proof.
  revert j a0 g k. induction qs as [|q qs IH]; intros j a0 g k Hk.
  - cbn [map concat]. unfold run_keys. cbn. unfold split_from. cbn.
    by rewrite app_nil_r.
  - cbn [map concat]. destruct q as [|x q].
    + rewrite run_keys_cons. cbn [length replicate app].
      rewrite filter_cons_False by (intros H; by apply H).
      by apply IH; lia.
    + rewrite filter_cons_True by done.
      rewrite run_keys_cons. cbn [length replicate].
      rewrite length_app. cbn [length app plus seq zip zip_with unique_mask].
      fold (zip (replicate (length q) (Z.of_nat j) ++ run_keys (S j) (map length qs))
                (seq (S (length a0)) (length (replicate (length q) (Z.of_nat j))
                                      + length (run_keys (S j) (map length qs))))).
      rewrite bool_decide_eq_false_2 by (intros [= ->]; lia).
      rewrite length_replicate, unique_mask_replicate, split_from_cons.
      f_equal.
      replace (S (length a0) + length q) with (length (a0 ++ x :: q))
        by (rewrite length_app; cbn; lia).
      assert (Ha : a0 ++ x :: q ++ concat qs = (a0 ++ x :: q) ++ concat qs)
        by (by rewrite <- app_assoc).
      rewrite Ha.
      rewrite (IH (S j) (a0 ++ x :: q) (length a0) (Z.of_nat j)) by lia.
      f_equal. rewrite <- app_assoc, length_app.
      apply (slice_middle a0 (x :: q)).
Qed.

(** [_group_by] on run-length keys returns the non-empty pieces. *)
Lemma _group_by_run_keys qs j :
  concat qs ≠ [] →
  _group_by (concat qs) (run_keys j (map length qs))
  = Ok (filter (fun q => q ≠ []) qs).
Proof.
  intros Hne. rewrite _group_by_Sorted by apply run_keys_Sorted. f_equal.
  revert j. induction qs as [|q qs IH]; intros j; [done|].
  destruct q as [|x q].
  - rewrite filter_cons_False by (intros H; by apply H).
    cbn [map length concat app] in *. rewrite run_keys_cons.
    cbn [replicate app]. by apply IH.
  - rewrite filter_cons_True by done. cbn [map concat].
    rewrite run_keys_cons. cbn [length replicate].
    rewrite length_app. cbn [length app plus seq zip zip_with unique_mask].
    fold (zip (replicate (length q) (Z.of_nat j) ++ run_keys (S j) (map length qs))
              (seq 1 (length (replicate (length q) (Z.of_nat j))
                      + length (run_keys (S j) (map length qs))))).
    rewrite bool_decide_eq_false_2 by done. cbn [tail].
    rewrite length_replicate, unique_mask_replicate.
    change (np_split ?a ?c) with (split_from 0 c a).
    pose proof (split_from_run_keys qs (S j) (x :: q) 0 (Z.of_nat j)
                  ltac:(lia)) as H.
    etrans; [exact H|]. f_equal.
    exact (slice_middle [] (x :: q) (concat qs)).
Qed.
End RunKeys.

(** ** Grouping by sorted keys *)

Section KeyedRuns.
Context {A : Type}.
Implicit Types (a q : list A) (qs : list (list A)) (keys ks : list Z).

Lemma keyed_runs_cons (k : Z) ks q qs :
  keyed_runs (k :: ks) (q :: qs) = replicate (length q) k ++ keyed_runs ks qs.
Proof. reflexivity. Qed.

(** With a group open from [g] to the end of [a0], the cuts made by the
    keys of the remaining groups close it and open one group per key. *)
Lemma split_from_keyed_runs ks qs a0 g (k : Z) :
  length ks = length qs →
  Forall (fun q => q ≠ []) qs →
  StronglySorted Z.lt (k :: ks) →
  split_from g
    (unique_mask (Some k)
       (zip (keyed_runs ks qs) (seq (length a0) (length (keyed_runs ks qs)))))
    (a0 ++ concat qs)
  = slice g (length a0) (a0 ++ concat qs) :: qs.
Proof.
  revert ks a0 g k. induction qs as [|q qs IH]; intros ks a0 g k Hlen Hne Hs.
  - destruct ks; [|done]. cbn. unfold split_from. cbn. by rewrite app_nil_r.
  - destruct ks as [|k1 ks]; [done|]. injection Hlen as Hlen.
    apply Forall_cons in Hne as [Hq Hne]. destruct q as [|x q]; [done|].
    apply StronglySorted_inv in Hs as [Hs Hk].
    apply Forall_cons in Hk as [Hk1 _].
    rewrite keyed_runs_cons. cbn [length replicate concat].
    rewrite length_app. cbn [length app plus seq zip zip_with unique_mask].
    fold (zip (replicate (length q) k1 ++ keyed_runs ks qs)
              (seq (S (length a0)) (length (replicate (length q) k1)
                                    + length (keyed_runs ks qs)))).
    rewrite bool_decide_eq_false_2 by (intros [= ->]; lia).
    rewrite length_replicate, unique_mask_replicate, split_from_cons.
    f_equal.
    replace (S (length a0) + length q) with (length (a0 ++ x :: q))
      by (rewrite length_app; cbn; lia).
    assert (Ha : a0 ++ x :: q ++ concat qs = (a0 ++ x :: q) ++ concat qs)
      by (by rewrite <- app_assoc).
    rewrite Ha.
    rewrite (IH ks (a0 ++ x :: q) (length a0) k1) by done.
    f_equal. rewrite <- app_assoc, length_app.
    apply (slice_middle a0 (x :: q)).
Qed.

(** [_group_by] on the keys of consecutive non-empty groups with strictly
    increasing keys gives the groups back. *)
Lemma _group_by_keyed_runs ks qs :
  Sorted Z.le (keyed_runs ks qs) →
  StronglySorted Z.lt ks → length ks = length qs →
  Forall (fun q => q ≠ []) qs → qs ≠ [] →
  _group_by (concat qs) (keyed_runs ks qs) = Ok qs.
Proof.
  intros Hsorted Hs Hlen Hne Hqs. rewrite _group_by_Sorted by done. f_equal.
  destruct qs as [|q qs]; [done|]. destruct ks as [|k ks]; [done|].
  injection Hlen as Hlen. pose proof Hne as Hne'.
  apply Forall_cons in Hne' as [Hq Hne']. destruct q as [|x q]; [done|].
  rewrite keyed_runs_cons. cbn [length replicate concat].
  rewrite length_app. cbn [length app plus seq zip zip_with unique_mask].
  fold (zip (replicate (length q) k ++ keyed_runs ks qs)
            (seq 1 (length (replicate (length q) k) + length (keyed_runs ks qs)))).
  rewrite bool_decide_eq_false_2 by done. cbn [tail].
  rewrite length_replicate, unique_mask_replicate.
  change (np_split ?a ?c) with (split_from 0 c a).
  pose proof (split_from_keyed_runs ks qs (x :: q) 0 k Hlen Hne' Hs) as H.
  etrans; [exact H|]. f_equal.
  exact (slice_middle [] (x :: q) (concat qs)).
Qed.

(** Sorted keys are the keys of consecutive non-empty groups. *)
Lemma sorted_keyed_runs a keys :
  Sorted Z.le keys → length a = length keys → keys ≠ [] →
  ∃ ks qs,
    StronglySorted Z.lt ks ∧ length ks = length qs ∧
    Forall (fun q => q ≠ []) qs ∧ concat qs = a ∧
    keys = keyed_runs ks qs ∧ head ks = head keys.
Proof.
  intros Hs. revert a. induction Hs as [|k keys Hs IH Hk]; intros a Hlen Hne; [done|].
  destruct a as [|x a]; [done|]. injection Hlen as Hlen.
  destruct keys as [|k' keys].
  { destruct a; [|done]. exists [k], [[x]].
    split_and!; try done; repeat constructor; done. }
  destruct (IH a Hlen) as (ks & qs & Hss & Hl & Hq & Hcat & Hkeys & Hhead); [done|].
  destruct ks as [|k0 ks]; [done|]. injection Hhead as ->.
  destruct qs as [|q0 qs]; [done|]. injection Hl as Hl.
  apply HdRel_inv in Hk.
  destruct (decide (k = k')) as [->|Hkk].
  - exists (k' :: ks), ((x :: q0) :: qs).
    split_and!; [done|by cbn; rewrite Hl| | | |done].
    + apply Forall_cons in Hq as [_ Hq]. by constructor.
    + cbn. cbn in Hcat. by rewrite Hcat.
    + rewrite Hkeys, !keyed_runs_cons. done.
  - exists (k :: k' :: ks), ([x] :: q0 :: qs).
    split_and!; [|by cbn; rewrite Hl|by constructor|by cbn; rewrite <- Hcat| |done].
    + constructor; [done|]. constructor; [lia|].
      apply StronglySorted_inv in Hss as [_ Hall].
      eapply Forall_impl; [exact Hall|]. cbn. intros; lia.
    + rewrite Hkeys. by rewrite (keyed_runs_cons k (k' :: ks) [x] (q0 :: qs)).
Qed.
End KeyedRuns.

(** C9: for arrays [a] and [keys] of equal length, [_group_by] fails with the
    assertion error whenever [keys] is not sorted ascending.  When [keys] is
    sorted it returns the consecutive pieces of [a] cut at the increasing
    positions [cuts], which are exactly the positions where the key differs
    from its predecessor, and the pieces concatenate to [a].  Said without
    the cuts: for sorted, non-empty [keys] the result is a list of non-empty
    groups, one for each distinct key [ks !! i] in ascending order, whose
    concatenation is [a] and such that the entries of group [i] are exactly
    the entries of [a] that carry the key [ks !! i]; for empty arrays the
    result is the single empty group. *)
Theorem _group_by_sorted_contract {A : Type} (a : list A) (keys : list Z) :
  length a = length keys →
  (¬ Sorted Z.le keys →
     _group_by a keys = Raise (AssertionError keys_sorted_cond)) ∧
  (Sorted Z.le keys →
     ∃ cuts : list nat,
       _group_by a keys = Ok (np_split a cuts) ∧
       StronglySorted lt cuts ∧
       (∀ i, i ∈ cuts ↔ 0 < i < length keys ∧ keys !! (i - 1) ≠ keys !! i) ∧
       concat (np_split a cuts) = a) ∧
  (Sorted Z.le keys → keys ≠ [] →
     ∃ (ks : list Z) (groups : list (list A)),
       _group_by a keys = Ok groups ∧
       StronglySorted Z.lt ks ∧ length ks = length groups ∧
       Forall (fun g => g ≠ []) groups ∧
       concat groups = a ∧ keys = keyed_runs ks groups) ∧
  (keys = [] → _group_by a keys = Ok [a]).
Proof.
  intros Hlen. split_and!.
  - unfold _group_by. intros Hns.
    destruct (py_all (keys_le keys)) eqn:Hall; [|done].
    apply py_all_keys_le_Sorted in Hall. done.
  - unfold _group_by.
    intros Hs. pose proof Hs as Hall. apply py_all_keys_le_Sorted in Hall.
    rewrite Hall. unfold np_unique_index. rewrite argsort_stable_Sorted by done.
    exists (tail (unique_mask None (zip keys (seq 0 (length keys))))).
    split; [done|].
    destruct keys as [|k0 keys].
    { cbn. split_and!; [constructor| |by destruct a].
      intros i. split; [by intros ?%elem_of_nil | lia]. }
    cbn [length seq zip zip_with unique_mask tail].
    fold (zip keys (seq 1 (length keys))).
    rewrite bool_decide_eq_false_2 by done. cbn [tail].
    destruct (unique_mask_increasing keys (Some k0) 1) as [Hinc Hbnd].
    split_and!; [done| |].
    + intros i. rewrite elem_of_unique_mask. split.
      * intros (j & -> & ? & Hne). split; [lia|].
        replace (1 + j - 1) with j by lia. done.
      * intros [? Hne]. exists (i - 1). split_and!; [lia..|].
        by replace (S (i - 1)) with i by lia.
    + apply concat_np_split.
      * by apply StronglySorted_lt_Sorted_le.
      * eapply Forall_impl; [exact Hbnd|]. cbn in *. intros; lia.
  - intros Hs Hne.
    destruct (sorted_keyed_runs a keys Hs Hlen Hne)
      as (ks & qs & Hss & Hl & Hq & Hcat & Hkeys & _).
    exists ks, qs. split_and!; try done.
    subst a. rewrite Hkeys. rewrite Hkeys in Hs. apply _group_by_keyed_runs; try done.
    intros ->. destruct ks; [|done]. by rewrite Hkeys in Hne.
  - intros ->. destruct a; [|done]. reflexivity.
Qed.

Lemma _group_by_sorted_contract_witness :
  (¬ Sorted Z.le [0; 0; 1; 3; 3]%Z →
     _group_by [10; 11; 12; 13; 14] [0; 0; 1; 3; 3]%Z
     = Raise (AssertionError keys_sorted_cond)) ∧
  (Sorted Z.le [0; 0; 1; 3; 3]%Z →
     ∃ cuts : list nat,
       _group_by [10; 11; 12; 13; 14] [0; 0; 1; 3; 3]%Z
       = Ok (np_split [10; 11; 12; 13; 14] cuts) ∧
       StronglySorted lt cuts ∧
       (∀ i, i ∈ cuts ↔ 0 < i < length [0; 0; 1; 3; 3]%Z ∧
                        [0; 0; 1; 3; 3]%Z !! (i - 1) ≠ [0; 0; 1; 3; 3]%Z !! i) ∧
       concat (np_split [10; 11; 12; 13; 14] cuts) = [10; 11; 12; 13; 14]) ∧
  (Sorted Z.le [0; 0; 1; 3; 3]%Z → [0; 0; 1; 3; 3]%Z ≠ [] →
     ∃ (ks : list Z) (groups : list (list nat)),
       _group_by [10; 11; 12; 13; 14] [0; 0; 1; 3; 3]%Z = Ok groups ∧
       StronglySorted Z.lt ks ∧ length ks = length groups ∧
       Forall (fun g => g ≠ []) groups ∧
       concat groups = [10; 11; 12; 13; 14] ∧
       [0; 0; 1; 3; 3]%Z = keyed_runs ks groups) ∧
  ([0; 0; 1; 3; 3]%Z = [] →
     _group_by [10; 11; 12; 13; 14] [0; 0; 1; 3; 3]%Z = Ok [[10; 11; 12; 13; 14]]).
Proof.
  apply (_group_by_sorted_contract [10; 11; 12; 13; 14] [0; 0; 1; 3; 3]%Z).
  reflexivity.
Defined.

(** On the keys [0, 0, 1, 3, 3] the groups are the three runs. *)
Example _group_by_three_runs :
  _group_by [10; 11; 12; 13; 14] [0; 0; 1; 3; 3]%Z = Ok [[10; 11]; [12]; [13; 14]].
Proof. reflexivity. Qed.

(** ** The basis arrays of an exported structure *)

Section BasisArrays.
Context {R : Type}.
Implicit Types (mol : Mole R) (atoms : list (atom R)).


(** The [ATOM_OF] column is run-length keys over the nuclei. *)
Lemma bas_nucleus_index_run_keys mol :
  map (fun b => Z.of_nat b.1) (_bas mol)
  = run_keys 0 (map (fun a => length (atom_shells a)) (_atom mol)).
Proof.
  unfold _bas, enumerate, run_keys. generalize 0 as j.
  induction (_atom mol) as [|a atoms IH]; intros j; [done|].
  cbn [length seq zip zip_with flat_map map concat fst snd].
  fold (zip (seq (S j) (length atoms)) atoms).
  fold (zip (seq (S j) (length (map (fun a => length (atom_shells a)) atoms)))
            (map (fun a => length (atom_shells a)) atoms)).
  rewrite map_app, IH. f_equal.
  rewrite map_map. cbn [fst].
  induction (atom_shells a) as [|sh shs IHs]; [done|]. cbn. by rewrite IHs.
Qed.

(** The shells of the structure, nucleus by nucleus. *)
Lemma bas_shells_concat mol :
  map snd (_bas mol) = concat (map atom_shells (_atom mol)).
Proof.
  unfold _bas, enumerate. generalize 0 as j.
  induction (_atom mol) as [|a atoms IH]; intros j; [done|].
  cbn [length seq zip zip_with flat_map map concat].
  fold (zip (seq (S j) (length atoms)) atoms).
  rewrite map_app, IH, map_map. cbn [snd]. by rewrite map_id.
Qed.

(** The [shell_index] attribute is run-length keys over the shells. *)
Lemma prim2sh_run_keys (bas : list (nat * shell R)) :
  concat (map (fun ib => replicate (NPRIM_OF ib.2.2) (Z.of_nat ib.1))
              (enumerate bas))
  = run_keys 0 (map (fun b => NPRIM_OF b.2) bas).
Proof.
  unfold enumerate, run_keys. generalize 0 as j.
  induction bas as [|b bas IH]; intros j; [done|].
  cbn [length seq zip zip_with map concat fst snd].
  fold (zip (seq (S j) (length bas)) bas).
  fold (zip (seq (S j) (length (map (fun b => NPRIM_OF b.2) bas)))
            (map (fun b : nat * shell R => NPRIM_OF b.2) bas)).
  by rewrite IH.
Qed.
End BasisArrays.

(** ** Rebuilding the basis dictionary on import *)

Lemma length_slice {A : Type} (s e : nat) (a : list A) :
  e ≤ length a → length (slice s e a) = e - s.
Proof. intros He. unfold slice. rewrite length_take, length_drop. lia. Qed.

Section BasisLoop.
Context {R : Type} `{!Host R}.
Implicit Types (elements : list string) (gs : list (list Z))
  (d : gmap string (list (basis_entry (R := R)))).


Lemma basis_loop_from elements (E C : list (list R)) todo done d :
  NoDup elements →
  length (done ++ todo) ≤ length elements →
  length E = length (concat (done ++ todo)) →
  length C = length (concat (done ++ todo)) →
  basis_dict_inv elements done d →
  ∃ d' p',
    foldM (basis_step elements (concat (done ++ todo)) E C)
          (d, length (concat done))
          (zip (seq (length done) (length todo)) todo) = Ok (d', p') ∧
    basis_dict_inv elements (done ++ todo) d'.
Proof.
  intros Hnd. revert done d.
  induction todo as [|g todo IH]; intros done d HG HE HC Hinv.
  { exists d, (length (concat done)). rewrite app_nil_r. by split. }
  assert (Hj : length done < length elements)
    by (rewrite length_app in HG; cbn in HG; lia).
  destruct (lookup_lt_is_Some_2 elements _ Hj) as [el Hel].
  assert (Hsplit : done ++ g :: todo = (done ++ [g]) ++ todo)
    by (by rewrite <- app_assoc).
  cbn [length seq zip zip_with foldM].
  fold (zip (seq (S (length done)) (length todo)) todo).
  unfold basis_step at 2. cbn [fst snd]. rewrite Hel.
  cbn [mbind result_bind].
  set (p := length (concat done)).
  set (entries := zip_with _ (slice p (p + length g) _) _).
  assert (Hentries : map fst entries = g).
  { subst entries.
    assert (Hls : slice p (p + length g) (concat (done ++ g :: todo)) = g).
    { rewrite concat_app. cbn [concat]. apply slice_middle. }
    rewrite Hls.
    change (map fst ?x) with (fst <$> x).
    change (zip_with (fun (l : Z) (ec : list (R * R)) => (l, ec)) ?x ?y) with (zip x y).
    apply fst_zip. rewrite length_zip_with.
    assert (Hp1 : p + length g ≤ length (concat (done ++ g :: todo))).
    { rewrite concat_app, length_app. cbn [concat]. rewrite length_app.
      subst p. lia. }
    rewrite !length_slice by lia. lia. }
  destruct (IH (done ++ [g]) (<[el := entries]> d)) as (d' & p' & Hrun & Hinv').
  - by rewrite <- Hsplit.
  - by rewrite <- Hsplit.
  - by rewrite <- Hsplit.
  - destruct Hinv as [Hin Hout]. split.
    + intros i el' g' Hi Hg'.
      destruct (decide (i = length done)) as [->|Hne].
      * rewrite Hel in Hi. injection Hi as <-.
        rewrite lookup_app_r, Nat.sub_diag in Hg' by done.
        injection Hg' as <-. exists entries. by rewrite lookup_insert_eq.
      * assert (Hlt : i < length done).
        { apply lookup_lt_Some in Hg'. rewrite length_app in Hg'. cbn in Hg'. lia. }
        rewrite lookup_app_l in Hg' by done.
        destruct (Hin i el' g' Hi Hg') as (entries' & Hd & Hm).
        exists entries'. split; [|done].
        rewrite lookup_insert_ne; [done|].
        intros <-. apply Hne. by apply (NoDup_lookup elements i (length done) el).
    + intros key Hkey. rewrite length_app in Hkey. cbn [length] in Hkey.
      replace (length done + 1) with (S (length done)) in Hkey by lia.
      rewrite (take_S_r _ _ el) in Hkey by done.
      apply not_elem_of_app in Hkey as [Hk1 Hk2].
      rewrite lookup_insert_ne; [by apply Hout|].
      intros <-. apply Hk2. by left.
  - exists d', p'. rewrite Hsplit. split; [|done].
    rewrite <- Hrun. f_equal.
    + f_equal. rewrite concat_app, length_app. cbn [concat].
      by rewrite app_nil_r.
    + rewrite length_app. cbn. replace (length done + 1) with (S (length done)) by lia.
      done.
Qed.

Lemma basis_loop elements (E C : list (list R)) gs :
  NoDup elements →
  length gs ≤ length elements →
  length E = length (concat gs) →
  length C = length (concat gs) →
  ∃ d p,
    foldM (basis_step elements (concat gs) E C) (∅, 0) (enumerate gs) = Ok (d, p) ∧
    basis_dict_inv elements gs d.
Proof.
  intros Hnd HG HE HC.
  by apply (basis_loop_from elements E C gs [] ∅).
Qed.
End BasisLoop.

(** ** Importing an exported structure *)

Lemma result_bind_Ok {A B : Type} (a : A) (f : A → result B) : (Ok a ≫= f) = f a.
Proof. reflexivity. Qed.

Lemma result_fmap_Ok {A B : Type} (a : A) (f : A → B) : f <$> Ok a = Ok (f a).
Proof. reflexivity. Qed.

Lemma filter_nonempty_all {A : Type} (qs : list (list A)) :
  Forall (fun q => q ≠ []) qs → filter (fun q => q ≠ []) qs = qs.
Proof.
  induction 1 as [|q qs Hq Hqs IH]; [done|].
  by rewrite filter_cons_True, IH.
Qed.

Lemma concat_filter_nonempty {A : Type} (qs : list (list A)) :
  concat (filter (fun q => q ≠ []) qs) = concat qs.
Proof.
  induction qs as [|q qs IH]; [done|]. destruct q as [|x q].
  - by rewrite filter_cons_False by (intros H; by apply H).
  - rewrite filter_cons_True by done. cbn. by rewrite IH.
Qed.

Lemma concat_ne_nil {A : Type} (qs : list (list A)) :
  qs ≠ [] → Forall (fun q => q ≠ []) qs → concat qs ≠ [].
Proof. intros Hne Hall. destruct Hall as [|[|x q] qs Hq Hqs]; done. Qed.

Section ImportStructure.
Context {R : Type} `{!Host R}.
Implicit Types (mol : Mole R) (tf : trexio_file R).


Lemma ang_nctr_build (inp : mole_input) mol' :
  Mole_build inp = Ok mol' →
  cart mol' = in_cart inp ∧
  ang_nctr mol'
  = concat (map (fun ec => map (fun e => (Z.to_nat e.1, 1))
                               (default [] (in__basis inp !! ec.1)))
                (in_atom inp)).
Proof.
  unfold Mole_build. destruct (Z.odd _); [done|].
  destruct (match in_symmetry inp with Some _ => _ | None => _ end); [done|].
  intros [= <-]. split; [done|]. unfold ang_nctr.
  rewrite <- (map_map snd (fun sh => (ANG_OF sh, NCTR_OF sh))).
  rewrite bas_shells_concat. cbn [_atom].
  induction (in_atom inp) as [|[el coord] atoms IH]; [done|].
  cbn [map concat atom_shells fst]. rewrite map_app, IH. f_equal.
  by rewrite map_map.
Qed.
End ImportStructure.

Section ImportStructure2.
Context {R : Type} `{!Host R}.
Implicit Types (mol : Mole R) (tf : trexio_file R).

Lemma has_attr_Some tf attr v : tf !! attr = Some v → has_attr attr tf = true.
Proof. intros H. unfold has_attr. apply bool_decide_eq_true_2. by eexists. Qed.

Lemma has_attr_None tf attr : tf !! attr = None → has_attr attr tf = false.
Proof.
  intros H. unfold has_attr. apply bool_decide_eq_false_2.
  rewrite H. by intros [? ?].
Qed.

Lemma length_elements_of mol : length (elements_of mol) = natm mol.
Proof. unfold elements_of, natm. by rewrite length_imap, length_map. Qed.

(** What the importer reads and regroups from a file holding [mol]. *)
Lemma read_mole_input_structure mol tf :
  holds_structure mol tf →
  _bas mol ≠ [] →
  Forall (fun b => bas_exp b.2 ≠ []) (_bas mol) →
  NoDup (elements_of mol) →
  ∃ inp,
    read_mole_input tf = Ok inp ∧
    in_cart inp = cart mol ∧
    in_atom inp = zip (elements_of mol) (map atom_coord (_atom mol)) ∧
    in_symmetry inp = (if symmetry mol then Some (groupname mol) else None) ∧
    basis_dict_inv (elements_of mol)
      (filter (fun g => g ≠ [])
              (map (fun a => map (fun sh => Z.of_nat (ANG_OF sh)) (atom_shells a))
                   (_atom mol)))
      (in__basis inp).
Proof.
  intros Hs Hbas Hprim Hnd. destruct Hs.
  set (pieces := map (fun a => map (fun sh => Z.of_nat (ANG_OF sh)) (atom_shells a))
                     (_atom mol)).
  set (gs := filter (fun g => g ≠ []) pieces).
  (* the three regroupings *)
  assert (Hls : map (fun b => Z.of_nat (ANG_OF b.2)) (_bas mol) = concat pieces).
  { rewrite <- (map_map snd (fun sh => Z.of_nat (ANG_OF sh))), bas_shells_concat.
    subst pieces. by rewrite concat_map, map_map. }
  assert (Hnuc : map (fun b => Z.of_nat b.1) (_bas mol) = run_keys 0 (map length pieces)).
  { rewrite bas_nucleus_index_run_keys. f_equal. subst pieces.
    rewrite map_map. apply map_ext. intros a. by rewrite length_map. }
  assert (Hlsne : concat pieces ≠ []).
  { rewrite <- Hls. by apply map_ne_nil. }
  assert (Hgroups : _group_by (concat pieces) (run_keys 0 (map length pieces)) = Ok gs)
    by (by apply _group_by_run_keys).
  set (qs := map (fun b : nat * shell R => bas_exp b.2) (_bas mol)).
  assert (Hqs : Forall (fun q => q ≠ []) qs).
  { subst qs. apply Forall_forall. intros q (b & <- & Hb)%list_elem_of_In%in_map_iff.
    apply (proj1 (Forall_forall _ _) Hprim). by apply list_elem_of_In. }
  assert (Hp2s : concat (map (fun ib => replicate (NPRIM_OF ib.2.2) (Z.of_nat ib.1))
                             (enumerate (_bas mol)))
                 = run_keys 0 (map length qs)).
  { rewrite prim2sh_run_keys. f_equal. subst qs. by rewrite map_map. }
  assert (Hexps : _group_by (concat qs) (run_keys 0 (map length qs)) = Ok qs).
  { rewrite _group_by_run_keys; [by rewrite filter_nonempty_all|].
    apply concat_ne_nil; [by apply map_ne_nil | done]. }
  pose proof (run_keys_Sorted 0 (map length qs)) as Hsorted.
  set (coef := concat (map (fun b : nat * shell R => concat (bas_ctr_coeff b.2)) (_bas mol))).
  pose proof (_group_by_Sorted coef _ Hsorted) as Hcoef.
  pose proof (_group_by_Sorted (concat qs) _ Hsorted) as Hexps'.
  rewrite Hexps in Hexps'. injection Hexps' as Hexps'.
  set (cuts := tail (unique_mask None _)) in *.
  assert (Hlen_coef : length (np_split coef cuts) = length qs).
  { rewrite length_np_split. pose proof (f_equal length Hexps') as Hl.
    rewrite length_np_split in Hl. by rewrite Hl. }
  assert (Hlen_ls : length (concat gs) = length qs).
  { subst gs. rewrite concat_filter_nonempty, <- Hls. subst qs.
    by rewrite !length_map. }
  (* the dictionary loop *)
  destruct (basis_loop (elements_of mol) qs (np_split coef cuts) gs)
    as (d & p & Hloop & Hinv).
  { done. }
  { subst gs pieces. rewrite length_elements_of. unfold natm.
    etrans; [apply length_filter|]. by rewrite length_map. }
  { done. }
  { by rewrite Hlen_coef. }
  (* run the reader *)
  unfold read_mole_input, read_str, read_strs, read_matrix, read_int, read_ints,
    read_reals.
  rewrite hs_basis_type0, result_bind_Ok. cbn [String.eqb Ascii.eqb Bool.eqb negb andb].
  rewrite hs_no_ecp0, hs_label0, result_bind_Ok, hs_coord0, result_bind_Ok.
  rewrite (has_attr_Some _ _ _ hs_cart0), hs_cart0, !result_bind_Ok.
  rewrite hs_nucleus_index0, hs_ang_mom0, hs_shell_index0, hs_exponent0,
    hs_coefficient0.
  fold (elements_of mol).
  subst gs. rewrite concat_filter_nonempty in Hloop.
  assert (Hsym : (if has_attr "nucleus_point_group" tf
            then Some <$> match tf !! "nucleus_point_group" with
                          | Some (VStr s) => Ok s
                          | _ => Raise (TrexioError "nucleus_point_group")
                          end
            else Ok None)
           = Ok (if symmetry mol then Some (groupname mol) else None)).
  { destruct (symmetry mol).
    - by rewrite (has_attr_Some _ _ _ hs_point_group0), hs_point_group0.
    - by rewrite (has_attr_None _ _ hs_point_group0). }
  rewrite Hsym.
  repeat (rewrite result_bind_Ok; cbv beta).
  fold qs. fold coef. rewrite Hp2s, Hls, Hnuc, Hexps, Hcoef, Hgroups.
  repeat (rewrite result_bind_Ok; cbv beta).
  fold cuts. rewrite Hloop, result_bind_Ok.
  eexists. split; [reflexivity|]. cbn. split_and!; [by destruct (cart mol)|done..].
Qed.
End ImportStructure2.

Section ImportStructure3.
Context {R : Type} `{!Host R}.
Implicit Types (mol : Mole R) (tf : trexio_file R).

Lemma concat_replicate_nil {A : Type} (n : nat) :
  concat (replicate n (@nil A)) = [].
Proof. induction n as [|n IH]; [done|]. done. Qed.

(** The groups found under the keys of the nuclei, in order: the
    non-empty groups first, nothing for the remaining nuclei. *)
Lemma basis_dict_groups (elements : list string) (gs : list (list Z))
    (d : gmap string (list (basis_entry (R := R)))) :
  NoDup elements → length gs ≤ length elements →
  basis_dict_inv elements gs d →
  map (fun el => map fst (default [] (d !! el))) elements
  = gs ++ replicate (length elements - length gs) [].
Proof.
  intros Hnd HG [Hin Hout]. apply list_eq. intros i.
  change (map ?f ?x) with (f <$> x). rewrite list_lookup_fmap.
  destruct (decide (i < length elements)) as [Hi|Hi].
  - destruct (lookup_lt_is_Some_2 elements i Hi) as [el Hel]. rewrite Hel. cbn.
    destruct (decide (i < length gs)) as [Hg|Hg].
    + destruct (lookup_lt_is_Some_2 gs i Hg) as [g Hgi].
      rewrite lookup_app_l, Hgi by done.
      destruct (Hin i el g Hel Hgi) as (entries & -> & <-). done.
    + rewrite lookup_app_r by lia.
      rewrite lookup_replicate_2 by lia.
      rewrite Hout; [done|].
      intros [i' Hi']%list_elem_of_lookup.
      pose proof (lookup_lt_Some _ _ _ Hi') as Hlt. rewrite length_take in Hlt.
      rewrite lookup_take_lt in Hi' by lia.
      pose proof (NoDup_lookup _ _ _ _ Hnd Hi' Hel). lia.
  - rewrite !lookup_ge_None_2; [done| |lia].
    rewrite length_app, length_replicate. lia.
Qed.

(** Importing a file that holds an exported structure rebuilds a structure
    with the same orbital kind and the same shells, as far as the orbital
    ordering is concerned. *)
Lemma mol_from_trexio_structure mol tf :
  holds_structure mol tf →
  _bas mol ≠ [] →
  Forall (fun b => NCTR_OF b.2 = 1) (_bas mol) →
  Forall (fun b => bas_exp b.2 ≠ []) (_bas mol) →
  NoDup (elements_of mol) →
  Z.odd (nelectron_of (elements_of mol)) = false →
  (symmetry mol = true →
   check_symm (groupname mol)
              (zip (elements_of mol) (map atom_coord (_atom mol))) = true) →
  ∃ mol', mol_from_trexio tf = Ok mol' ∧
          cart mol' = cart mol ∧ ang_nctr mol' = ang_nctr mol.
Proof.
  intros Hs Hbas Hnctr Hprim Hnd Hodd Hpg.
  destruct (read_mole_input_structure mol tf Hs Hbas Hprim Hnd)
    as (inp & Hread & Hcart & Hatom & Hsym & Hinv).
  assert (Hlen : length (elements_of mol) = length (map atom_coord (_atom mol)))
    by (by rewrite length_elements_of, length_map).
  assert (Hfst : map fst (in_atom inp) = elements_of mol).
  { rewrite Hatom. change (map fst ?x) with (fst <$> x). apply fst_zip. lia. }
  unfold mol_from_trexio. rewrite Hread, result_bind_Ok.
  destruct (Mole_build inp) as [mol'|e] eqn:Hbuild.
  2:{ unfold Mole_build in Hbuild. rewrite Hfst, Hodd, Hsym, Hatom in Hbuild.
      destruct (symmetry mol); [|done]. by rewrite Hpg in Hbuild. }
  exists mol'. destruct (ang_nctr_build inp mol' Hbuild) as [Hc Han].
  split_and!; [done|congruence|].
  rewrite Han.
  set (k := fun z : Z => (Z.to_nat z, 1)).
  set (pieces := map (fun a => map (fun sh => Z.of_nat (ANG_OF sh)) (atom_shells a))
                     (_atom mol)) in *.
  set (gs := filter (fun g => g ≠ []) pieces) in *.
  assert (HG : length gs ≤ length (elements_of mol)).
  { subst gs pieces. rewrite length_elements_of. unfold natm.
    etrans; [apply length_filter|]. by rewrite length_map. }
  transitivity (concat (map (map k)
                  (map (fun el => map fst (default [] (in__basis inp !! el)))
                       (map fst (in_atom inp))))).
  { rewrite !map_map. f_equal. apply map_ext. intros [el coord]. cbn [fst].
    by rewrite map_map. }
  rewrite Hfst, (basis_dict_groups _ gs) by done.
  rewrite map_app, concat_app.
  change (map (map k) (replicate ?n [])) with (map k <$> replicate n (@nil Z)).
  rewrite fmap_replicate. cbn [map]. rewrite concat_replicate_nil, app_nil_r.
  rewrite <- concat_map. subst gs. rewrite concat_filter_nonempty. subst pieces.
  unfold ang_nctr. rewrite <- (map_map snd (fun sh => (ANG_OF sh, NCTR_OF sh))).
  rewrite bas_shells_concat.
  assert (Hn : Forall (fun sh : shell R => NCTR_OF sh = 1)
                 (concat (map atom_shells (_atom mol)))).
  { rewrite <- bas_shells_concat. apply Forall_forall.
    intros sh (b & <- & Hb)%list_elem_of_In%in_map_iff.
    apply (proj1 (Forall_forall _ _) Hnctr). by apply list_elem_of_In. }
  rewrite <- (map_map (fun a => atom_shells a) (map (fun sh => Z.of_nat (ANG_OF sh)))).
  rewrite <- concat_map, map_map.
  apply map_ext_in. intros sh Hsh%list_elem_of_In.
  pose proof (proj1 (Forall_forall _ _) Hn sh Hsh) as Hone. cbn in Hone.
  subst k. cbn. by rewrite Nat2Z.id, Hone.
Qed.
End ImportStructure3.

(** ** The ordering depends on the orbital kind and the shell list only *)

Section OrderExt.
Context {R1 R2 : Type}.

Lemma shell_columns_ang_nctr {R : Type} (mol : Mole R) :
  shell_columns mol = flat_map (fun ln => replicate ln.2 ln.1) (ang_nctr mol).
Proof.
  unfold shell_columns, ang_nctr.
  induction (_bas mol) as [|b bas IH]; [done|]. cbn. by rewrite IH.
Qed.

Lemma nao_ang_nctr {R : Type} (mol : Mole R) :
  nao mol =
  if cart mol
  then sum_list (map (fun ln => (((ln.1 + 1) * (ln.1 + 2)) `div` 2) * ln.2) (ang_nctr mol))
  else sum_list (map (fun ln => (2 * ln.1 + 1) * ln.2) (ang_nctr mol)).
Proof.
  unfold nao, nao_cart, nao_nr, ang_nctr. rewrite !map_map.
  destruct (cart mol); f_equal; apply map_ext; by intros [ia sh].
Qed.

Lemma _order_ao_index_ext (mol1 : Mole R1) (mol2 : Mole R2) :
  cart mol1 = cart mol2 → ang_nctr mol1 = ang_nctr mol2 →
  nao mol1 = nao mol2 ∧ _order_ao_index mol1 = _order_ao_index mol2.
Proof.
  intros Hc Han.
  assert (Hnao : nao mol1 = nao mol2) by (by rewrite !nao_ang_nctr, Hc, Han).
  split; [done|].
  unfold _order_ao_index. rewrite Hc, Hnao. destruct (cart mol2); [done|].
  assert (Hangs : map (fun b => ANG_OF b.2) (_bas mol1)
                  = map (fun b => ANG_OF b.2) (_bas mol2)).
  { transitivity (map fst (ang_nctr mol1)); [by unfold ang_nctr; rewrite map_map|].
    rewrite Han. unfold ang_nctr. by rewrite map_map. }
  rewrite Hangs. destruct (map _ (_bas mol2)) eqn:Hm; [done|]. rewrite <- Hm.
  rewrite !order_loops_columns.
  fold (shell_columns mol1). fold (shell_columns mol2).
  by rewrite !shell_columns_ang_nctr, Han.
Qed.
End OrderExt.

(** ** Looking up attributes after a series of writes *)

Section Writes.
Context {R : Type}.
Implicit Types (tf : trexio_file R) (ws : list (string * value R)).


Lemma lookup_apply_writes ws tf k :
  apply_writes ws tf !! k =
  match find (fun kv => String.eqb kv.1 k) ws with
  | Some kv => Some kv.2
  | None => tf !! k
  end.
Proof.
  induction ws as [|[k' v] ws IH]; [done|]. cbn [apply_writes foldr find fst snd].
  destruct (String.eqb_spec k' k) as [->|Hne].
  - by rewrite lookup_insert_eq.
  - rewrite lookup_insert_ne by done. apply IH.
Qed.
End Writes.

Ltac reify_writes t :=
  lazymatch t with
  | insert ?k ?v ?m =>
      let r := reify_writes m in
      lazymatch r with
      | (?ws, ?base) => constr:(((k, v) :: ws, base))
      end
  | _ =>
      lazymatch type of t with
      | gmap string ?V => constr:((@nil (string * V), t))
      end
  end.

Ltac lookup_writes :=
  lazymatch goal with
  | |- ?m !! ?k = _ =>
      let r := reify_writes m in
      lazymatch r with
      | (?ws, ?base) =>
          change m with (apply_writes ws base);
          rewrite lookup_apply_writes;
          cbn [find fst snd String.eqb Ascii.eqb Bool.eqb];
          try reflexivity
      end
  end.

(** ** The file written for a structure and a restricted wavefunction *)

Section ExportFile.
Context {R : Type} `{!Host R}.
Implicit Types (mol : Mole R) (tf : trexio_file R).

Lemma write_ecp_group_within_no_ecp mol :
  _ecp mol = ∅ → writes_within mol_attrs (write_ecp_group mol).
Proof.
  intros He. unfold write_ecp_group. rewrite He.
  rewrite bool_decide_eq_true_2 by done. writes_within_tac.
Qed.

(** Without an ECP table the exporter touches structure attributes only. *)
Lemma _mol_to_trexio_within_no_ecp mol :
  _ecp mol = ∅ → writes_within mol_attrs (_mol_to_trexio mol).
Proof.
  intros He. unfold _mol_to_trexio.
  apply writes_within_bind; [exact write_metadata_within | intros _].
  apply writes_within_bind; [exact (write_nucleus_within mol) | intros _].
  apply writes_within_bind; [exact (write_pbc_within mol) | intros _].
  apply writes_within_bind; [exact (write_electron_within mol) | intros _].
  apply writes_within_bind; [exact (write_basis_within mol) | intros _].
  apply writes_within_bind; [exact (write_ecp_group_within_no_ecp mol He) | intros _].
  exact (write_ao_within mol).
Qed.

(** The values of the attributes the importer reads, after a successful
    export of a structure without ECP table. *)
Lemma _mol_to_trexio_values mol tf tf' :
  _ecp mol = ∅ →
  _mol_to_trexio mol tf = (Ok tt, tf') →
  tf' !! "basis_type" = Some (VStr "Gaussian") ∧
  tf' !! "nucleus_label" = Some (VStrs (map atom_pure_symbol (_atom mol))) ∧
  tf' !! "nucleus_coord" = Some (VMatrix (map atom_coord (_atom mol))) ∧
  tf' !! "ao_cartesian" = Some (VInt (if cart mol then 1 else 0)) ∧
  tf' !! "nucleus_point_group"
    = (if symmetry mol then Some (VStr (groupname mol))
       else tf !! "nucleus_point_group") ∧
  tf' !! "basis_nucleus_index"
    = Some (VInts (map (fun b => Z.of_nat b.1) (_bas mol))) ∧
  tf' !! "basis_shell_ang_mom"
    = Some (VInts (map (fun b => Z.of_nat (ANG_OF b.2)) (_bas mol))) ∧
  tf' !! "basis_shell_index"
    = Some (VInts (concat (map (fun ib => replicate (NPRIM_OF ib.2.2) (Z.of_nat ib.1))
                               (enumerate (_bas mol))))) ∧
  tf' !! "basis_exponent"
    = Some (VReals (concat (map (fun b => bas_exp b.2) (_bas mol)))) ∧
  tf' !! "basis_coefficient"
    = Some (VReals (concat (map (fun b => concat (bas_ctr_coeff b.2)) (_bas mol)))) ∧
  tf' !! "ao_num" = Some (VInt (Z.of_nat (nao mol))).
Proof.
  intros He Hrun.
  pose proof (_mol_to_trexio_outcome mol tf) as Hout. rewrite Hrun in Hout.
  cbn [fst] in Hout. unfold mol_outcome in Hout.
  destruct (bool_decide (_bas mol = [])) eqn:Hbas; [done|].
  apply bool_decide_eq_false in Hbas.
  destruct (forallb _ (_bas mol)) eqn:Hn; [|done]. cbn [negb] in Hout.
  destruct (bool_decide (0 < size (_pseudo mol))) eqn:Hp; [done|]. clear Hout.
  revert Hrun.
  unfold _mol_to_trexio, write_metadata, write_nucleus, write_pbc,
    write_electron, write_basis, write_ecp_group, write_ao.
  rewrite !np_hstack_ne by auto using map_ne_nil, enumerate_ne_nil.
  rewrite Hn, Hp, He. rewrite bool_decide_eq_true_2 by done.
  destruct (symmetry mol), (lattice mol) as [[[a b] c]|];
    tio_simpl; cbn [negb]; intros Hrun; apply (f_equal snd) in Hrun;
    cbn [snd] in Hrun; subst tf'; split_and!; lookup_writes.
Qed.
End ExportFile.

(** ** The orbital group of a restricted wavefunction *)

Section ExportOrbitals.
Context {R : Type} `{!Host R}.
Implicit Types (mol : Mole R) (tf : trexio_file R).

Lemma write_mo_within (mf : SCF R) : writes_within mo_attrs (write_mo mf).
Proof.
  unfold write_mo, mo_attrs.
  apply writes_within_bind.
  - destruct mf as [mol kpt me mc mo|mol kpt me mc mo]; writes_within_tac.
  - intros [[[[me' m'] mo'] spin] ty]. writes_within_tac.
Qed.

(** A completed run of the orbital part on a restricted wavefunction: the
    ordering was computed, the rows were gathered, and the file holds the
    orbital count, the flattened transposed coefficients, the energies and
    the occupations. *)
Lemma write_mo_RHF mol kpt me mc mo tf tf1 :
  write_mo (RHF mol kpt me mc mo) tf = (Ok tt, tf1) →
  ∃ idx P,
    _order_ao_index mol = Ok idx ∧ np_take mc idx = Ok P ∧
    tf1 !! "mo_num" = Some (VInt (Z.of_nat (length me))) ∧
    tf1 !! "mo_coefficient" = Some (VReals (concat (np_T P))) ∧
    tf1 !! "mo_energy" = Some (VReals me) ∧
    tf1 !! "mo_occupation" = Some (VReals mo).
Proof.
  unfold write_mo. cbn [scf_mol]. tio_simpl.
  destruct (_order_ao_index mol) as [idx|e] eqn:Hidx; [|done].
  cbn [arr_take]. destruct (np_take mc idx) as [P|e] eqn:HP; [|done].
  cbn. intros Hrun. apply (f_equal snd) in Hrun. cbn [snd] in Hrun. subst tf1.
  exists idx, P. split_and!; [done|done|lookup_writes..].
Qed.

Lemma nao_pos mol :
  _bas mol ≠ [] → Forall (fun b => NCTR_OF b.2 = 1) (_bas mol) → 0 < nao mol.
Proof.
  unfold nao, nao_cart, nao_nr. intros Hne Hall.
  destruct Hall as [|[ia sh] bas Hsh _]; [done|]. cbn in Hsh.
  destruct (cart mol); cbn [map sum_list sum_list_with]; rewrite Hsh; unfold id.
  - assert (1 ≤ ((ANG_OF sh + 1) * (ANG_OF sh + 2)) `div` 2); [|lia].
    apply Nat.div_le_lower_bound; lia.
  - lia.
Qed.

Lemma has_ecp_agree tf tf' :
  (∀ k, k ∈ ecp_attrs → tf' !! k = tf !! k) → has_ecp tf' = has_ecp tf.
Proof.
  unfold has_ecp, has_attr. generalize (ecp_attrs).
  intros l Hag. induction l as [|a l IH]; [done|]. cbn [existsb].
  rewrite (Hag a) by left. rewrite IH; [done|].
  intros k Hk. apply Hag. by right.
Qed.
End ExportOrbitals.

(** ** Export of a restricted wavefunction followed by import *)

Section RoundTrip.
Context {R : Type} `{!Host R}.
Implicit Types (mol : Mole R) (tf : trexio_file R).

Lemma _mol_to_trexio_Ok_inv mol tf tf' :
  _mol_to_trexio mol tf = (Ok tt, tf') →
  _bas mol ≠ [] ∧ Forall (fun b => NCTR_OF b.2 = 1) (_bas mol).
Proof.
  intros Hrun.
  pose proof (_mol_to_trexio_outcome mol tf) as Hout. rewrite Hrun in Hout.
  cbn [fst] in Hout. unfold mol_outcome in Hout.
  destruct (bool_decide (_bas mol = [])) eqn:Hbas; [done|].
  apply bool_decide_eq_false in Hbas.
  destruct (forallb _ (_bas mol)) eqn:Hn; [|done].
  split; [done|]. apply Forall_forall. intros b Hb%list_elem_of_In.
  apply (proj1 (forallb_forall _ _) Hn) in Hb. by apply Nat.eqb_eq.
Qed.

(** What the file holds after a completed export of a restricted
    wavefunction without ECP table. *)
Lemma rhf_export_file mol kpt me mc mo tf0 tf1 :
  _ecp mol = ∅ →
  has_ecp tf0 = false →
  tf0 !! "nucleus_point_group" = None →
  to_trexio (ObjSCF (RHF mol kpt me mc mo)) tf0 = (Ok tt, tf1) →
  holds_structure mol tf1 ∧
  _bas mol ≠ [] ∧ Forall (fun b => NCTR_OF b.2 = 1) (_bas mol) ∧
  tf1 !! "ao_num" = Some (VInt (Z.of_nat (nao mol))) ∧
  ∃ idx P,
    _order_ao_index mol = Ok idx ∧ np_take mc idx = Ok P ∧
    tf1 !! "mo_num" = Some (VInt (Z.of_nat (length me))) ∧
    tf1 !! "mo_coefficient" = Some (VReals (concat (np_T P))) ∧
    tf1 !! "mo_energy" = Some (VReals me) ∧
    tf1 !! "mo_occupation" = Some (VReals mo).
Proof.
  intros He Hnoecp Hpg Hrun. cbn [to_trexio] in Hrun.
  rewrite _scf_to_trexio_parts in Hrun.
  destruct (scf_structure_part (RHF mol kpt me mc mo) tf0) as [[[]|e] tf2] eqn:Hpart;
    [|done].
  unfold scf_structure_part in Hpart. cbn [scf_mol scf_kpt] in Hpart.
  rewrite tio_bind_run in Hpart.
  destruct (_mol_to_trexio mol tf0) as [[[]|e] tfm] eqn:Hmol; [|done].
  (* the later parts leave the structure attributes alone *)
  assert (Hk : ∀ k, k ∉ kpoint_attrs → tf2 !! k = tfm !! k).
  { intros k Hk. destruct (lattice mol) as [a|].
    - pose proof (write_kpoint_within a kpt tfm k Hk) as Hf.
      by rewrite Hpart in Hf.
    - by injection Hpart as <-. }
  assert (Hm : ∀ k, k ∉ mo_attrs → tf1 !! k = tf2 !! k).
  { intros k Hk'. pose proof (write_mo_within (RHF mol kpt me mc mo) tf2 k Hk') as Hf.
    by rewrite Hrun in Hf. }
  assert (Hfr : ∀ k, bool_decide (k ∉ kpoint_attrs ++ mo_attrs) = true →
                     tf1 !! k = tfm !! k).
  { intros k Hk'%bool_decide_eq_true. rewrite not_elem_of_app in Hk'.
    destruct Hk' as [H1 H2]. by rewrite Hm, Hk. }
  destruct (_mol_to_trexio_Ok_inv mol tf0 tfm Hmol) as [Hbas Hnctr].
  destruct (_mol_to_trexio_values mol tf0 tfm He Hmol)
    as (V1 & V2 & V3 & V4 & V5 & V6 & V7 & V8 & V9 & V10 & V11).
  split_and!; [|done|done| |by apply (write_mo_RHF mol kpt me mc mo tf2)].
  - split.
    + by rewrite Hfr.
    + rewrite <- Hnoecp. apply has_ecp_agree. intros k Hin.
      assert (k ∉ kpoint_attrs ++ mo_attrs) as Hout.
      { revert k Hin. apply Forall_forall, (bool_decide_unpack _). by vm_compute. }
      assert (k ∉ mol_attrs) as Hnm
        by (by apply (proj1 (Forall_forall _ _) ecp_attrs_not_mol_attrs)).
      rewrite Hfr by (by apply bool_decide_eq_true).
      pose proof (_mol_to_trexio_within_no_ecp mol He tf0 k Hnm) as Hf.
      by rewrite Hmol in Hf.
    + by rewrite Hfr.
    + by rewrite Hfr.
    + by rewrite Hfr.
    + rewrite Hfr, V5 by done. by rewrite Hpg.
    + by rewrite Hfr.
    + by rewrite Hfr.
    + by rewrite Hfr.
    + by rewrite Hfr.
    + by rewrite Hfr.
  - by rewrite Hfr.
Qed.

(** Importing a file that holds the structure and the orbital group of a
    square restricted wavefunction gives the wavefunction's energies,
    coefficients and occupations back. *)
Lemma scf_from_trexio_holds mol me mc mo tf1 idx P (uninit : nat → nat → R) :
  holds_structure mol tf1 →
  _bas mol ≠ [] → Forall (fun b => NCTR_OF b.2 = 1) (_bas mol) →
  Forall (fun b => bas_exp b.2 ≠ []) (_bas mol) →
  NoDup (elements_of mol) →
  Z.odd (nelectron_of (elements_of mol)) = false →
  (symmetry mol = true →
   check_symm (groupname mol)
              (zip (elements_of mol) (map atom_coord (_atom mol))) = true) →
  shaped (nao mol) (nao mol) mc → length me = nao mol →
  _order_ao_index mol = Ok idx → np_take mc idx = Ok P →
  tf1 !! "ao_num" = Some (VInt (Z.of_nat (nao mol))) →
  tf1 !! "mo_num" = Some (VInt (Z.of_nat (length me))) →
  tf1 !! "mo_coefficient" = Some (VReals (concat (np_T P))) →
  tf1 !! "mo_energy" = Some (VReals me) →
  tf1 !! "mo_occupation" = Some (VReals mo) →
  ∃ mol', scf_from_trexio uninit tf1 = Ok (RHF mol' [] me mc mo) ∧
          cart mol' = cart mol ∧ ang_nctr mol' = ang_nctr mol.
Proof.
  intros Hs Hbas Hnctr Hprim Hnd Hodd Hpg Hsq Hlen Hidx HP Hao Hnum Hco Hen Hocc.
  destruct (mol_from_trexio_structure mol tf1 Hs Hbas Hnctr Hprim Hnd Hodd Hpg)
    as (mol' & Hmol' & Hcart & Hang).
  destruct (_order_ao_index_ext mol' mol Hcart Hang) as [Hnao Hord].
  pose proof (nao_pos mol Hbas Hnctr) as Hpos.
  pose proof (_order_ao_index_Permutation mol idx Hidx) as Hperm.
  destruct (mo_coefficient_roundtrip mc idx (nao mol) uninit Hsq Hpos Hperm)
    as (P' & HP' & HlenP & Hput).
  rewrite HP in HP'. injection HP' as <-.
  exists mol'. split; [|done].
  unfold scf_from_trexio, read_mo_coefficient, read_reals, read_int.
  rewrite Hmol', Hen, Hnum, Hao, Hco, Hocc.
  repeat (rewrite result_bind_Ok; cbv beta).
  rewrite !Nat2Z.id, Hlen, HlenP, Nat.eqb_refl.
  rewrite result_bind_Ok. cbv beta iota.
  rewrite Hnao, Nat.eqb_refl. cbn [andb negb].
  rewrite Hord, Hidx. repeat (rewrite result_bind_Ok; cbv beta).
  by rewrite Hput, result_bind_Ok.
Qed.
End RoundTrip.

Lemma tio_run_snd {R A : Type} (m : tio R A) (tf : trexio_file R) (a : A) :
  (m tf).1 = Ok a → m tf = (Ok a, (m tf).2).
Proof. destruct (m tf) as [r tf']. cbn. by intros ->. Qed.

(** C1, amended: for every restricted wavefunction on a structure without
    ECP table whose coefficient matrix is square ([nao] rows, [nao] columns,
    [nao] orbital energies), whenever [to_trexio] completes on a file that
    held no ECP group and no point group, [scf_from_trexio] on the written
    file returns a wavefunction with the original coefficient matrix (and the
    original energies and occupations), for Cartesian and for spherical
    functions alike, and the structure is rebuilt with the same orbital kind
    and the same shell list, provided that
    - every shell has at least one primitive,
    - the keys [label + str(i)] under which the importer files the nuclei
      are pairwise distinct,
    - the nuclear charges of the relabelled nuclei sum to an even number
      (the importer sets neither charge nor spin, so [Mole.build] takes the
      structure as neutral and closed-shell), and
    - when a point group was exported, [Mole.build] finds it in the
      relabelled nuclei. *)
Theorem rhf_roundtrip_mo_coeff {R : Type} `{!Host R} (mol : Mole R) (kpt : list R)
    (mo_energy : list R) (mo_coeff : list (list R)) (mo_occ : list R)
    (tf0 tf1 : trexio_file R) (uninit : nat → nat → R) :
  _ecp mol = ∅ →
  has_ecp tf0 = false →
  tf0 !! "nucleus_point_group" = None →
  Forall (fun b => bas_exp b.2 ≠ []) (_bas mol) →
  NoDup (elements_of mol) →
  Z.odd (nelectron_of (elements_of mol)) = false →
  (symmetry mol = true →
   check_symm (groupname mol)
              (zip (elements_of mol) (map atom_coord (_atom mol))) = true) →
  shaped (nao mol) (nao mol) mo_coeff →
  length mo_energy = nao mol →
  to_trexio (ObjSCF (RHF mol kpt mo_energy mo_coeff mo_occ)) tf0 = (Ok tt, tf1) →
  ∃ mol',
    scf_from_trexio uninit tf1 = Ok (RHF mol' [] mo_energy mo_coeff mo_occ) ∧
    cart mol' = cart mol ∧ ang_nctr mol' = ang_nctr mol.
Proof.
  intros He Hnoecp Hpg Hprim Hnd Hodd Hsym Hsq Hlen Hrun.
  destruct (rhf_export_file mol kpt mo_energy mo_coeff mo_occ tf0 tf1
              He Hnoecp Hpg Hrun)
    as (Hs & Hbas & Hnctr & Hao & idx & P & Hidx & HP & Hnum & Hco & Hen & Hocc).
  by apply (scf_from_trexio_holds mol mo_energy mo_coeff mo_occ tf1 idx P).
Qed.

Lemma rhf_roundtrip_mo_coeff_witness :
  ∃ mol',
    scf_from_trexio (fun _ _ => 0%Z) (to_trexio (ObjSCF he_sp_rhf) ∅).2
    = Ok (RHF mol' [] [(-9)%Z; (-1)%Z; 3%Z; 8%Z]
              [[11%Z; 12%Z; 13%Z; 14%Z]; [21%Z; 22%Z; 23%Z; 24%Z];
               [31%Z; 32%Z; 33%Z; 34%Z]; [41%Z; 42%Z; 43%Z; 44%Z]]
              [2%Z; 0%Z; 0%Z; 0%Z]) ∧
    cart mol' = false ∧ ang_nctr mol' = [(0, 1); (1, 1)].
Proof.
  apply (rhf_roundtrip_mo_coeff he_sp_mol [] [(-9)%Z; (-1)%Z; 3%Z; 8%Z]
           [[11%Z; 12%Z; 13%Z; 14%Z]; [21%Z; 22%Z; 23%Z; 24%Z];
            [31%Z; 32%Z; 33%Z; 34%Z]; [41%Z; 42%Z; 43%Z; 44%Z]]
           [2%Z; 0%Z; 0%Z; 0%Z] ∅).
  - reflexivity.
  - reflexivity.
  - reflexivity.
  - apply (bool_decide_unpack _). by vm_compute.
  - apply (bool_decide_unpack _). by vm_compute.
  - reflexivity.
  - intros [=].
  - apply (bool_decide_unpack _). by vm_compute.
  - reflexivity.
  - apply (tio_run_snd (to_trexio (ObjSCF he_sp_rhf)) ∅ tt).
    vm_compute. reflexivity.
Defined.

(** On the structure of the witness the orbitals are really reordered: the
    s function stays, the p functions go from (x, y, z) to (z, x, y), and
    the file holds the permuted, transposed coefficients. *)
Example he_sp_rhf_export :
  _order_ao_index he_sp_mol = Ok [0; 3; 1; 2] ∧
  (to_trexio (ObjSCF he_sp_rhf) ∅).2 !! "mo_coefficient"
  = Some (VReals [11; 41; 21; 31; 12; 42; 22; 32;
                  13; 43; 23; 33; 14; 44; 24; 34]%Z).
Proof. split; vm_compute; reflexivity. Qed.

(** What the preconditions on the rebuilt structure exclude.  The hydrogen
    helium cation has three electrons once it is taken as neutral: its export
    completes and the import raises in [Mole.build].  So does the import of
    a hydrogen molecule exported with the point group Dooh, which the two
    nuclei, now labelled H0 and H1, no longer have. *)
Example import_rejects_odd_electron_count :
  (to_trexio (ObjSCF heh_cation_rhf) ∅).1 = Ok tt ∧
  scf_from_trexio (fun _ _ => 0%Z) (to_trexio (ObjSCF heh_cation_rhf) ∅).2
  = Raise (RuntimeError electron_spin_msg).
Proof. split; vm_compute; reflexivity. Qed.

Example import_rejects_lost_point_group :
  (to_trexio (ObjSCF h2_dooh_rhf) ∅).1 = Ok tt ∧
  scf_from_trexio (fun _ _ => 0%Z) (to_trexio (ObjSCF h2_dooh_rhf) ∅).2
  = Raise (PointGroupSymmetryError point_group_msg).
Proof. split; vm_compute; reflexivity. Qed.

(** C1 as stated fails on a structure with a core potential: the export of
    the restricted wavefunction completes, and the import of the written file
    raises [NotImplementedError]. *)
Lemma rhf_ecp_roundtrip_counterexample :
  to_trexio (ObjSCF f2_ecp_rhf) ∅ = (Ok tt, f2_ecp_file) ∧
  shaped (nao f2_ecp_mol) (nao f2_ecp_mol) [[1%Z; 2%Z]; [3%Z; 4%Z]] ∧
  scf_from_trexio (fun _ _ => 0%Z) f2_ecp_file = Raise (NotImplementedError "").
Proof.
  split_and!.
  - apply (tio_run_snd (to_trexio (ObjSCF f2_ecp_rhf)) ∅ tt).
    vm_compute. reflexivity.
  - apply (bool_decide_unpack _). by vm_compute.
  - vm_compute. reflexivity.
Qed.


(** ** Frames of the structure exporter *)

Lemma _mol_to_trexio_within_attrs {R : Type} `{!Host R} (mol : Mole R)
    (tf : trexio_file R) (k : string) :
  k ∉ mol_attrs ++ ecp_attrs → (_mol_to_trexio mol tf).2 !! k = tf !! k.
Proof.
  revert tf k. change (writes_within (mol_attrs ++ ecp_attrs) (_mol_to_trexio mol)).
  assert (Hm : Forall (fun k => k ∈ mol_attrs ++ ecp_attrs) mol_attrs)
    by (apply (bool_decide_unpack _); by vm_compute).
  assert (He : Forall (fun k => k ∈ mol_attrs ++ ecp_attrs) ecp_attrs)
    by (apply (bool_decide_unpack _); by vm_compute).
  unfold _mol_to_trexio.
  apply writes_within_bind; [|intros _].
  { eapply writes_within_mono; [exact Hm | exact write_metadata_within]. }
  apply writes_within_bind; [|intros _].
  { eapply writes_within_mono; [exact Hm | exact (write_nucleus_within mol)]. }
  apply writes_within_bind; [|intros _].
  { eapply writes_within_mono; [exact Hm | exact (write_pbc_within mol)]. }
  apply writes_within_bind; [|intros _].
  { eapply writes_within_mono; [exact Hm | exact (write_electron_within mol)]. }
  apply writes_within_bind; [|intros _].
  { eapply writes_within_mono; [exact Hm | exact (write_basis_within mol)]. }
  apply writes_within_bind; [|intros _].
  { eapply writes_within_mono; [exact He | exact (write_ecp_group_within mol)]. }
  eapply writes_within_mono; [exact Hm | exact (write_ao_within mol)].
Qed.

(** * Further properties of the module *)

(** ** What [_order_ao_index] returns, and when it raises *)

(** [_order_ao_index] returns a rearrangement of [0 .. nao-1] whenever it
    returns, for Cartesian and for spherical functions; it raises exactly on
    a spherical structure without any contraction column, and then a
    [ValueError] (of [max] on an empty column, or of [np.hstack] on an empty
    list). *)
Theorem _order_ao_index_outcome {R : Type} (mol : Mole R) :
  match _order_ao_index mol with
  | Ok idx =>
      idx ≡ₚ seq 0 (nao mol) ∧ length idx = nao mol ∧
      (cart mol = false → shell_columns mol ≠ [])
  | Raise e =>
      cart mol = false ∧ shell_columns mol = [] ∧ ∃ msg, e = ValueError msg
  end.
Proof.
  destruct (_order_ao_index mol) as [idx|e] eqn:Hrun.
  - pose proof (_order_ao_index_Permutation mol idx Hrun) as Hperm.
    split_and!; [done|by rewrite Hperm, length_seq|].
    intros Hc Hcols. revert Hrun. unfold _order_ao_index. rewrite Hc.
    destruct (map _ (_bas mol)) eqn:Hangs; [done|]. rewrite <- Hangs.
    rewrite order_loops_columns. fold (shell_columns mol). by rewrite Hcols.
  - destruct (cart mol) eqn:Hc.
    { unfold _order_ao_index in Hrun. by rewrite Hc in Hrun. }
    destruct (decide (shell_columns mol = [])) as [Hcols|Hcols].
    + split_and!; [done..|]. revert Hrun. unfold _order_ao_index. rewrite Hc.
      destruct (map _ (_bas mol)) eqn:Hangs; [intros [= <-]; by eexists|].
      rewrite <- Hangs, order_loops_columns. fold (shell_columns mol).
      rewrite Hcols. cbn. intros [= <-]. by eexists.
    + by rewrite _order_ao_index_sph in Hrun.
Qed.

(** ** Which attributes an export touches *)

(** [to_trexio] changes no attribute outside the structure, ECP, k-point
    and orbital groups, whether it returns or raises: integrals stored in the
    same file stay as they are.  Exporting a structure alone leaves the
    k-point and orbital attributes alone as well. *)
Theorem to_trexio_frame {R : Type} `{!Host R} (obj : pyobject R)
    (tf : trexio_file R) (k : string) :
  k ∉ structure_attrs ++ mo_attrs →
  (to_trexio obj tf).2 !! k = tf !! k ∧
  ∀ mol attr, attr ∈ kpoint_attrs ++ mo_attrs →
              (to_trexio (ObjMole mol) tf).2 !! attr = tf !! attr.
Proof.
  intros Hk. apply not_elem_of_app in Hk as [Hs Hm]. split.
  - destruct obj as [mol|mf|cls]; cbn [to_trexio].
    + by apply _mol_to_trexio_within.
    + rewrite _scf_to_trexio_parts.
      pose proof (scf_structure_part_within mf tf k Hs) as H1.
      destruct (scf_structure_part mf tf) as [[[]|e] tf1]; cbn [snd] in *; [|done].
      rewrite <- H1. by apply write_mo_within.
    + done.
  - intros mol attr Hattr. cbn [to_trexio].
    apply _mol_to_trexio_within_attrs. revert attr Hattr.
    apply Forall_forall, (bool_decide_unpack _). by vm_compute.
Qed.

Lemma to_trexio_frame_witness :
  (to_trexio (ObjSCF (h2_rhf false)) {["mo_2e_int_eri" := VSparse [] []]}).2
    !! "mo_2e_int_eri"
  = ({["mo_2e_int_eri" := VSparse [] []]} : trexio_file Z) !! "mo_2e_int_eri" ∧
  ∀ mol attr, attr ∈ kpoint_attrs ++ mo_attrs →
              (to_trexio (ObjMole mol) {["mo_2e_int_eri" := VSparse [] []]}).2 !! attr
              = ({["mo_2e_int_eri" := VSparse [] []]} : trexio_file Z) !! attr.
Proof.
  apply (to_trexio_frame (ObjSCF (h2_rhf false))).
  apply (bool_decide_unpack _). by vm_compute.
Defined.

(** ** Integrals need the orbital count *)

(** [write_eri] changes the integral attribute only, and never writes the
    orbital count: on a file without [mo_num], [read_eri] raises after any
    [write_eri], whatever was written. *)
Theorem read_eri_needs_mo_num {R : Type} `{!Scalar R} (eri : eri_array R)
    (tf : trexio_file R) :
  tf !! "mo_num" = None →
  (∀ k, k ≠ "mo_2e_int_eri" → (write_eri eri tf).2 !! k = tf !! k) ∧
  read_eri (write_eri eri tf).2 = Raise (TrexioError "mo_num").
Proof.
  intros Hmo.
  assert (Hfr : ∀ k, k ≠ "mo_2e_int_eri" → (write_eri eri tf).2 !! k = tf !! k).
  { intros k Hk. unfold write_eri, write_mo_2e_int_eri. tio_simpl.
    destruct (eri_index (eri_shape eri)) as [idx|e]; [|done].
    destruct (length (eri_data eri) =? 0); [done|].
    destruct (has_attr "mo_2e_int_eri" tf); [done|].
    cbn [snd]. by apply lookup_insert_ne. }
  split; [done|]. unfold read_eri, read_int. by rewrite Hfr, Hmo.
Qed.

Lemma read_eri_needs_mo_num_witness :
  (∀ k, k ≠ "mo_2e_int_eri" →
        (write_eri {| eri_shape := [1]; eri_data := [7%Z] |} ∅).2 !! k
        = (∅ : trexio_file Z) !! k) ∧
  read_eri (write_eri {| eri_shape := [1]; eri_data := [7%Z] |} ∅).2
  = Raise (TrexioError "mo_num").
Proof.
  apply (read_eri_needs_mo_num {| eri_shape := [1]; eri_data := [7%Z] |} ∅).
  reflexivity.
Defined.

(** ** When the export of a structure completes *)





(** ** Wavefunctions of a periodic cell *)

(** For a wavefunction of a periodic cell whose structure part goes through,
    the export raises the unsupported-feature error when the scaled k-point
    is not the gamma point (complex wavefunction), and also when the host
    fails to scale it with a [ValueError] (twisted average); in both cases no
    k-point attribute and no orbital attribute is written. *)
Theorem non_gamma_kpoint_rejected {R : Type} `{!Host R} (mf : SCF R)
    (a : list R * list R * list R) (tf : trexio_file R) :
  lattice (scf_mol mf) = Some a →
  (_mol_to_trexio (scf_mol mf) tf).1 = Ok tt →
  match get_scaled_kpts a (scf_kpt mf) with
  | Ok kpt' => forallb is_zero kpt' = false
  | Raise e => ∃ msg, e = ValueError msg
  end →
  ∃ msg tf',
    to_trexio (ObjSCF mf) tf = (Raise (NotImplementedError msg), tf') ∧
    msg = match get_scaled_kpts a (scf_kpt mf) with
          | Ok _ => complex_wf_msg
          | Raise _ => twisted_msg
          end ∧
    ∀ attr, attr ∈ kpoint_attrs ++ mo_attrs → tf' !! attr = tf !! attr.
Proof.
  intros Hlat Hmol Hk. cbn [to_trexio]. unfold _scf_to_trexio.
  rewrite tio_bind_run.
  pose proof (_mol_to_trexio_within_attrs (scf_mol mf) tf) as Hfr.
  destruct (_mol_to_trexio (scf_mol mf) tf) as [[[]|e] tf1]; [|done].
  cbn [snd] in Hfr. rewrite Hlat, tio_bind_run. unfold write_kpoint.
  assert (Hout : ∀ attr, attr ∈ kpoint_attrs ++ mo_attrs → tf1 !! attr = tf !! attr).
  { intros attr Hattr. apply Hfr. revert attr Hattr.
    apply Forall_forall, (bool_decide_unpack _). by vm_compute. }
  destruct (get_scaled_kpts a (scf_kpt mf)) as [kpt'|e].
  - rewrite Hk. by exists complex_wf_msg, tf1.
  - destruct Hk as [m ->]. by exists twisted_msg, tf1.
Qed.

Lemma non_gamma_kpoint_rejected_witness :
  ∃ msg tf',
    to_trexio (ObjSCF (h2_cell_rhf [0%Z; 0%Z; 1%Z])) ∅
    = (Raise (NotImplementedError msg), tf') ∧
    msg = match get_scaled_kpts ([4%Z; 0%Z; 0%Z], [0%Z; 4%Z; 0%Z], [0%Z; 0%Z; 4%Z])
                                (scf_kpt (h2_cell_rhf [0%Z; 0%Z; 1%Z])) with
          | Ok _ => complex_wf_msg
          | Raise _ => twisted_msg
          end ∧
    ∀ attr, attr ∈ kpoint_attrs ++ mo_attrs →
            tf' !! attr = (∅ : trexio_file Z) !! attr.
Proof.
  apply (non_gamma_kpoint_rejected (h2_cell_rhf [0%Z; 0%Z; 1%Z])
           ([4%Z; 0%Z; 0%Z], [0%Z; 4%Z; 0%Z], [0%Z; 0%Z; 4%Z]) ∅).
  - reflexivity.
  - vm_compute. reflexivity.
  - reflexivity.
Defined.

(** ** The ECP loop *)

Section EcpArrays.
Context {R : Type} `{!Host R}.
Implicit Types (mol : Mole R) (acc : ecp_arrays R).

Lemma ecp_channel_terms_power (m : Z) (ch : ecp_channel R) :
  Forall (fun t => (-2 ≤ t.2)%Z) (ecp_channel_terms m ch).
Proof.
  unfold ecp_channel_terms. apply Forall_forall.
  intros t Ht%list_elem_of_In. apply in_flat_map in Ht as ([r l] & _ & Ht).
  apply in_map_iff in Ht as ([ex co] & <- & _). cbn. lia.
Qed.

Lemma ecp_terms_power (m : Z) (chs : list (ecp_channel R)) :
  Forall (fun p => (-2 ≤ p)%Z)
         (map (fun t : Z * R * R * Z => t.2) (flat_map (ecp_channel_terms m) chs)).
Proof.
  apply Forall_forall. intros p Hp%list_elem_of_In.
  apply in_map_iff in Hp as (t & <- & Ht). apply in_flat_map in Ht as (ch & _ & Ht).
  apply list_elem_of_In in Ht.
  by apply (proj1 (Forall_forall _ _) (ecp_channel_terms_power m ch)).
Qed.

Lemma ecp_dummy_term_consistent (k : nat) acc :
  length (ecp_nucleus_index acc) = ecp_num acc →
  length (ecp_ang_mom acc) = ecp_num acc →
  length (ecp_coefficient acc) = ecp_num acc →
  length (ecp_exponent acc) = ecp_num acc →
  length (ecp_power acc) = ecp_num acc →
  Forall (fun i => i < S k) (ecp_nucleus_index acc) →
  Forall (fun p => (-2 ≤ p)%Z) (ecp_power acc) →
  let acc' := ecp_dummy_term k acc in
  length (ecp_nucleus_index acc') = ecp_num acc' ∧
  length (ecp_ang_mom acc') = ecp_num acc' ∧
  length (ecp_coefficient acc') = ecp_num acc' ∧
  length (ecp_exponent acc') = ecp_num acc' ∧
  length (ecp_power acc') = ecp_num acc' ∧
  Forall (fun i => i < S k) (ecp_nucleus_index acc') ∧
  Forall (fun p => (-2 ≤ p)%Z) (ecp_power acc').
Proof.
  intros H1 H2 H3 H4 H5 H6 H7. cbn. rewrite !length_app. cbn [length].
  split_and!; try lia.
  - apply Forall_app. split; [done|]. repeat constructor.
  - apply Forall_app. split; [done|]. by repeat constructor.
Qed.

(** One pass of the loop keeps the arrays consistent. *)
Lemma ecp_atom_consistent mol acc acc' (k : nat) (syms : string * string) :
  ecp_atom mol acc (k, syms) = Ok acc' →
  ecp_consistent k acc → ecp_consistent (S k) acc'.
Proof.
  destruct syms as [chem sym]. unfold ecp_atom, ecp_consistent.
  intros Hrun (L1 & L2 & L3 & L4 & L5 & L6 & L7 & F1 & F2).
  assert (F1' : Forall (fun i => i < S k) (ecp_nucleus_index acc)).
  { eapply Forall_impl; [exact F1|]. cbn. lia. }
  destruct (is_ghost_label chem || is_ghost_label sym).
  { injection Hrun as <-.
    destruct (ecp_dummy_term_consistent k acc L3 L4 L5 L6 L7 F1' F2)
      as (D1 & D2 & D3 & D4 & D5 & D6 & D7).
    cbn [ecp_max_ang_mom_plus_1 ecp_z_core ecp_nucleus_index ecp_ang_mom
         ecp_coefficient ecp_exponent ecp_power ecp_num].
    rewrite !length_app. cbn [length]. split_and!; try done; lia. }
  assert (Hentry : ∃ z chs, (match _ecp mol !! sym with
                             | Some v => Ok v
                             | None => match _ecp mol !! chem with
                                       | Some v => Ok v
                                       | None => Raise (KeyError chem)
                                       end
                             end) = Ok (z, chs)).
  { destruct (_ecp mol !! sym) as [[z chs]|]; [by exists z, chs|].
    destruct (_ecp mol !! chem) as [[z chs]|]; [by exists z, chs|]. done. }
  destruct Hentry as (z & chs & Hentry). rewrite Hentry in Hrun.
  rewrite result_bind_Ok in Hrun. cbv beta iota in Hrun.
  destruct (py_max (map fst chs)) as [mx|e]; [|done].
  rewrite result_bind_Ok in Hrun. cbv beta zeta in Hrun.
  set (m1 := if (mx =? -1)%Z then 1%Z else (mx + 1)%Z) in Hrun.
  set (terms := flat_map (ecp_channel_terms m1) chs) in Hrun.
  pose proof (ecp_terms_power m1 chs) as Hpow. fold terms in Hpow.
  set (acc1 := {| ecp_num := ecp_num acc + length terms;
                  ecp_max_ang_mom_plus_1 := ecp_max_ang_mom_plus_1 acc ++ [m1];
                  ecp_z_core := ecp_z_core acc ++ [z];
                  ecp_nucleus_index := ecp_nucleus_index acc ++ map (fun _ => k) terms;
                  ecp_ang_mom := ecp_ang_mom acc ++ map (fun t => t.1.1.1) terms;
                  ecp_coefficient := ecp_coefficient acc ++ map (fun t => t.1.1.2) terms;
                  ecp_exponent := ecp_exponent acc ++ map (fun t => t.1.2) terms;
                  ecp_power := ecp_power acc ++ map (fun t => t.2) terms |}) in Hrun.
  assert (A : length (ecp_max_ang_mom_plus_1 acc1) = S k ∧
              length (ecp_z_core acc1) = S k ∧
              length (ecp_nucleus_index acc1) = ecp_num acc1 ∧
              length (ecp_ang_mom acc1) = ecp_num acc1 ∧
              length (ecp_coefficient acc1) = ecp_num acc1 ∧
              length (ecp_exponent acc1) = ecp_num acc1 ∧
              length (ecp_power acc1) = ecp_num acc1 ∧
              Forall (fun i => i < S k) (ecp_nucleus_index acc1) ∧
              Forall (fun p => (-2 ≤ p)%Z) (ecp_power acc1)).
  { subst acc1. cbn. rewrite !length_app, !length_map. cbn [length].
    split_and!; try lia.
    - apply Forall_app. split; [done|]. apply Forall_forall.
      intros i (t & -> & _)%list_elem_of_In%in_map_iff. lia.
    - apply Forall_app. by split. }
  destruct A as (A1 & A2 & A3 & A4 & A5 & A6 & A7 & A8 & A9).
  destruct (mx =? -1)%Z; injection Hrun as <-; [|done].
  destruct (ecp_dummy_term_consistent k acc1 A3 A4 A5 A6 A7 A8 A9)
    as (D1 & D2 & D3 & D4 & D5 & D6 & D7).
  split_and!; done.
Qed.

Lemma ecp_loop_consistent mol (items : list (string * string)) (j : nat) acc acc' :
  foldM (ecp_atom mol) acc (zip (seq j (length items)) items) = Ok acc' →
  ecp_consistent j acc → ecp_consistent (j + length items) acc'.
Proof.
  revert j acc. induction items as [|it items IH]; intros j acc.
  { cbn. intros [= <-]. by rewrite Nat.add_0_r. }
  cbn [length seq zip zip_with foldM]. fold (zip (seq (S j) (length items)) items).
  destruct (ecp_atom mol acc (j, it)) as [acc1|e] eqn:Hstep; [|done].
  rewrite result_bind_Ok. intros Hrest Hc.
  replace (j + S (length items)) with (S j + length items) by lia.
  apply (IH (S j) acc1 Hrest). by apply (ecp_atom_consistent mol acc acc1 j it).
Qed.

(** The loop body returns exactly on the nuclei that [ecp_atom_ok] accepts. *)
Lemma ecp_atom_Ok_iff mol acc (k : nat) (a : atom R) :
  (∃ acc', ecp_atom mol acc (k, (atom_pure_symbol a, atom_symbol a)) = Ok acc')
  ↔ ecp_atom_ok mol a = true.
Proof.
  unfold ecp_atom, ecp_atom_ok.
  destruct (is_ghost_label (atom_pure_symbol a) || is_ghost_label (atom_symbol a)).
  { cbn. split; [done | by eexists]. }
  cbn [orb].
  destruct (_ecp mol !! atom_symbol a) as [[z chs]|].
  - rewrite result_bind_Ok. cbn [snd]. destruct chs as [|c chs]; cbn.
    + split; [by intros [? ?] | done].
    + split; [done | by eexists].
  - destruct (_ecp mol !! atom_pure_symbol a) as [[z chs]|].
    + rewrite result_bind_Ok. cbn [snd]. destruct chs as [|c chs]; cbn.
      * split; [by intros [? ?] | done].
      * split; [done | by eexists].
    + cbn. split; [by intros [? ?] | done].
Qed.

Lemma ecp_loop_Ok_iff mol (atoms : list (atom R)) (j : nat) acc :
  (∃ acc', foldM (ecp_atom mol) acc
                 (zip (seq j (length atoms))
                      (zip (map atom_pure_symbol atoms) (map atom_symbol atoms)))
           = Ok acc')
  ↔ forallb (ecp_atom_ok mol) atoms = true.
Proof.
  revert j acc. induction atoms as [|a atoms IH]; intros j acc.
  { cbn. split; [done | by eexists]. }
  cbn [length seq map zip zip_with foldM forallb].
  fold (zip (map atom_pure_symbol atoms) (map atom_symbol atoms)).
  fold (zip (seq (S j) (length atoms))
            (zip (map atom_pure_symbol atoms) (map atom_symbol atoms))).
  rewrite andb_true_iff, <- (ecp_atom_Ok_iff mol acc j a).
  destruct (ecp_atom mol acc (j, (atom_pure_symbol a, atom_symbol a))) as [acc1|e].
  - rewrite result_bind_Ok, (IH (S j) acc1). split; [by split; [eexists|] | by intros [_ ?]].
  - split; [by intros [? ?] | by intros [[? ?] _]].
Qed.
End EcpArrays.

(** Whenever the ECP loop completes, the arrays it hands to the writer are
    consistent: the two per-nucleus arrays have one entry per nucleus, each
    of the five flat arrays has [ecp_num] entries, every nucleus index is
    that of a nucleus, and every power is at least [-2]. *)
Theorem ecp_encode_consistent {R : Type} `{!Host R} (mol : Mole R)
    (e : ecp_arrays R) :
  ecp_encode mol = Ok e → ecp_consistent (natm mol) e.
Proof.
  unfold ecp_encode, enumerate. intros Hrun.
  assert (Hlen : length (zip (map atom_pure_symbol (_atom mol))
                             (map atom_symbol (_atom mol))) = natm mol).
  { unfold natm. rewrite length_zip_with, !length_map. lia. }
  rewrite <- Hlen.
  apply (ecp_loop_consistent mol _ 0 ecp_empty e Hrun).
  unfold ecp_consistent. cbn. split_and!; done.
Qed.

Lemma ecp_encode_consistent_witness :
  ecp_consistent (natm f2_ecp_mol)
    {| ecp_num := 6; ecp_max_ang_mom_plus_1 := [1%Z; 1%Z]; ecp_z_core := [2%Z; 2%Z];
       ecp_nucleus_index := [0; 0; 0; 1; 1; 1];
       ecp_ang_mom := [1%Z; 1%Z; 0%Z; 1%Z; 1%Z; 0%Z];
       ecp_coefficient := [3%Z; 4%Z; 6%Z; 3%Z; 4%Z; 6%Z];
       ecp_exponent := [1%Z; 2%Z; 5%Z; 1%Z; 2%Z; 5%Z];
       ecp_power := [(-1)%Z; 0%Z; 0%Z; (-1)%Z; 0%Z; 0%Z] |}.
Proof. apply (ecp_encode_consistent f2_ecp_mol). by vm_compute. Defined.

(** The ECP loop completes exactly when every nucleus is a ghost centre or
    has an entry of the ECP table, under its atom symbol or else its chemical
    symbol, that lists at least one channel. *)
Theorem ecp_encode_completes_iff {R : Type} `{!Host R} (mol : Mole R) :
  (∃ e, ecp_encode mol = Ok e) ↔ forallb (ecp_atom_ok mol) (_atom mol) = true.
Proof.
  unfold ecp_encode, enumerate. rewrite length_zip_with, !length_map, Nat.min_id.
  apply ecp_loop_Ok_iff.
Qed.

(** ** The arrays of an exported structure *)

Section ExportedArrays.
Context {R : Type} `{!Host R}.
Implicit Types (mol : Mole R) (tf : trexio_file R).

(** The shell, primitive and atomic-orbital attributes after a completed
    export, with or without ECP table. *)
Lemma _mol_to_trexio_arrays mol tf tf' :
  _mol_to_trexio mol tf = (Ok tt, tf') →
  tf' !! "basis_shell_num" = Some (VInt (Z.of_nat (nbas mol))) ∧
  tf' !! "basis_prim_num"
    = Some (VInt (Z.of_nat (sum_list (map (fun b => NPRIM_OF b.2) (_bas mol))))) ∧
  tf' !! "basis_nucleus_index"
    = Some (VInts (map (fun b => Z.of_nat b.1) (_bas mol))) ∧
  tf' !! "basis_shell_ang_mom"
    = Some (VInts (map (fun b => Z.of_nat (ANG_OF b.2)) (_bas mol))) ∧
  tf' !! "basis_shell_factor" = Some (VReals (replicate (nbas mol) fone)) ∧
  tf' !! "basis_shell_index"
    = Some (VInts (concat (map (fun ib => replicate (NPRIM_OF ib.2.2) (Z.of_nat ib.1))
                               (enumerate (_bas mol))))) ∧
  tf' !! "basis_exponent"
    = Some (VReals (concat (map (fun b => bas_exp b.2) (_bas mol)))) ∧
  tf' !! "basis_prim_factor"
    = Some (VReals (concat (map (fun b => map (gto_norm (ANG_OF b.2)) (bas_exp b.2))
                                (_bas mol)))) ∧
  tf' !! "ao_num" = Some (VInt (Z.of_nat (nao mol))) ∧
  tf' !! "ao_shell"
    = Some (VInts (flat_map (fun ib => replicate (ao_per_shell (cart mol) (ANG_OF ib.2.2))
                                                 (Z.of_nat ib.1))
                            (enumerate (_bas mol)))) ∧
  tf' !! "ao_normalization"
    = Some (VReals (flat_map (fun b => ao_norm_of_shell (cart mol) (ANG_OF b.2))
                             (_bas mol))).
Proof.
  intros Hrun.
  pose proof (_mol_to_trexio_outcome mol tf) as Hout. rewrite Hrun in Hout.
  cbn [fst] in Hout. unfold mol_outcome in Hout.
  destruct (bool_decide (_bas mol = [])) eqn:Hbas; [done|].
  apply bool_decide_eq_false in Hbas.
  destruct (forallb _ (_bas mol)) eqn:Hn; [|done]. cbn [negb] in Hout.
  destruct (bool_decide (0 < size (_pseudo mol))) eqn:Hp; [done|].
  revert Hrun.
  unfold _mol_to_trexio, write_metadata, write_nucleus, write_pbc,
    write_electron, write_basis, write_ecp_group, write_ao, write_ecp.
  rewrite !np_hstack_ne by auto using map_ne_nil, enumerate_ne_nil.
  rewrite Hn, Hp.
  destruct (bool_decide (_ecp mol = ∅)).
  - destruct (symmetry mol), (lattice mol) as [[[a b] c]|];
      tio_simpl; cbn [negb]; intros Hrun; apply (f_equal snd) in Hrun;
      cbn [snd] in Hrun; subst tf'; split_and!; lookup_writes.
  - destruct (ecp_encode mol) as [e|err]; [|done].
    destruct (symmetry mol), (lattice mol) as [[[a b] c]|];
      tio_simpl; cbn [negb]; intros Hrun; apply (f_equal snd) in Hrun;
      cbn [snd] in Hrun; subst tf'; split_and!; lookup_writes.
Qed.

Lemma map_snd_enumerate {A B : Type} (f : A → B) (l : list A) :
  map (fun ib => f ib.2) (enumerate l) = map f l.
Proof.
  unfold enumerate. rewrite <- (map_map snd f). f_equal.
  change (map snd ?x) with (snd <$> x). apply snd_zip. by rewrite length_seq.
Qed.

Lemma enumerate_index_bound {A : Type} (l : list A) :
  Forall (fun ib => ib.1 < length l) (enumerate l).
Proof.
  apply Forall_forall. intros [i x] Hin. unfold enumerate in Hin.
  apply list_elem_of_lookup in Hin as [k Hk].
  apply lookup_zip_with_Some in Hk as (i' & x' & [= <- <-] & Hi & _).
  apply lookup_seq in Hi as [-> ?]. cbn. lia.
Qed.

Lemma length_ao_norm_of_shell (c : bool) (l : nat) :
  length (ao_norm_of_shell c l) = ao_per_shell c l.
Proof.
  unfold ao_norm_of_shell. destruct c; [|by rewrite length_replicate].
  destruct (bool_decide (l = 0 ∨ l = 1)); by rewrite length_replicate.
Qed.

Lemma nao_single_contraction mol :
  Forall (fun b => NCTR_OF b.2 = 1) (_bas mol) →
  nao mol = sum_list (map (fun b => ao_per_shell (cart mol) (ANG_OF b.2)) (_bas mol)).
Proof.
  intros Hn. unfold nao, nao_cart, nao_nr, ao_per_shell.
  destruct (cart mol); f_equal; apply map_ext_in; intros [ia sh] Hin%list_elem_of_In;
    pose proof (proj1 (Forall_forall _ _) Hn _ Hin) as H1; cbn [snd] in *;
    rewrite H1; lia.
Qed.
End ExportedArrays.

(** In every file a completed export of a structure has written, the counts
    agree with the arrays: [basis_shell_num] is the length of the three
    per-shell arrays, [basis_prim_num] the length of the three per-primitive
    arrays, [ao_num] the length of [ao_shell] and of [ao_normalization]; and
    every entry of [basis_shell_index] and of [ao_shell] is the index of a
    shell. *)
Theorem exported_counts_agree {R : Type} `{!Host R} (mol : Mole R)
    (tf tf' : trexio_file R) :
  to_trexio (ObjMole mol) tf = (Ok tt, tf') →
  ∃ (nuc ang sidx ao_shell : list Z) (fac exps pf ao_norm : list R),
    tf' !! "basis_nucleus_index" = Some (VInts nuc) ∧
    tf' !! "basis_shell_ang_mom" = Some (VInts ang) ∧
    tf' !! "basis_shell_factor" = Some (VReals fac) ∧
    tf' !! "basis_shell_index" = Some (VInts sidx) ∧
    tf' !! "basis_exponent" = Some (VReals exps) ∧
    tf' !! "basis_prim_factor" = Some (VReals pf) ∧
    tf' !! "ao_shell" = Some (VInts ao_shell) ∧
    tf' !! "ao_normalization" = Some (VReals ao_norm) ∧
    tf' !! "basis_shell_num" = Some (VInt (Z.of_nat (length nuc))) ∧
    length ang = length nuc ∧ length fac = length nuc ∧
    tf' !! "basis_prim_num" = Some (VInt (Z.of_nat (length exps))) ∧
    length sidx = length exps ∧ length pf = length exps ∧
    tf' !! "ao_num" = Some (VInt (Z.of_nat (length ao_shell))) ∧
    length ao_norm = length ao_shell ∧
    Forall (fun i => (0 ≤ i < Z.of_nat (length nuc))%Z) sidx ∧
    Forall (fun i => (0 ≤ i < Z.of_nat (length nuc))%Z) ao_shell.
Proof.
  cbn [to_trexio]. intros Hrun.
  destruct (_mol_to_trexio_Ok_inv mol tf tf' Hrun) as [Hbas Hnctr].
  destruct (_mol_to_trexio_arrays mol tf tf' Hrun)
    as (V1 & V2 & V3 & V4 & V5 & V6 & V7 & V8 & V9 & V10 & V11).
  do 8 eexists. split_and!; try eassumption.
  - by rewrite V1, length_map.
  - by rewrite !length_map.
  - by rewrite length_replicate, length_map.
  - rewrite V2. do 3 f_equal. rewrite length_concat.
    change (length <$> ?x) with (map length x). by rewrite map_map.
  - rewrite !length_concat. change (length <$> ?x) with (map length x).
    rewrite !map_map. f_equal.
    etrans; [|apply (map_snd_enumerate (fun b : nat * shell R => length (bas_exp b.2)))].
    apply map_ext. intros ib. by rewrite length_replicate.
  - rewrite !length_concat. change (length <$> ?x) with (map length x).
    rewrite !map_map. f_equal. apply map_ext. intros b. by rewrite length_map.
  - rewrite V9. do 3 f_equal. rewrite (nao_single_contraction mol Hnctr).
    rewrite flat_map_concat_map, length_concat.
    change (length <$> ?x) with (map length x). rewrite map_map. f_equal.
    rewrite <- (map_snd_enumerate
                  (fun b : nat * shell R => ao_per_shell (cart mol) (ANG_OF b.2))).
    apply map_ext. intros ib. by rewrite length_replicate.
  - rewrite !flat_map_concat_map, !length_concat.
    change (length <$> ?x) with (map length x). rewrite !map_map. f_equal.
    transitivity (map (fun b : nat * shell R => ao_per_shell (cart mol) (ANG_OF b.2))
                      (_bas mol)).
    { apply map_ext. intros b. apply length_ao_norm_of_shell. }
    rewrite <- (map_snd_enumerate
                  (fun b : nat * shell R => ao_per_shell (cart mol) (ANG_OF b.2))).
    apply map_ext. intros ib. by rewrite length_replicate.
  - rewrite length_map. apply Forall_forall. intros i Hi%list_elem_of_In.
    rewrite <- flat_map_concat_map in Hi. apply in_flat_map in Hi as (ib & Hib & Hi).
    apply list_elem_of_In, elem_of_replicate in Hi as [-> _].
    apply list_elem_of_In in Hib.
    pose proof (proj1 (Forall_forall _ _) (enumerate_index_bound (_bas mol)) ib Hib)
      as Hlt.
    cbv beta in Hlt. lia.
  - rewrite length_map. apply Forall_forall. intros i Hi%list_elem_of_In.
    apply in_flat_map in Hi as (ib & Hib & Hi).
    apply list_elem_of_In, elem_of_replicate in Hi as [-> _].
    apply list_elem_of_In in Hib.
    pose proof (proj1 (Forall_forall _ _) (enumerate_index_bound (_bas mol)) ib Hib)
      as Hlt.
    cbv beta in Hlt. lia.
Qed.

Lemma exported_counts_agree_witness :
  ∃ (nuc ang sidx ao_shell : list Z) (fac exps pf ao_norm : list Z),
    (to_trexio (ObjMole (spdf_mol true)) ∅).2 !! "basis_nucleus_index"
      = Some (VInts nuc) ∧
    (to_trexio (ObjMole (spdf_mol true)) ∅).2 !! "basis_shell_ang_mom"
      = Some (VInts ang) ∧
    (to_trexio (ObjMole (spdf_mol true)) ∅).2 !! "basis_shell_factor"
      = Some (VReals fac) ∧
    (to_trexio (ObjMole (spdf_mol true)) ∅).2 !! "basis_shell_index"
      = Some (VInts sidx) ∧
    (to_trexio (ObjMole (spdf_mol true)) ∅).2 !! "basis_exponent"
      = Some (VReals exps) ∧
    (to_trexio (ObjMole (spdf_mol true)) ∅).2 !! "basis_prim_factor"
      = Some (VReals pf) ∧
    (to_trexio (ObjMole (spdf_mol true)) ∅).2 !! "ao_shell" = Some (VInts ao_shell) ∧
    (to_trexio (ObjMole (spdf_mol true)) ∅).2 !! "ao_normalization"
      = Some (VReals ao_norm) ∧
    (to_trexio (ObjMole (spdf_mol true)) ∅).2 !! "basis_shell_num"
      = Some (VInt (Z.of_nat (length nuc))) ∧
    length ang = length nuc ∧ length fac = length nuc ∧
    (to_trexio (ObjMole (spdf_mol true)) ∅).2 !! "basis_prim_num"
      = Some (VInt (Z.of_nat (length exps))) ∧
    length sidx = length exps ∧ length pf = length exps ∧
    (to_trexio (ObjMole (spdf_mol true)) ∅).2 !! "ao_num"
      = Some (VInt (Z.of_nat (length ao_shell))) ∧
    length ao_norm = length ao_shell ∧
    Forall (fun i => (0 ≤ i < Z.of_nat (length nuc))%Z) sidx ∧
    Forall (fun i => (0 ≤ i < Z.of_nat (length nuc))%Z) ao_shell.
Proof.
  apply (exported_counts_agree (spdf_mol true) ∅).
  apply (tio_run_snd (to_trexio (ObjMole (spdf_mol true))) ∅ tt).
  vm_compute. reflexivity.
Defined.

(** ** The orbital group written for a restricted wavefunction *)

Section RhfLayout.
Context {R : Type} `{!Host R}.
Implicit Types (mol : Mole R) (tf : trexio_file R).

Lemma concat_shaped_lookup {A : Type} (m : list (list A)) (r c j i : nat) :
  shaped r c m → i < c →
  concat m !! (j * c + i) = m !! j ≫= (fun row => row !! i).
Proof.
  intros [_ Hrows] Hi. revert j.
  induction Hrows as [|row m Hrow Hrows IH]; intros j; [done|].
  cbn [concat]. destruct j as [|j].
  - cbn. rewrite lookup_app_l by lia. done.
  - rewrite lookup_app_r by (rewrite Hrow; lia).
    replace (S j * c + i - length row) with (j * c + i) by (rewrite Hrow; lia).
    apply IH.
Qed.

(** Gathering the rows of a matrix at a rearrangement of its row numbers. *)
Lemma np_take_rows {A : Type} (m P : list (list A)) (idx : list nat) (r c : nat) :
  shaped r c m → idx ≡ₚ seq 0 r → np_take m idx = Ok P →
  shaped r c P ∧ ∀ i p, idx !! i = Some p → P !! i = m !! p.
Proof.
  intros [Hlen Hrows] Hperm HP.
  assert (Hidx : Forall (fun i => i < length m) idx).
  { rewrite Hperm, Hlen. apply Forall_seq. intros; lia. }
  destruct (np_take_Ok m idx Hidx) as (P' & HP' & Hall).
  rewrite HP in HP'. injection HP' as <-.
  assert (Hlidx : length idx = r) by (by rewrite Hperm, length_seq).
  split; [split|].
  - by rewrite <- (Forall2_length _ _ _ Hall).
  - apply Forall_forall. intros row Hrow.
    apply list_elem_of_lookup in Hrow as [k Hk].
    destruct (Forall2_lookup_r _ _ _ _ _ Hall Hk) as (i & _ & Hi).
    eapply (proj1 (Forall_forall _ _) Hrows), list_elem_of_lookup_2, Hi.
  - intros i p Hi. destruct (Forall2_lookup_l _ _ _ _ _ Hall Hi) as (x & Hx & Hp).
    by rewrite Hx, Hp.
Qed.

Lemma write_mo_RHF_tags mol kpt me mc mo tf tf1 :
  write_mo (RHF mol kpt me mc mo) tf = (Ok tt, tf1) →
  tf1 !! "mo_type" = Some (VStr "RHF") ∧
  tf1 !! "mo_spin" = Some (VInts (replicate (length me) 0%Z)).
Proof.
  unfold write_mo. cbn [scf_mol]. tio_simpl.
  destruct (_order_ao_index mol) as [idx|e] eqn:Hidx; [|done].
  cbn [arr_take]. destruct (np_take mc idx) as [P|e] eqn:HP; [|done].
  cbn. intros Hrun. apply (f_equal snd) in Hrun. cbn [snd] in Hrun. subst tf1.
  split; lookup_writes.
Qed.

(** A completed export of a wavefunction ran the structure part and then
    the orbital part, on a file that differs from the structure part's by
    k-point attributes at most. *)
Lemma _scf_to_trexio_Ok_inv (mf : SCF R) tf tf1 :
  to_trexio (ObjSCF mf) tf = (Ok tt, tf1) →
  ∃ tfm tf2,
    _mol_to_trexio (scf_mol mf) tf = (Ok tt, tfm) ∧
    (∀ k, k ∉ kpoint_attrs → tf2 !! k = tfm !! k) ∧
    write_mo mf tf2 = (Ok tt, tf1).
Proof.
  cbn [to_trexio]. rewrite _scf_to_trexio_parts. intros Hrun.
  destruct (scf_structure_part mf tf) as [[[]|e] tf2] eqn:Hpart; [|done].
  unfold scf_structure_part in Hpart. rewrite tio_bind_run in Hpart.
  destruct (_mol_to_trexio (scf_mol mf) tf) as [[[]|e] tfm] eqn:Hmol; [|done].
  exists tfm, tf2. split_and!; [done| |done].
  intros k Hk. destruct (lattice (scf_mol mf)) as [a|].
  - pose proof (write_kpoint_within a (scf_kpt mf) tfm k Hk) as Hf.
    by rewrite Hpart in Hf.
  - by injection Hpart as <-.
Qed.
End RhfLayout.

(** After a completed export of a restricted wavefunction with [nmo]
    orbitals over [nao] atomic orbitals, the orbital group holds the type
    tag ['RHF'], the orbital count, spin tags that are all 0, and the
    coefficients in orbital-major order with the atomic-orbital axis permuted
    by [_order_ao_index]: entry [j * nao + i] of the flat array is the
    coefficient of orbital [j] on the atomic orbital [idx[i]]. *)
Theorem rhf_export_layout {R : Type} `{!Host R} (mol : Mole R) (kpt : list R)
    (mo_energy : list R) (mo_coeff : list (list R)) (mo_occ : list R)
    (tf tf1 : trexio_file R) :
  shaped (nao mol) (length mo_energy) mo_coeff →
  to_trexio (ObjSCF (RHF mol kpt mo_energy mo_coeff mo_occ)) tf = (Ok tt, tf1) →
  ∃ idx flat,
    _order_ao_index mol = Ok idx ∧
    tf1 !! "mo_type" = Some (VStr "RHF") ∧
    tf1 !! "mo_num" = Some (VInt (Z.of_nat (length mo_energy))) ∧
    tf1 !! "mo_spin" = Some (VInts (replicate (length mo_energy) 0%Z)) ∧
    tf1 !! "mo_energy" = Some (VReals mo_energy) ∧
    tf1 !! "mo_occupation" = Some (VReals mo_occ) ∧
    tf1 !! "mo_coefficient" = Some (VReals flat) ∧
    length flat = length mo_energy * nao mol ∧
    ∀ i j p, idx !! i = Some p → j < length mo_energy →
      flat !! (j * nao mol + i) = mo_coeff !! p ≫= (fun row => row !! j).
Proof.
  intros Hs Hrun.
  destruct (_scf_to_trexio_Ok_inv _ tf tf1 Hrun) as (tfm & tf2 & Hmol & _ & Hmo).
  cbn [scf_mol] in Hmol.
  destruct (_mol_to_trexio_Ok_inv mol tf tfm Hmol) as [Hbas Hnctr].
  pose proof (nao_pos mol Hbas Hnctr) as Hpos.
  destruct (write_mo_RHF mol kpt mo_energy mo_coeff mo_occ tf2 tf1 Hmo)
    as (idx & P & Hidx & HP & Hnum & Hco & Hen & Hocc).
  destruct (write_mo_RHF_tags mol kpt mo_energy mo_coeff mo_occ tf2 tf1 Hmo)
    as [Hty Hsp].
  pose proof (_order_ao_index_Permutation mol idx Hidx) as Hperm.
  destruct (np_take_rows mo_coeff P idx _ _ Hs Hperm HP) as [HPs Hrows].
  pose proof (np_T_shaped P _ _ HPs Hpos) as HTs.
  exists idx, (concat (np_T P)). split_and!; try done.
  - by apply length_concat_shaped.
  - intros i j p Hi Hj.
    assert (Hilt : i < nao mol).
    { apply lookup_lt_Some in Hi. by rewrite Hperm, length_seq in Hi. }
    rewrite (concat_shaped_lookup _ _ _ j i HTs Hilt).
    rewrite <- (Hrows i p Hi).
    destruct (lookup_lt_is_Some_2 P i) as [row Hrow].
    { destruct HPs as [-> _]. done. }
    destruct (np_T_lookup P _ _ j i row HPs Hj Hrow) as (col & Hcol & Hci).
    by rewrite Hcol, Hrow.
Qed.

Lemma rhf_export_layout_witness :
  ∃ idx flat,
    _order_ao_index p_shell_mol = Ok idx ∧
    (to_trexio (ObjSCF (RHF p_shell_mol [] [1%Z; 2%Z]
        [[10%Z; 11%Z]; [20%Z; 21%Z]; [30%Z; 31%Z]] [2%Z; 0%Z])) ∅).2 !! "mo_type"
      = Some (VStr "RHF") ∧
    (to_trexio (ObjSCF (RHF p_shell_mol [] [1%Z; 2%Z]
        [[10%Z; 11%Z]; [20%Z; 21%Z]; [30%Z; 31%Z]] [2%Z; 0%Z])) ∅).2 !! "mo_num"
      = Some (VInt (Z.of_nat (length [1%Z; 2%Z]))) ∧
    (to_trexio (ObjSCF (RHF p_shell_mol [] [1%Z; 2%Z]
        [[10%Z; 11%Z]; [20%Z; 21%Z]; [30%Z; 31%Z]] [2%Z; 0%Z])) ∅).2 !! "mo_spin"
      = Some (VInts (replicate (length [1%Z; 2%Z]) 0%Z)) ∧
    (to_trexio (ObjSCF (RHF p_shell_mol [] [1%Z; 2%Z]
        [[10%Z; 11%Z]; [20%Z; 21%Z]; [30%Z; 31%Z]] [2%Z; 0%Z])) ∅).2 !! "mo_energy"
      = Some (VReals [1%Z; 2%Z]) ∧
    (to_trexio (ObjSCF (RHF p_shell_mol [] [1%Z; 2%Z]
        [[10%Z; 11%Z]; [20%Z; 21%Z]; [30%Z; 31%Z]] [2%Z; 0%Z])) ∅).2 !! "mo_occupation"
      = Some (VReals [2%Z; 0%Z]) ∧
    (to_trexio (ObjSCF (RHF p_shell_mol [] [1%Z; 2%Z]
        [[10%Z; 11%Z]; [20%Z; 21%Z]; [30%Z; 31%Z]] [2%Z; 0%Z])) ∅).2 !! "mo_coefficient"
      = Some (VReals flat) ∧
    length flat = length [1%Z; 2%Z] * nao p_shell_mol ∧
    ∀ i j p, idx !! i = Some p → j < length [1%Z; 2%Z] →
      flat !! (j * nao p_shell_mol + i)
      = [[10%Z; 11%Z]; [20%Z; 21%Z]; [30%Z; 31%Z]] !! p ≫= (fun row => row !! j).
Proof.
  apply (rhf_export_layout p_shell_mol [] [1%Z; 2%Z]
           [[10%Z; 11%Z]; [20%Z; 21%Z]; [30%Z; 31%Z]] [2%Z; 0%Z] ∅).
  - apply (bool_decide_unpack _). by vm_compute.
  - apply (tio_run_snd (to_trexio (ObjSCF (RHF p_shell_mol [] [1%Z; 2%Z]
        [[10%Z; 11%Z]; [20%Z; 21%Z]; [30%Z; 31%Z]] [2%Z; 0%Z]))) ∅ tt).
    vm_compute. reflexivity.
Defined.

(** ** Import of a wavefunction that is not square *)

(** The importer handles square coefficient matrices only: when a restricted
    wavefunction with fewer or more orbitals than atomic orbitals has been
    exported (to a file without ECP data), [scf_from_trexio] on the written
    file fails its shape assertion. *)
Theorem scf_import_rejects_non_square {R : Type} `{!Host R} (mol : Mole R)
    (kpt : list R) (mo_energy : list R) (mo_coeff : list (list R))
    (mo_occ : list R) (tf0 tf1 : trexio_file R) (uninit : nat → nat → R) :
  _ecp mol = ∅ →
  has_ecp tf0 = false →
  tf0 !! "nucleus_point_group" = None →
  Forall (fun b => bas_exp b.2 ≠ []) (_bas mol) →
  NoDup (elements_of mol) →
  Z.odd (nelectron_of (elements_of mol)) = false →
  (symmetry mol = true →
   check_symm (groupname mol)
              (zip (elements_of mol) (map atom_coord (_atom mol))) = true) →
  shaped (nao mol) (length mo_energy) mo_coeff →
  length mo_energy ≠ nao mol →
  to_trexio (ObjSCF (RHF mol kpt mo_energy mo_coeff mo_occ)) tf0 = (Ok tt, tf1) →
  scf_from_trexio uninit tf1 = Raise (AssertionError square_cond).
Proof.
  intros He Hnoecp Hpg Hprim Hnd Hodd Hsymok Hs Hne Hrun.
  destruct (rhf_export_file mol kpt mo_energy mo_coeff mo_occ tf0 tf1
              He Hnoecp Hpg Hrun)
    as (Hst & Hbas & Hnctr & Hao & idx & P & Hidx & HP & Hnum & Hco & Hen & Hocc).
  destruct (mol_from_trexio_structure mol tf1 Hst Hbas Hnctr Hprim Hnd Hodd Hsymok)
    as (mol' & Hmol' & Hcart & Hang).
  destruct (_order_ao_index_ext mol' mol Hcart Hang) as [Hnao _].
  pose proof (nao_pos mol Hbas Hnctr) as Hpos.
  pose proof (_order_ao_index_Permutation mol idx Hidx) as Hperm.
  destruct (np_take_rows mo_coeff P idx _ _ Hs Hperm HP) as [HPs _].
  pose proof (length_concat_shaped _ _ _ (np_T_shaped P _ _ HPs Hpos)) as Hlen.
  unfold scf_from_trexio, read_mo_coefficient, read_reals, read_int.
  rewrite Hmol', Hen, Hnum, Hao, Hco, Hocc.
  repeat (rewrite result_bind_Ok; cbv beta).
  rewrite !Nat2Z.id, Hlen, Nat.eqb_refl.
  rewrite result_bind_Ok. cbv beta iota. rewrite Hnao.
  by rewrite (proj2 (Nat.eqb_neq _ _) Hne).
Qed.

Lemma scf_import_rejects_non_square_witness :
  scf_from_trexio (fun _ _ => 0%Z)
    (to_trexio (ObjSCF (RHF (h2_mol false) [] [(-5)%Z] [[1%Z]; [3%Z]] [2%Z])) ∅).2
  = Raise (AssertionError square_cond).
Proof.
  apply (scf_import_rejects_non_square (h2_mol false) [] [(-5)%Z] [[1%Z]; [3%Z]]
           [2%Z] ∅).
  - reflexivity.
  - reflexivity.
  - reflexivity.
  - apply (bool_decide_unpack _). by vm_compute.
  - apply (bool_decide_unpack _). by vm_compute.
  - reflexivity.
  - intros [=].
  - apply (bool_decide_unpack _). by vm_compute.
  - by vm_compute.
  - apply (tio_run_snd (to_trexio (ObjSCF (RHF (h2_mol false) [] [(-5)%Z]
                                               [[1%Z]; [3%Z]] [2%Z]))) ∅ tt).
    vm_compute. reflexivity.
Defined.

(** ** Export of a structure followed by import *)

Section StructureRoundTrip.
Context {R : Type} `{!Host R}.
Implicit Types (mol : Mole R) (tf : trexio_file R).

Lemma mol_export_holds_structure mol tf0 tf1 :
  _ecp mol = ∅ →
  has_ecp tf0 = false →
  tf0 !! "nucleus_point_group" = None →
  _mol_to_trexio mol tf0 = (Ok tt, tf1) →
  holds_structure mol tf1.
Proof.
  intros He Hnoecp Hpg Hmol.
  destruct (_mol_to_trexio_values mol tf0 tf1 He Hmol)
    as (V1 & V2 & V3 & V4 & V5 & V6 & V7 & V8 & V9 & V10 & V11).
  split; try done.
  - rewrite <- Hnoecp. apply has_ecp_agree. intros k Hin.
    assert (k ∉ mol_attrs) as Hnm
      by (by apply (proj1 (Forall_forall _ _) ecp_attrs_not_mol_attrs)).
    pose proof (_mol_to_trexio_within_no_ecp mol He tf0 k Hnm) as Hf.
    by rewrite Hmol in Hf.
  - rewrite V5. by rewrite Hpg.
Qed.

Lemma map_filter_nonempty {A B : Type} (f : A → B) (l : list (list A)) :
  map (map f) (filter (fun g => g ≠ []) l) = filter (fun g => g ≠ []) (map (map f) l).
Proof.
  induction l as [|g l IH]; [done|]. cbn [map].
  destruct g as [|x g].
  - rewrite !filter_cons_False by (by intros ?). apply IH.
  - cbn [map]. rewrite !filter_cons_True by done. cbn [map]. by rewrite IH.
Qed.
End StructureRoundTrip.



(** ** The index lists of [write_eri] *)

Section EriIndex.
Context {R : Type} `{!Scalar R}.
Implicit Types (tf : trexio_file R).

Lemma list_prod_lookup {A B : Type} (l1 : list A) (l2 : list B) (i j : nat) x y :
  l1 !! i = Some x → l2 !! j = Some y →
  list_prod l1 l2 !! (i * length l2 + j) = Some (x, y).
Proof.
  intros Hi Hj. pose proof (lookup_lt_Some _ _ _ Hj) as Hlt.
  revert i Hi. induction l1 as [|x0 l1 IH]; intros i Hi; [done|].
  cbn [list_prod]. destruct i as [|i].
  - injection Hi as ->. cbn. rewrite lookup_app_l by (by rewrite length_map).
    change (map ?f ?l) with (f <$> l). by rewrite list_lookup_fmap, Hj.
  - rewrite lookup_app_r by (rewrite length_map; lia). rewrite length_map.
    replace (S i * length l2 + j - length l2) with (i * length l2 + j) by lia.
    by apply IH.
Qed.

Lemma lower_triangle_lookup (n : nat) (a : nat * nat) :
  a ∈ lower_triangle n → lower_triangle n !! pair_address a = Some a.
Proof.
  intros [k Hk]%list_elem_of_lookup.
  assert (Hk' : (map pair_address (lower_triangle n)) !! k = Some (pair_address a)).
  { change (map ?f ?l) with (f <$> l). by rewrite list_lookup_fmap, Hk. }
  rewrite lower_triangle_addresses in Hk'. apply lookup_seq in Hk' as [Heq _].
  rewrite Nat.add_0_l in Heq. by rewrite Heq.
Qed.

Lemma length_cartesian_prod4 (n : nat) :
  length (cartesian_prod4 n) = n * n * n * n.
Proof.
  unfold cartesian_prod4. rewrite length_map, !length_prod, !length_seq. lia.
Qed.

Lemma write_mo_2e_int_eri_fresh (idx : list (nat * nat * nat * nat))
    (vals : list R) tf :
  0 < length vals → length idx = length vals → tf !! "mo_2e_int_eri" = None →
  write_mo_2e_int_eri (length vals) idx vals tf
  = (Ok tt, <["mo_2e_int_eri" := VSparse idx vals]> tf).
Proof.
  intros Hpos Hlen Hnone. unfold write_mo_2e_int_eri.
  rewrite (proj2 (Nat.eqb_neq _ _)) by lia.
  unfold has_attr. rewrite Hnone.
  rewrite bool_decide_eq_false_2 by (by intros [? ?]).
  by rewrite !take_ge by lia.
Qed.

Lemma cartesian_prod4_lookup (n i j k l : nat) :
  i < n → j < n → k < n → l < n →
  cartesian_prod4 n !! (((i * n + j) * n + k) * n + l) = Some (i, j, k, l).
Proof.
  intros Hi Hj Hk Hl. unfold cartesian_prod4.
  change (map ?f ?x) with (f <$> x). rewrite list_lookup_fmap.
  assert (Hs : ∀ m, m < n → seq 0 n !! m = Some m).
  { intros m Hm. by apply lookup_seq. }
  pose proof (list_prod_lookup (seq 0 n) (seq 0 n) k l k l (Hs k Hk) (Hs l Hl)) as H1.
  pose proof (list_prod_lookup (seq 0 n) _ j _ j _ (Hs j Hj) H1) as H2.
  pose proof (list_prod_lookup (seq 0 n) _ i _ i _ (Hs i Hi) H2) as H3.
  rewrite !length_prod, !length_seq in H3.
  replace (((i * n + j) * n + k) * n + l)
    with (i * (n * (n * n)) + (j * (n * n) + (k * n + l))) by lia.
  by rewrite H3.
Qed.
End EriIndex.






